(** * fl: the particle filter and its discrete (weighted-sample) belief

    A shallow embedding of
      - include/fl/distribution/discrete_distribution.hpp
      - include/fl/filter/particle/particle_filter.hpp
      - include/fl/distribution/standard_gaussian.hpp
    together with the properties of the weighting / resampling cycle.

    Conventions of the embedding.
      - [fl::FloatingPoint] / [fl::Real] are modelled by the real numbers
        [R]: every statement is about exact arithmetic, rounding and the
        non-finite values of IEEE doubles are outside the model.
      - [Eigen::Array<T, Dynamic, 1>] and [std::vector<T>] are lists.
      - [size_t] values are [nat]; an [int] parameter that the caller may
        make negative is a [Z].  Particle counts are assumed to fit an [int].
        In standard_gaussian.hpp a [size_t] is compared with and stored
        into an [int]: there both are [Z], with a 32-bit [int], a 64-bit
        [size_t] and the conversions between them written out.
      - A call whose C++ behaviour is not defined (an Eigen assertion, an
        index past the end) yields [Undefined]; a [fl_throw] yields [Thrown].
      - Belief objects are passed by reference in the source, so the filter
        runs over a store of beliefs addressed by references, and two
        parameters may name the same object. *)

From Stdlib Require Import Reals Lra Lia List Arith ZArith Bool.
From Equations Require Import Equations.
Import ListNotations.

Open Scope R_scope.

(** ** Outcomes of a call *)

(** The one exception thrown in the embedded sources
    (standard_gaussian.hpp, [StandardGaussian::dimension]). *)
Inductive fl_exception : Type :=
| ResizingFixedSizeEntityException (from to : Z).

Inductive outcome (A : Type) : Type :=
| Done (a : A)
| Thrown (e : fl_exception)
| Undefined.

Arguments Done {A} a.
Arguments Thrown {A} e.
Arguments Undefined {A}.

Definition obind {A B : Type} (o : outcome A) (k : A -> outcome B) : outcome B :=
  match o with
  | Done a => k a
  | Thrown e => Thrown e
  | Undefined => Undefined
  end.

Declare Scope outcome_scope.
Delimit Scope outcome_scope with outcome.
Notation "'let!' x ':=' o 'in' k" := (obind o (fun x => k))
  (at level 10, x name, o at level 100, k at level 200) : outcome_scope.

Definition raises {A : Type} (o : outcome A) : Prop := exists e, o = Thrown e.

Definition returns {A : Type} (o : outcome A) : Prop := exists a, o = Done a.

(** ** standard_gaussian.hpp: the dimension setter *)

Module StandardGaussian.

(** The values of an [int] (32 bits, two's complement) and of a [size_t]
    (64 bits). *)
Definition is_int (i : Z) : Prop := (- 2 ^ 31 <= i < 2 ^ 31)%Z.

Definition is_size_t (n : Z) : Prop := (0 <= n < 2 ^ 64)%Z.

(** The conversion of [dimension_] in [dimension_ == new_dimension]: the
    [int] operand becomes a [size_t], modulo 2^64. *)
Definition to_size_t (i : Z) : Z := (i mod 2 ^ 64)%Z.

(** The conversion of [dimension_ = new_dimension] and of
    [dimension_(dim)]: the [size_t] is narrowed to an [int], modulo 2^32. *)
Definition to_int (n : Z) : Z := ((n + 2 ^ 31) mod 2 ^ 32 - 2 ^ 31)%Z.

(** [dimension(new_dimension)], as the new value of [dimension_]; the
    exception carries the two arguments it is constructed from.
    [fixed] is [fl::IsFixed<NormalVariate::SizeAtCompileTime>()]. *)
Definition dimension (fixed : bool) (dimension_ new_dimension : Z)
  : outcome Z :=
  if Z.eqb (to_size_t dimension_) new_dimension then Done dimension_
  else if fixed
       then Thrown (ResizingFixedSizeEntityException dimension_ new_dimension)
       else Done (to_int new_dimension).

End StandardGaussian.

(** ** Coefficient-wise array operations of Eigen *)

Module Eigen.

(** [a.maxCoeff()]: asserts a non-empty array, then reduces with max. *)
Definition maxCoeff (a : list R) : outcome R :=
  match a with
  | [] => Undefined
  | x :: xs => Done (fold_left Rmax xs x)
  end.

(** [a.sum()] *)
Fixpoint sum (a : list R) : R :=
  match a with
  | [] => 0
  | x :: xs => x + sum xs
  end.

(** [a - c], [a.exp()], [a / c] for an array [a] and a scalar [c]. *)
Definition sub_scalar (a : list R) (c : R) : list R := map (fun x => x - c) a.
Definition exp (a : list R) : list R := map Rtrigo_def.exp a.
Definition div_scalar (a : list R) (c : R) : list R := map (fun x => x / c) a.

(** Binary coefficient-wise operations assert equal sizes. *)
Fixpoint zip_with (f : R -> R -> R) (a b : list R) : list R :=
  match a, b with
  | x :: a', y :: b' => f x y :: zip_with f a' b'
  | _, _ => []
  end.

Definition cwise (f : R -> R -> R) (a b : list R) : outcome (list R) :=
  if Nat.eqb (length a) (length b) then Done (zip_with f a b) else Undefined.

Definition add := cwise Rplus.
Definition cwiseProduct := cwise Rmult.

(** [a.resize(n)]: nothing happens when the size is already [n];
    otherwise the storage is reallocated and the coefficients are not
    initialised ([fresh] stands for what the new storage holds). *)
Definition resize {T : Type} (fresh : T) (a : list T) (n : nat) : list T :=
  if Nat.eqb (length a) n then a else repeat fresh n.

(** [Function::Zero(n)] *)
Definition Zero (n : nat) : list R := repeat 0 n.

End Eigen.

(** ** std::lower_bound *)

(** [len >> 1] *)
Definition half (len : nat) : nat := Nat.div2 len.
Arguments half : simpl never.

(** The halving loop of [std::lower_bound] over [v[first .. first+len)]:
    [while (len > 0) { half = len >> 1; middle = first + half;
       if (v[middle] < val) { first = middle + 1; len = len - half - 1; }
       else len = half; }  return first;] *)
Equations? lower_bound_loop (v : list R) (val : R) (first len : nat) : nat
  by wf len lt :=
  lower_bound_loop v val first len with le_lt_dec len 0 => {
    | left _ := first;
    | right Hpos with Rlt_dec (nth (first + half len) v 0) val => {
      | left _ :=
          lower_bound_loop v val (first + half len + 1) (len - half len - 1);
      | right _ :=
          lower_bound_loop v val first (half len) } }.
Proof.
  all: pose proof (Nat.lt_div2 len Hpos) as Hhalf; fold (half len) in Hhalf; lia.
Qed.

(** [std::lower_bound(v.begin(), v.end(), val) - v.begin()] *)
Definition lower_bound (v : list R) (val : R) : nat :=
  lower_bound_loop v val 0 (length v).

(** ** discrete_distribution.hpp *)

Section DiscreteDistribution.

Context {Variate : Type}.

(** [Variate::Zero(dim)] *)
Variable VariateZero : nat -> Variate.

(** What a freshly reallocated [Locations] array holds. *)
Variable fresh : Variate.

Local Open Scope outcome_scope.

(** The member variables. *)
Record DiscreteDistribution : Type := mkDiscreteDistribution {
  locations_ : list Variate;
  log_prob_mass_ : list R;
  prob_mass_ : list R;
  cumul_distr_ : list R
}.

(** The constructor.  It assigns [locations_], [log_prob_mass_] and
    [cumul_distr_]; [prob_mass_] keeps its default-constructed value,
    the empty array. *)
Definition construct (dim : nat) : DiscreteDistribution :=
  {| locations_ := [VariateZero dim];
     log_prob_mass_ := Eigen.Zero 1;
     prob_mass_ := [];
     cumul_distr_ := repeat 1 1 |}.

(** The loop [for (i = 1; i < n; i++) cumul[i] = cumul[i-1] + prob_mass[i]],
    where [prev] is [cumul[i-1]] and [ps] is [prob_mass[i ..]]. *)
Fixpoint cdf_loop (prev : R) (ps : list R) : list R :=
  match ps with
  | [] => []
  | p :: ps' => (prev + p) :: cdf_loop (prev + p) ps'
  end.

(** [cumul_distr_.resize(n); cumul_distr_[0] = prob_mass_[0];] and the
    loop; with [n = 0] the first assignment is out of range. *)
Definition compute_cdf (prob_mass : list R) : outcome (list R) :=
  match prob_mass with
  | [] => Undefined
  | p0 :: ps => Done (p0 :: cdf_loop p0 ps)
  end.

Definition log_unnormalized_prob_mass (log_prob_mass : list R)
    (this : DiscreteDistribution) : outcome DiscreteDistribution :=
  (* rescale for numeric stability *)
  let! m := Eigen.maxCoeff log_prob_mass in
  let lpm := Eigen.sub_scalar log_prob_mass m in
  (* copy to prob mass *)
  let pm := Eigen.exp lpm in
  let sum := Eigen.sum pm in
  (* normalize *)
  let pm := Eigen.div_scalar pm sum in
  let lpm := Eigen.sub_scalar lpm (ln sum) in
  (* compute cdf *)
  let! cdf := compute_cdf pm in
  (* resize locations *)
  Done {| locations_ := Eigen.resize fresh (locations_ this) (length lpm);
          log_prob_mass_ := lpm;
          prob_mass_ := pm;
          cumul_distr_ := cdf |}.

Definition delta_log_prob_mass (delta : list R)
    (this : DiscreteDistribution) : outcome DiscreteDistribution :=
  let! v := Eigen.add (log_prob_mass_ this) delta in
  log_unnormalized_prob_mass v this.

Definition set_uniform (new_size : nat)
    (this : DiscreteDistribution) : outcome DiscreteDistribution :=
  log_unnormalized_prob_mass (Eigen.Zero new_size) this.

(** [locations_[i]], for both overloads of [location(i)]. *)
Definition location (i : nat) (this : DiscreteDistribution) : outcome Variate :=
  match nth_error (locations_ this) i with
  | Some x => Done x
  | None => Undefined
  end.

(** [location(i) = x] *)
Definition set_location (i : nat) (x : Variate)
    (this : DiscreteDistribution) : outcome DiscreteDistribution :=
  match nth_error (locations_ this) i with
  | Some _ =>
      Done {| locations_ := firstn i (locations_ this) ++ x
                            :: skipn (S i) (locations_ this);
              log_prob_mass_ := log_prob_mass_ this;
              prob_mass_ := prob_mass_ this;
              cumul_distr_ := cumul_distr_ this |}
  | None => Undefined
  end.

(** [locations_ = new_locations] *)
Definition assign_locations (new_locations : list Variate)
    (this : DiscreteDistribution) : DiscreteDistribution :=
  {| locations_ := new_locations;
     log_prob_mass_ := log_prob_mass_ this;
     prob_mass_ := prob_mass_ this;
     cumul_distr_ := cumul_distr_ this |}.

Definition map_standard_uniform (uniform_sample : R)
    (this : DiscreteDistribution) : outcome Variate :=
  let index := lower_bound (cumul_distr_ this) uniform_sample in
  location index this.

(** [erf] is [std::erf]. *)
Definition map_standard_normal (erf : R -> R) (gaussian_sample : R)
    (this : DiscreteDistribution) : outcome Variate :=
  let uniform_sample := 0.5 * (1.0 + erf (gaussian_sample / sqrt 2.0)) in
  map_standard_uniform uniform_sample this.

Definition locations (this : DiscreteDistribution) : list Variate :=
  locations_ this.

Definition log_prob_mass (this : DiscreteDistribution) : list R :=
  log_prob_mass_ this.

Definition prob_mass (this : DiscreteDistribution) : list R :=
  prob_mass_ this.

Definition prob_mass_at (i : nat) (this : DiscreteDistribution) : outcome R :=
  match nth_error (prob_mass_ this) i with
  | Some p => Done p
  | None => Undefined
  end.

Definition size (this : DiscreteDistribution) : nat :=
  length (locations_ this).

Definition entropy (this : DiscreteDistribution) : outcome R :=
  let! prod := Eigen.cwiseProduct (log_prob_mass_ this) (prob_mass_ this) in
  Done (- Eigen.sum prod).

(** KL(p||u) where p is this distribution and u the uniform one. *)
Definition kl_given_uniform (this : DiscreteDistribution) : outcome R :=
  let! h := entropy this in
  Done (ln (INR (size this)) - h).

End DiscreteDistribution.

Arguments DiscreteDistribution Variate : clear implicits.

(** ** Belief objects, references and the two random sources *)

Section ParticleFilter.

Context {State Input Obsrv Noise : Type}.

(** [State::Zero(dim)] and the content of reallocated location storage. *)
Variable StateZero : nat -> State.
Variable fresh : State.

(** The process model: [process_model_.state(x, noise, input)] and
    [process_model_.state_dimension()]. *)
Variable process_model_state : State -> Noise -> Input -> State.
Variable process_model_state_dimension : nat.

(** The observation model: [obsrv_model_.log_probabilities(obsrv, locations)]. *)
Variable obsrv_model_log_probabilities : Obsrv -> list State -> list R.

(** The threshold given to the constructor (1.0 when omitted). *)
Variable max_kl_divergence_ : R.

Definition Belief : Type := DiscreteDistribution State.

(** A reference to a belief object. *)
Definition ref : Type := nat.

(** The objects a call can reach: the belief behind every reference, the
    uniform draws behind [sample()] of a belief and the draws of
    [process_noise_], each with the number of draws used so far. *)
Record world : Type := mkWorld {
  heap : ref -> Belief;
  uniform_draws : nat -> R;
  uniform_used : nat;
  noise_draws : nat -> Noise;
  noise_used : nat
}.

Definition M (A : Type) : Type := world -> outcome (A * world).

Definition ret {A : Type} (a : A) : M A := fun w => Done (a, w).

Definition bind {A B : Type} (m : M A) (k : A -> M B) : M B :=
  fun w =>
    match m w with
    | Done (a, w') => k a w'
    | Thrown e => Thrown e
    | Undefined => Undefined
    end.

Notation "x <- m ;; k" := (bind m (fun x => k))
  (at level 61, m at next level, right associativity).
Notation "m ;; k" := (bind m (fun _ => k))
  (at level 61, right associativity).

Definition lift {A : Type} (o : outcome A) : M A :=
  fun w => obind o (fun a => Done (a, w)).

Definition deref (r : ref) : M Belief := fun w => Done (heap w r, w).

(** The world once the object behind [r] holds [b]. *)
Definition set_belief (r : ref) (b : Belief) (w : world) : world :=
  {| heap := fun r' => if Nat.eqb r' r then b else heap w r';
     uniform_draws := uniform_draws w;
     uniform_used := uniform_used w;
     noise_draws := noise_draws w;
     noise_used := noise_used w |}.

(** The world once one more uniform draw, or one more noise draw, is used. *)
Definition use_uniform (w : world) : world :=
  {| heap := heap w;
     uniform_draws := uniform_draws w;
     uniform_used := S (uniform_used w);
     noise_draws := noise_draws w;
     noise_used := noise_used w |}.

Definition use_noise (w : world) : world :=
  {| heap := heap w;
     uniform_draws := uniform_draws w;
     uniform_used := uniform_used w;
     noise_draws := noise_draws w;
     noise_used := S (noise_used w) |}.

Definition store (r : ref) (b : Belief) : M unit :=
  fun w => Done (tt, set_belief r b w).

(** A const member function called through a reference. *)
Definition query {A : Type} (r : ref) (method : Belief -> outcome A) : M A :=
  b <- deref r ;; lift (method b).

(** A mutating member function called through a reference. *)
Definition call (r : ref) (method : Belief -> outcome Belief) : M unit :=
  b <- deref r ;; b' <- lift (method b) ;; store r b'.

Definition next_uniform : M R :=
  fun w => Done (uniform_draws w (uniform_used w), use_uniform w).

(** [process_noise_.sample()] *)
Definition process_noise_sample : M Noise :=
  fun w => Done (noise_draws w (noise_used w), use_noise w).

(** Modelled from the spec: [sample()] of a belief is inherited from
    fl/distribution/interface/standard_gaussian_mapping.hpp, which is not
    among the sources.  Following the description of resampling, one call
    takes one uniform draw and maps it through the inverse CDF of the
    distribution. *)
Definition sample (distribution : ref) : M State :=
  u <- next_uniform ;; query distribution (map_standard_uniform u).

(** *** DiscreteDistribution::from_distribution *)

(** [for (i = 0; i < new_size; i++) new_locations[i] = distribution.sample();] *)
Fixpoint sample_loop (distribution : ref) (new_size : nat) : M (list State) :=
  match new_size with
  | O => ret []
  | S n =>
      x <- sample distribution ;;
      xs <- sample_loop distribution n ;;
      ret (x :: xs)
  end.

(** [this] and [distribution] may be the same reference.  A negative
    [new_size] makes the size of [new_locations] negative. *)
Definition from_distribution (this distribution : ref) (new_size : Z) : M unit :=
  if (new_size <? 0)%Z then lift Undefined
  else
    new_locations <- sample_loop distribution (Z.to_nat new_size) ;;
    call this (set_uniform fresh (Z.to_nat new_size)) ;;
    call this (fun b => Done (assign_locations new_locations b)).

(** ** particle_filter.hpp *)

(** The body of the loop of [predict] for the indices [i, i+1, ...];
    [remaining] is [predicted_belief.size() - i], which assigning a
    location does not change. *)
Fixpoint predict_loop (prior_belief : ref) (input : Input)
    (predicted_belief : ref) (i remaining : nat) : M unit :=
  match remaining with
  | O => ret tt
  | S n =>
      x <- query prior_belief (location i) ;;
      noise <- process_noise_sample ;;
      call predicted_belief
           (set_location i (process_model_state x noise input)) ;;
      predict_loop prior_belief input predicted_belief (S i) n
  end.

Definition predict (prior_belief : ref) (input : Input)
    (predicted_belief : ref) : M unit :=
  b <- deref prior_belief ;;
  store predicted_belief b ;;
  p <- deref predicted_belief ;;
  predict_loop prior_belief input predicted_belief 0 (size p).

(** The conditional of [update]: if the samples are too concentrated
    then resample, else copy. *)
Definition update_resample (predicted_belief posterior_belief : ref) : M unit :=
  kl <- query predicted_belief kl_given_uniform ;;
  if Rgt_dec kl max_kl_divergence_
  then
    p <- deref predicted_belief ;;
    from_distribution posterior_belief predicted_belief (Z.of_nat (size p))
  else
    p <- deref predicted_belief ;;
    store posterior_belief p.

(** The last statement of [update]: update the weights of the particles
    with the likelihoods. *)
Definition update_weights (predicted_belief : ref) (obsrv : Obsrv)
    (posterior_belief : ref) : M unit :=
  p <- deref predicted_belief ;;
  call posterior_belief
       (delta_log_prob_mass fresh
          (obsrv_model_log_probabilities obsrv (locations p))).

Definition update (predicted_belief : ref) (obsrv : Obsrv)
    (posterior_belief : ref) : M unit :=
  update_resample predicted_belief posterior_belief ;;
  update_weights predicted_belief obsrv posterior_belief.

Definition predict_and_update (prior_belief : ref) (input : Input)
    (observation : Obsrv) (posterior_belief : ref) : M unit :=
  predict prior_belief input posterior_belief ;;
  update posterior_belief observation posterior_belief.

Definition create_belief : Belief :=
  construct StateZero process_model_state_dimension.

End ParticleFilter.

(** ** discrete_distribution.hpp: the moments

    [mean()] and [covariance()] need the linear structure of the variate:
    here a variate is a column vector of reals, and a covariance is a
    matrix given by its rows. *)

Module Dense.

(** [Mean::Zero(n)] and [Covariance::Zero(rows, cols)] *)
Definition VectorZero (n : nat) : list R := repeat 0 n.
Definition MatrixZero (rows cols : nat) : list (list R) :=
  repeat (repeat 0 cols) rows.

(** [c * x] *)
Definition scaled (c : R) (x : list R) : list R := map (fun a => c * a) x.

(** [c * x * x.transpose()] *)
Definition outer (c : R) (x : list R) : list (list R) :=
  map (fun a => map (fun b => c * a * b) x) x.

(** Two matrices of the same number of rows and columns. *)
Fixpoint same_shape (A B : list (list R)) : bool :=
  match A, B with
  | [], [] => true
  | a :: A', b :: B' => Nat.eqb (length a) (length b) && same_shape A' B'
  | _, _ => false
  end.

Fixpoint add_rows (A B : list (list R)) : list (list R) :=
  match A, B with
  | a :: A', b :: B' => Eigen.zip_with Rplus a b :: add_rows A' B'
  | _, _ => []
  end.

(** [A(a, b)] *)
Definition coeff (A : list (list R)) (a b : nat) : R := nth b (nth a A []) 0.

(** [A += B], which asserts equal shapes. *)
Definition madd (A B : list (list R)) : outcome (list (list R)) :=
  if same_shape A B then Done (add_rows A B) else Undefined.

End Dense.

Section Moments.

Local Open Scope outcome_scope.

Implicit Type this : DiscreteDistribution (list R).

(** [locations_[0].rows()] *)
Definition dimension this : outcome nat :=
  let! x := location 0 this in Done (length x).

(** The loop of [mean()] from index [i] on, [remaining] iterations:
    [mu += prob_mass(i) * locations_[i]]. *)
Fixpoint mean_loop this (i remaining : nat) (mu : list R) : outcome (list R) :=
  match remaining with
  | O => Done mu
  | S n =>
      let! p := prob_mass_at i this in
      let! x := location i this in
      let! mu' := Eigen.add mu (Dense.scaled p x) in
      mean_loop this (S i) n mu'
  end.

Definition mean this : outcome (list R) :=
  let! dim := dimension this in
  mean_loop this 0 (size this) (Dense.VectorZero dim).

(** The loop of [covariance()]:
    [delta = locations_[i] - mu; cov += prob_mass(i) * delta * delta^T]. *)
Fixpoint covariance_loop this (mu : list R) (i remaining : nat)
    (cov : list (list R)) : outcome (list (list R)) :=
  match remaining with
  | O => Done cov
  | S n =>
      let! x := location i this in
      let! delta := Eigen.cwise Rminus x mu in
      let! p := prob_mass_at i this in
      let! cov' := Dense.madd cov (Dense.outer p delta) in
      covariance_loop this mu (S i) n cov'
  end.

Definition covariance this : outcome (list (list R)) :=
  let! mu := mean this in
  let! dim := dimension this in
  covariance_loop this mu 0 (size this) (Dense.MatrixZero dim dim).

End Moments.

(** ** standard_gaussian.hpp: the sampler *)

Module GaussianSampler.

(** A [StandardGaussian<NormalVariate>]: its dimension, whether the size
    of [NormalVariate] is fixed at compile time, and its generator, given
    by the values [gaussian_distribution_(generator_)] returns in turn and
    the number of them already returned. *)
Record t : Type := mk {
  dimension_ : Z;
  fixed : bool;
  normal_draws : nat -> R;
  normal_used : nat
}.

(** The constructor: [dimension_(dim)] narrows the [size_t] argument, and
    the generator starts at its seed. *)
Definition construct (dim : Z) (fixed : bool) (draws : nat -> R) : t :=
  {| dimension_ := StandardGaussian.to_int dim;
     fixed := fixed;
     normal_draws := draws;
     normal_used := 0 |}.

(** The loop of [sample()]: [gaussian_sample(i) = gaussian_distribution_(generator_)]. *)
Fixpoint sample_loop (draws : nat -> R) (used remaining : nat) : list R :=
  match remaining with
  | O => []
  | S n => draws used :: sample_loop draws (S used) n
  end.

(** [sample()]: [NormalVariate gaussian_sample(dimension())] has no
    defined behaviour for a negative dimension; otherwise the loop runs
    [dimension()] times. *)
Definition sample (g : t) : outcome (list R * t) :=
  if (dimension_ g <? 0)%Z then Undefined
  else
    let n := Z.to_nat (dimension_ g) in
    Done (sample_loop (normal_draws g) (normal_used g) n,
          {| dimension_ := dimension_ g;
             fixed := fixed g;
             normal_draws := normal_draws g;
             normal_used := normal_used g + n |}).

(** [dimension(new_dimension)] on the object. *)
Definition set_dimension (new_dimension : Z) (g : t) : outcome t :=
  obind (StandardGaussian.dimension (fixed g) (dimension_ g) new_dimension)
        (fun n => Done {| dimension_ := n;
                          fixed := fixed g;
                          normal_draws := normal_draws g;
                          normal_used := normal_used g |}).

End GaussianSampler.

(** * Vocabulary of the properties *)

(** A non-decreasing array, as [std::lower_bound] expects it. *)
Definition nondecreasing (v : list R) : Prop :=
  forall i j, (i <= j < length v)%nat -> nth i v 0 <= nth j v 0.

Section Invariants.

Context {Variate : Type}.
Implicit Type d : DiscreteDistribution Variate.

Definition sizes_agree d : Prop :=
  length (locations_ d) = length (log_prob_mass_ d) /\
  length (log_prob_mass_ d) = length (prob_mass_ d) /\
  length (prob_mass_ d) = length (cumul_distr_ d).

(** The invariant of the data model: the four arrays have one size, the
    weights sum to one, the cumulative weights do not decrease. *)
Definition invariant d : Prop :=
  sizes_agree d /\
  Eigen.sum (prob_mass_ d) = 1 /\
  nondecreasing (cumul_distr_ d).

(** What the inverse-CDF lookup relies on: one cumulative weight per
    location, in non-decreasing order, from a non-negative first entry
    up to exactly one. *)
Definition cdf_ok d : Prop :=
  length (locations_ d) = length (cumul_distr_ d) /\
  nondecreasing (cumul_distr_ d) /\
  0 <= nth 0 (cumul_distr_ d) 0 /\
  last (cumul_distr_ d) 0 = 1.

Definition normalized d : Prop := invariant d /\ cdf_ok d.

(** A lookup table that fits the locations. *)
Definition aligned d : Prop :=
  length (locations_ d) = length (cumul_distr_ d) /\
  cumul_distr_ d <> [] /\
  nondecreasing (cumul_distr_ d).

(** The normalised weights the exponentials of [v] define. *)
Definition softmax (v : list R) : list R :=
  map (fun x => Rtrigo_def.exp x / Eigen.sum (Eigen.exp v)) v.

(** The state [log_unnormalized_prob_mass] leaves behind, in closed form;
    [fresh] is the content of reallocated location storage. *)
Definition weighted (fresh : Variate) (v : list R) d
  : DiscreteDistribution Variate :=
  {| locations_ := Eigen.resize fresh (locations_ d) (length v);
     log_prob_mass_ := Eigen.sub_scalar v (ln (Eigen.sum (Eigen.exp v)));
     prob_mass_ := softmax v;
     cumul_distr_ := match softmax v with
                     | [] => []
                     | p0 :: ps => p0 :: cdf_loop p0 ps
                     end |}.

(** The states an object goes through: the constructor, then any
    sequence of the mutators.  [from_distribution] contributes
    [set_uniform] followed by the assignment of as many locations. *)
Inductive reachable (VariateZero : nat -> Variate) (fresh : Variate)
  : DiscreteDistribution Variate -> Prop :=
| reachable_construct (dim : nat) :
    reachable VariateZero fresh (construct VariateZero dim)
| reachable_log_unnormalized_prob_mass (v : list R) d d' :
    reachable VariateZero fresh d ->
    log_unnormalized_prob_mass fresh v d = Done d' ->
    reachable VariateZero fresh d'
| reachable_delta_log_prob_mass (delta : list R) d d' :
    reachable VariateZero fresh d ->
    delta_log_prob_mass fresh delta d = Done d' ->
    reachable VariateZero fresh d'
| reachable_set_uniform (n : nat) d d' :
    reachable VariateZero fresh d ->
    set_uniform fresh n d = Done d' ->
    reachable VariateZero fresh d'
| reachable_set_location (i : nat) (x : Variate) d d' :
    reachable VariateZero fresh d ->
    set_location i x d = Done d' ->
    reachable VariateZero fresh d'
| reachable_from_distribution (n : nat) (xs : list Variate) d d' :
    reachable VariateZero fresh d ->
    set_uniform fresh n d = Done d' ->
    length xs = n ->
    reachable VariateZero fresh (assign_locations xs d').

(** A normalised state whose weights are the exponentials of its
    log-weights, as [log_unnormalized_prob_mass] leaves them. *)
Definition calibrated d : Prop :=
  normalized d /\ prob_mass_ d = Eigen.exp (log_prob_mass_ d).

End Invariants.

Section FilterVocabulary.

Context {State Input Noise : Type}.
Variable fresh : State.
Variable process_model_state : State -> Noise -> Input -> State.

(** The locations [n] successive draws [draws start], [draws (start+1)],
    ... select from the distribution [p] by inverse-CDF lookup. *)
Fixpoint resampled (p : DiscreteDistribution State) (draws : nat -> R)
    (start n : nat) : list State :=
  match n with
  | O => []
  | S n' =>
      nth (lower_bound (cumul_distr_ p) (draws start)) (locations_ p) fresh
      :: resampled p draws (S start) n'
  end.

(** The locations the process model makes of [xs], one noise draw each. *)
Fixpoint propagated (xs : list State) (noise : nat -> Noise) (start : nat)
    (input : Input) : list State :=
  match xs with
  | [] => []
  | x :: xs' =>
      process_model_state x (noise start) input
      :: propagated xs' noise (S start) input
  end.

(** Two worlds that differ at most in the object behind [r] and in the
    number of draws used. *)
Definition only_changes (r : ref) (w w' : @world State Noise) : Prop :=
  (forall r', r' <> r -> heap w' r' = heap w r') /\
  uniform_draws w' = uniform_draws w /\
  noise_draws w' = noise_draws w.

End FilterVocabulary.

(** * A concrete filter

    A one-dimensional filter with the default threshold, used to run the
    code on explicit inputs. *)

Module Scenario.

(** A process model that adds the input and the noise to the state. *)
Definition additive_state (x noise input : R) : R := x + input + noise.

(** An observation model that sees the state under unit Gaussian noise:
    the log-likelihood of [y] at [x], up to a constant, is [-(y-x)^2/2]. *)
Definition gaussian_log_probabilities (y : R) (xs : list R) : list R :=
  map (fun x => - ((y - x) * (y - x)) / 2) xs.

(** [max_kl_divergence = 1.0], the default of the constructor. *)
Definition default_max_kl_divergence : R := 1.

Definition zero_state (dim : nat) : R := 0.

(** A freshly constructed belief, and the same object after its two
    log-weights have been set to 0. *)
Definition single : DiscreteDistribution R := construct zero_state 1.

Definition pair : DiscreteDistribution R := weighted 0 [0; 0] single.

(** Nine particles; the first one, at 0, carries 81/89 of the mass, the
    other eight sit at 1. *)
Definition concentrated_log_mass : list R := [ln 81; 0; 0; 0; 0; 0; 0; 0; 0].

Definition particle_locations : list R := [0; 1; 1; 1; 1; 1; 1; 1; 1].

Definition concentrated : DiscreteDistribution R :=
  assign_locations particle_locations
    (weighted 0 concentrated_log_mass single).

(** Reference 0 holds the concentrated belief, every other reference a
    freshly constructed one; every uniform draw is 1/2, every noise draw
    and the input are 0. *)
(** Where the process model takes these locations with input 0 and a
    noise that is always 0. *)
Definition moved_locations : list R :=
  propagated additive_state particle_locations (fun _ => 0) 0 0.

Definition start : @world R R :=
  {| heap := fun r => if Nat.eqb r 0 then concentrated else single;
     uniform_draws := fun _ => 1 / 2;
     uniform_used := 0;
     noise_draws := fun _ => 0;
     noise_used := 0 |}.

End Scenario.

(** * A belief over the plane *)

Module Plane.

(** Two particles of equal weight, at the origin and at (1, 0). *)
Definition corners : DiscreteDistribution (list R) :=
  assign_locations [[0; 0]; [1; 0]]
    (weighted [] [0; 0] (construct Dense.VectorZero 2)).

(** A sampler of two-dimensional noise whose generator returns 0, 1, 2, ... *)
Definition counting : GaussianSampler.t :=
  GaussianSampler.construct 2 false INR.

End Plane.

(** * A table that rounding leaves short of one *)

Module Binary64.

(** The state of [DiscreteDistribution<double> d; d.set_uniform(7);] when
    the arithmetic is that of IEEE doubles, each value written as the
    rational number the double is: the seven weights are [1.0 / 7.0]
    rounded to nearest, the log-weights [0.0 - std::log(7.0)], the table
    the running sums [cumul_distr_[i-1] + prob_mass_[i]], each rounded to
    nearest; the last one is [1 - 2^-52].  The locations are the seven
    elements that [locations_.resize(7)] allocates. *)
Definition seventh : R := 2573485501354569 / 18014398509481984.

Definition seven : DiscreteDistribution R :=
  {| locations_ := repeat 0 7;
     log_prob_mass_ := repeat (- (8763600222181975 / 4503599627370496)) 7;
     prob_mass_ := repeat seventh 7;
     cumul_distr_ := [ 2573485501354569 / 18014398509481984;
                       2573485501354569 / 9007199254740992;
                       7720456504063707 / 18014398509481984;
                       2573485501354569 / 4503599627370496;
                       3216856876693211 / 4503599627370496;
                       3860228252031853 / 4503599627370496;
                       4503599627370495 / 4503599627370496 ] |}.


End Binary64.

(** * A filter at rest *)

Module Rest.

(** Every reference holds the belief of two particles of equal weight,
    whose divergence from the uniform weights is 0; every uniform draw is
    1/2, every noise draw 0. *)
Definition calm : @world R R :=
  {| heap := fun _ => Scenario.pair;
     uniform_draws := fun _ => 1 / 2;
     uniform_used := 0;
     noise_draws := fun _ => 0;
     noise_used := 0 |}.

End Rest.

(** * Properties *)

(** ** Arithmetic of the array operations *)

Section ArrayFacts.

(** Resizing a fixed-size sampler is the one call that raises. *)
Lemma dimension_fixed_raises (dimension_ new_dimension : Z) :
  StandardGaussian.to_size_t dimension_ <> new_dimension ->
  raises (StandardGaussian.dimension true dimension_ new_dimension).
Proof.
  intros Hne. unfold StandardGaussian.dimension.
  apply Z.eqb_neq in Hne. rewrite Hne. now eexists.
Qed.

Lemma sum_div_scalar (a : list R) (c : R) :
  Eigen.sum (Eigen.div_scalar a c) = Eigen.sum a / c.
Proof.
  unfold Eigen.div_scalar.
  induction a as [|x a IH]; cbn [map Eigen.sum].
  - unfold Rdiv. now rewrite Rmult_0_l.
  - rewrite IH. unfold Rdiv. ring.
Qed.

Lemma sum_exp_nonneg (a : list R) : 0 <= Eigen.sum (Eigen.exp a).
Proof.
  unfold Eigen.exp.
  induction a as [|x a IH]; cbn [map Eigen.sum].
  - lra.
  - pose proof (exp_pos x). lra.
Qed.

Lemma sum_exp_pos (a : list R) : a <> [] -> 0 < Eigen.sum (Eigen.exp a).
Proof.
  destruct a as [|x a]; [congruence|]. intros _.
  pose proof (exp_pos x). pose proof (sum_exp_nonneg a).
  unfold Eigen.exp in *. cbn [map Eigen.sum]. lra.
Qed.

(** Rescaling by a constant divides the sum of exponentials by its
    exponential. *)
Lemma sum_exp_sub_scalar (a : list R) (c : R) :
  Eigen.sum (Eigen.exp (Eigen.sub_scalar a c))
  = Eigen.sum (Eigen.exp a) / Rtrigo_def.exp c.
Proof.
  unfold Eigen.exp, Eigen.sub_scalar.
  induction a as [|x a IH]; cbn [map Eigen.sum].
  - unfold Rdiv. now rewrite Rmult_0_l.
  - rewrite IH.
    unfold Rminus. rewrite exp_plus, exp_Ropp. unfold Rdiv. ring.
Qed.

Lemma fold_left_Rmax_ge (a : list R) (x : R) : x <= fold_left Rmax a x.
Proof.
  revert x. induction a as [|y a IH]; intros x; simpl.
  - lra.
  - eapply Rle_trans; [apply (Rmax_l x y)|apply IH].
Qed.

Lemma fold_left_Rmax_upper (a : list R) (x y : R) :
  In y a -> y <= fold_left Rmax a x.
Proof.
  revert x. induction a as [|z a IH]; intros x Hin; simpl in *.
  - contradiction.
  - destruct Hin as [->|Hin].
    + eapply Rle_trans; [apply (Rmax_r x y)|apply fold_left_Rmax_ge].
    + now apply IH.
Qed.

Lemma fold_left_Rmax_In (a : list R) (x : R) :
  In (fold_left Rmax a x) (x :: a).
Proof.
  revert x. induction a as [|y a IH]; intros x; simpl.
  - now left.
  - destruct (IH (Rmax x y)) as [H|H].
    + rewrite <- H. unfold Rmax. destruct (Rle_dec x y); [right; now left|now left].
    + right. now right.
Qed.

Lemma maxCoeff_spec (a : list R) (m : R) :
  Eigen.maxCoeff a = Done m -> In m a /\ forall y, In y a -> y <= m.
Proof.
  destruct a as [|x a]; simpl; [discriminate|].
  intros [= <-]. split.
  - apply fold_left_Rmax_In.
  - intros y [->|Hy].
    + apply fold_left_Rmax_ge.
    + now apply fold_left_Rmax_upper.
Qed.

Lemma maxCoeff_defined (a : list R) :
  a <> [] -> exists m, Eigen.maxCoeff a = Done m.
Proof.
  destruct a as [|x a]; [congruence|]. intros _. simpl. eauto.
Qed.

(** The rescaled exponentials contain [exp 0 = 1], so their sum is at
    least one. *)
Lemma sum_exp_rescaled_ge_1 (a : list R) (m : R) :
  In m a -> 1 <= Eigen.sum (Eigen.exp (Eigen.sub_scalar a m)).
Proof.
  unfold Eigen.exp, Eigen.sub_scalar.
  induction a as [|x a IH]; cbn [map Eigen.sum In]; [contradiction|].
  intros [->|Hin].
  - replace (m - m) with 0 by ring. rewrite exp_0.
    pose proof (sum_exp_nonneg (Eigen.sub_scalar a m)).
    unfold Eigen.exp, Eigen.sub_scalar in *. lra.
  - pose proof (exp_pos (x - m)). specialize (IH Hin). lra.
Qed.

Lemma Zero_nonempty (n : nat) : (1 <= n)%nat -> Eigen.Zero n <> [].
Proof. destruct n; [lia|discriminate]. Qed.

Lemma Zero_length (n : nat) : length (Eigen.Zero n) = n.
Proof. apply repeat_length. Qed.

End ArrayFacts.

(** ** The cumulative distribution *)

Section CdfFacts.

Lemma cdf_loop_length (prev : R) (ps : list R) :
  length (cdf_loop prev ps) = length ps.
Proof.
  revert prev. induction ps as [|p ps IH]; intros prev; simpl; auto.
Qed.

Lemma cdf_loop_nth (ps : list R) : forall (prev : R) (k : nat),
  (k < length ps)%nat ->
  nth k (cdf_loop prev ps) 0 = prev + Eigen.sum (firstn (S k) ps).
Proof.
  induction ps as [|p ps IH]; intros prev k Hk; simpl in Hk; [lia|].
  destruct k as [|k].
  - cbn [cdf_loop nth firstn Eigen.sum]. ring.
  - cbn [cdf_loop nth]. rewrite IH by lia.
    change (firstn (S (S k)) (p :: ps)) with (p :: firstn (S k) ps).
    cbn [Eigen.sum]. ring.
Qed.

(** Entry [k] of the table is the sum of the first [k+1] weights. *)
Lemma cdf_nth (p0 : R) (ps : list R) (k : nat) :
  (k < S (length ps))%nat ->
  nth k (p0 :: cdf_loop p0 ps) 0 = Eigen.sum (firstn (S k) (p0 :: ps)).
Proof.
  intros Hk. destruct k as [|k].
  - cbn [nth firstn Eigen.sum]. ring.
  - cbn [nth]. rewrite cdf_loop_nth by lia.
    change (firstn (S (S k)) (p0 :: ps)) with (p0 :: firstn (S k) ps).
    reflexivity.
Qed.

Lemma sum_firstn_mono (a : list R) :
  Forall (fun p => 0 <= p) a ->
  forall i j, (i <= j)%nat ->
  Eigen.sum (firstn i a) <= Eigen.sum (firstn j a).
Proof.
  induction 1 as [|p a Hp Ha IH]; intros i j Hij.
  - rewrite !firstn_nil. lra.
  - destruct i as [|i]; destruct j as [|j]; try lia.
    + cbn [firstn Eigen.sum]. lra.
    + cbn [firstn Eigen.sum].
      specialize (IH 0%nat j (Nat.le_0_l _)). cbn [firstn Eigen.sum] in IH. lra.
    + cbn [firstn Eigen.sum]. specialize (IH i j ltac:(lia)). lra.
Qed.

Lemma cdf_nondecreasing (p0 : R) (ps : list R) :
  Forall (fun p => 0 <= p) (p0 :: ps) ->
  nondecreasing (p0 :: cdf_loop p0 ps).
Proof.
  intros Hpos i j [Hij Hj]. cbn [length] in Hj. rewrite cdf_loop_length in Hj.
  rewrite !cdf_nth by lia. apply sum_firstn_mono; [assumption|lia].
Qed.

Lemma last_as_nth (a : list R) :
  last a 0 = nth (length a - 1) a 0.
Proof.
  induction a as [|x a IH]; [reflexivity|].
  destruct a as [|y a]; [reflexivity|].
  change (last (x :: y :: a) 0) with (last (y :: a) 0). rewrite IH.
  cbn [length]. replace (S (S (length a)) - 1)%nat with (S (length a)) by lia.
  cbn [nth]. replace (S (length a) - 1)%nat with (length a) by lia.
  reflexivity.
Qed.

Lemma cdf_last (p0 : R) (ps : list R) :
  last (p0 :: cdf_loop p0 ps) 0 = Eigen.sum (p0 :: ps).
Proof.
  rewrite last_as_nth.
  cbn [length]. rewrite cdf_loop_length.
  replace (S (length ps) - 1)%nat with (length ps) by lia.
  rewrite cdf_nth by lia.
  change (S (length ps)) with (length (p0 :: ps)).
  now rewrite firstn_all.
Qed.

End CdfFacts.

(** ** Normalisation of the weights *)

Section WeightFacts.

Context {Variate : Type}.
Variable fresh : Variate.
Implicit Type d : DiscreteDistribution Variate.

Lemma softmax_length (v : list R) : length (softmax v) = length v.
Proof. unfold softmax. apply length_map. Qed.

Lemma softmax_sum (v : list R) : v <> [] -> Eigen.sum (softmax v) = 1.
Proof.
  intros Hv. pose proof (sum_exp_pos v Hv) as Hpos.
  unfold softmax.
  rewrite <- (map_map Rtrigo_def.exp (fun y => y / Eigen.sum (Eigen.exp v))).
  change (Eigen.sum (Eigen.div_scalar (Eigen.exp v) (Eigen.sum (Eigen.exp v))) = 1).
  rewrite sum_div_scalar. field. lra.
Qed.

Lemma softmax_pos (v : list R) : Forall (fun p => 0 < p) (softmax v).
Proof.
  destruct v as [|x v]; [constructor|].
  assert (Hpos : 0 < Eigen.sum (Eigen.exp (x :: v)))
    by (apply sum_exp_pos; discriminate).
  unfold softmax. apply Forall_map, Forall_forall. intros y _.
  apply Rdiv_lt_0_compat; [apply exp_pos|exact Hpos].
Qed.

Lemma softmax_nonneg (v : list R) : Forall (fun p => 0 <= p) (softmax v).
Proof.
  eapply Forall_impl; [|apply softmax_pos]. intros p Hp. lra.
Qed.

(** The max-subtraction does not change the normalised weights. *)
Lemma normalize_rescaled (v : list R) (m : R) :
  v <> [] ->
  Eigen.div_scalar (Eigen.exp (Eigen.sub_scalar v m))
                   (Eigen.sum (Eigen.exp (Eigen.sub_scalar v m)))
  = softmax v.
Proof.
  intros Hv. pose proof (sum_exp_pos v Hv) as Hpos.
  pose proof (exp_pos m) as Hm.
  rewrite sum_exp_sub_scalar.
  unfold Eigen.div_scalar, Eigen.exp, Eigen.sub_scalar, softmax.
  rewrite !map_map. apply map_ext. intros x.
  unfold Rminus. rewrite exp_plus, exp_Ropp.
  fold (Eigen.exp v). field. split; lra.
Qed.

(** ... and neither the normalised log-weights. *)
Lemma log_rescaled (v : list R) (m : R) :
  v <> [] ->
  Eigen.sub_scalar (Eigen.sub_scalar v m)
                   (ln (Eigen.sum (Eigen.exp (Eigen.sub_scalar v m))))
  = Eigen.sub_scalar v (ln (Eigen.sum (Eigen.exp v))).
Proof.
  intros Hv. pose proof (sum_exp_pos v Hv) as Hpos.
  pose proof (exp_pos m) as Hm.
  rewrite sum_exp_sub_scalar.
  unfold Rdiv. rewrite ln_mult by (try apply Rinv_0_lt_compat; lra).
  rewrite ln_Rinv by lra. rewrite ln_exp.
  unfold Eigen.sub_scalar. rewrite map_map. apply map_ext. intros x. ring.
Qed.

Lemma exp_normalized_log (v : list R) :
  v <> [] ->
  Eigen.exp (Eigen.sub_scalar v (ln (Eigen.sum (Eigen.exp v)))) = softmax v.
Proof.
  intros Hv. pose proof (sum_exp_pos v Hv) as Hpos.
  unfold Eigen.exp at 1, Eigen.sub_scalar, softmax.
  rewrite map_map. apply map_ext. intros x.
  unfold Rminus. rewrite exp_plus, exp_Ropp, exp_ln by exact Hpos.
  reflexivity.
Qed.

Lemma log_unnormalized_prob_mass_eq (v : list R) d :
  v <> [] ->
  log_unnormalized_prob_mass fresh v d = Done (weighted fresh v d).
Proof.
  intros Hv. unfold log_unnormalized_prob_mass.
  destruct (maxCoeff_defined v Hv) as [m Hm]. rewrite Hm. cbn [obind].
  rewrite normalize_rescaled, log_rescaled by exact Hv.
  unfold weighted.
  destruct (softmax v) as [|p0 ps] eqn:Hs.
  - apply (f_equal (@length R)) in Hs. rewrite softmax_length in Hs.
    destruct v; [congruence|discriminate].
  - cbn [compute_cdf obind]. unfold Eigen.sub_scalar. rewrite length_map.
    reflexivity.
Qed.

Lemma log_unnormalized_prob_mass_empty d :
  log_unnormalized_prob_mass fresh [] d = Undefined.
Proof. reflexivity. Qed.

Lemma resize_length (a : list Variate) (n : nat) :
  length (Eigen.resize fresh a n) = n.
Proof.
  unfold Eigen.resize. destruct (Nat.eqb_spec (length a) n); [assumption|].
  apply repeat_length.
Qed.

Lemma weighted_normalized (v : list R) d :
  v <> [] -> normalized (weighted fresh v d).
Proof.
  intros Hv.
  assert (Hlen := softmax_length v).
  assert (Hsum := softmax_sum v Hv).
  assert (Hnn := softmax_nonneg v).
  unfold normalized, invariant, sizes_agree, cdf_ok, weighted.
  cbn [locations_ log_prob_mass_ prob_mass_ cumul_distr_].
  destruct (softmax v) as [|p0 ps] eqn:Hs.
  - destruct v; [congruence|discriminate].
  - rewrite resize_length. unfold Eigen.sub_scalar. rewrite length_map.
    cbn [length] in *. rewrite cdf_loop_length.
    pose proof (cdf_nondecreasing p0 ps Hnn) as Hmono.
    rewrite cdf_last, Hsum. cbn [nth].
    inversion Hnn; subst. repeat split; auto.
Qed.

(** Whatever the previous state, a call that returns leaves a normalised
    state. *)
Lemma log_unnormalized_prob_mass_normalized (v : list R) d d' :
  log_unnormalized_prob_mass fresh v d = Done d' -> normalized d'.
Proof.
  destruct v as [|x v]; [discriminate|].
  rewrite log_unnormalized_prob_mass_eq by discriminate.
  intros [= <-]. apply weighted_normalized. discriminate.
Qed.

End WeightFacts.

(** ** The binary search *)

Section LowerBoundFacts.

Lemma half_lt (len : nat) : (0 < len)%nat -> (half len < len)%nat.
Proof. intros H. unfold half. now apply Nat.lt_div2. Qed.

(** One turn of the loop. *)
Lemma lower_bound_loop_step (v : list R) (val : R) (first len : nat) :
  lower_bound_loop v val first len =
  if Nat.eqb len 0 then first
  else if Rlt_dec (nth (first + half len) v 0) val
       then lower_bound_loop v val (first + half len + 1) (len - half len - 1)
       else lower_bound_loop v val first (half len).
Proof.
  rewrite lower_bound_loop_equation_1.
  destruct (le_lt_dec len 0) as [Hle|Hlt]; simp lower_bound_loop.
  - replace len with 0%nat by lia. reflexivity.
  - destruct (Nat.eqb_spec len 0); [lia|].
    destruct (Rlt_dec (nth (first + half len) v 0) val);
      simp lower_bound_loop; reflexivity.
Qed.

(** On a non-decreasing array the loop keeps: every entry before
    [first] is below [val], no entry from [first + len] on is. *)
Lemma lower_bound_loop_spec (v : list R) (val : R) (first len : nat) :
  nondecreasing v ->
  (first + len <= length v)%nat ->
  (forall i, (i < first)%nat -> nth i v 0 < val) ->
  (forall i, (first + len <= i < length v)%nat -> val <= nth i v 0) ->
  let r := lower_bound_loop v val first len in
  (first <= r <= first + len)%nat /\
  (forall i, (i < r)%nat -> nth i v 0 < val) /\
  (forall i, (r <= i < length v)%nat -> val <= nth i v 0).
Proof.
  intros Hmono. revert first.
  induction len as [len IH] using lt_wf_ind.
  intros first Hlen Hlow Hhigh. cbv zeta.
  rewrite lower_bound_loop_step.
  destruct (Nat.eqb_spec len 0) as [->|Hpos].
  - repeat split; try lia; auto.
    intros i Hi. apply Hhigh. lia.
  - pose proof (half_lt len ltac:(lia)) as Hhalf.
    destruct (Rlt_dec (nth (first + half len) v 0) val) as [Hlt|Hge].
    + destruct (IH (len - half len - 1)%nat ltac:(lia)
                   (first + half len + 1)%nat) as (Hr & Hb & Ha).
      * lia.
      * intros i Hi. eapply Rle_lt_trans; [|exact Hlt].
        apply Hmono. lia.
      * intros i Hi. apply Hhigh. lia.
      * repeat split; try lia; auto.
    + destruct (IH (half len) ltac:(lia) first) as (Hr & Hb & Ha).
      * lia.
      * exact Hlow.
      * intros i Hi. apply Rle_trans with (nth (first + half len) v 0).
        -- lra.
        -- apply Hmono. lia.
      * repeat split; try lia; auto.
Qed.

Lemma lower_bound_spec (v : list R) (val : R) :
  nondecreasing v ->
  let r := lower_bound v val in
  (r <= length v)%nat /\
  (forall i, (i < r)%nat -> nth i v 0 < val) /\
  (forall i, (r <= i < length v)%nat -> val <= nth i v 0).
Proof.
  intros Hmono. unfold lower_bound.
  destruct (lower_bound_loop_spec v val 0 (length v) Hmono) as (Hr & Hb & Ha);
    try lia.
  cbv zeta. repeat split; try lia; auto.
Qed.

(** The index found is the only one that separates the entries below
    [val] from the others. *)
Lemma lower_bound_unique (v : list R) (val : R) (k : nat) :
  nondecreasing v ->
  (k <= length v)%nat ->
  (forall i, (i < k)%nat -> nth i v 0 < val) ->
  (forall i, (k <= i < length v)%nat -> val <= nth i v 0) ->
  lower_bound v val = k.
Proof.
  intros Hmono Hk Hb Ha.
  destruct (lower_bound_spec v val Hmono) as (Hr & Hb' & Ha').
  destruct (Nat.lt_trichotomy (lower_bound v val) k) as [Hlt|[Heq|Hgt]]; auto.
  - specialize (Hb _ Hlt). specialize (Ha' (lower_bound v val) ltac:(lia)). lra.
  - specialize (Hb' _ Hgt). specialize (Ha k ltac:(lia)). lra.
Qed.

(** The search stays inside the array exactly when [val] is at most the
    last entry. *)
Lemma lower_bound_in_range (v : list R) (val : R) :
  nondecreasing v -> v <> [] ->
  ((lower_bound v val < length v)%nat <-> val <= last v 0).
Proof.
  intros Hmono Hne.
  assert (Hlen : (0 < length v)%nat) by (destruct v; [congruence|simpl; lia]).
  destruct (lower_bound_spec v val Hmono) as (Hr & Hb & Ha).
  rewrite last_as_nth. split.
  - intros Hlt. apply Rle_trans with (nth (lower_bound v val) v 0).
    + apply Ha. lia.
    + apply Hmono. lia.
  - intros Hle.
    destruct (Nat.eq_dec (lower_bound v val) (length v)) as [Heq|Hneq]; [|lia].
    specialize (Hb (length v - 1)%nat ltac:(lia)). lra.
Qed.

End LowerBoundFacts.

(** ** The weighted particle set *)

Section DistributionFacts.

Context {Variate : Type}.
Variable VariateZero : nat -> Variate.
Variable fresh : Variate.
Implicit Type d : DiscreteDistribution Variate.

Lemma location_defined (i : nat) d :
  (i < size d)%nat -> location i d = Done (nth i (locations_ d) fresh).
Proof.
  intros Hi. unfold location, size in *.
  destruct (nth_error (locations_ d) i) as [x|] eqn:Hx.
  - now rewrite (nth_error_nth _ _ fresh Hx).
  - apply nth_error_None in Hx. lia.
Qed.

Lemma location_undefined (i : nat) d :
  (size d <= i)%nat -> location i d = Undefined.
Proof.
  intros Hi. unfold location, size in *.
  destruct (nth_error (locations_ d) i) as [x|] eqn:Hx; [|reflexivity].
  assert (nth_error (locations_ d) i <> None) as Hn by congruence.
  apply nth_error_Some in Hn. lia.
Qed.

Lemma location_returns (i : nat) d :
  returns (location i d) <-> (i < size d)%nat.
Proof.
  split.
  - intros [x Hx]. destruct (Nat.lt_ge_cases i (size d)) as [|Hge]; [assumption|].
    rewrite (location_undefined i d Hge) in Hx. discriminate.
  - intros Hi. rewrite (location_defined i d Hi). now eexists.
Qed.

Lemma cdf_ok_aligned d : cdf_ok d -> aligned d.
Proof.
  intros (Hlen & Hmono & _ & Hlast). repeat split; auto.
  intros Hnil. rewrite Hnil in Hlast. simpl in Hlast. lra.
Qed.

Lemma normalized_aligned d : normalized d -> aligned d.
Proof. intros [_ H]. now apply cdf_ok_aligned. Qed.

Lemma construct_cdf_ok (dim : nat) : cdf_ok (construct VariateZero dim).
Proof.
  unfold cdf_ok, construct. cbn [locations_ cumul_distr_ repeat length nth last].
  repeat split; try lra.
  intros i j Hij. cbn [length] in Hij.
  replace i with 0%nat by lia. replace j with 0%nat by lia. lra.
Qed.

(** The lookup returns exactly when the draw is at most the last
    cumulative weight. *)
Lemma map_standard_uniform_returns (u : R) d :
  aligned d ->
  (returns (map_standard_uniform u d) <-> u <= last (cumul_distr_ d) 0).
Proof.
  intros (Hlen & Hne & Hmono). unfold map_standard_uniform.
  rewrite location_returns. unfold size. rewrite Hlen.
  now apply lower_bound_in_range.
Qed.


(** A draw in the unit interval always finds a location. *)
Lemma map_standard_uniform_unit (u : R) d :
  cdf_ok d -> u <= 1 ->
  exists k,
    (k < size d)%nat /\
    lower_bound (cumul_distr_ d) u = k /\
    map_standard_uniform u d = Done (nth k (locations_ d) fresh).
Proof.
  intros Hok Hu. pose proof (cdf_ok_aligned d Hok) as (Hlen & Hne & Hmono).
  destruct Hok as (_ & _ & _ & Hlast).
  assert (Hin : (lower_bound (cumul_distr_ d) u < length (cumul_distr_ d))%nat)
    by (apply lower_bound_in_range; auto; lra).
  exists (lower_bound (cumul_distr_ d) u). unfold size. rewrite Hlen.
  repeat split; auto. unfold map_standard_uniform.
  apply location_defined. unfold size. lia.
Qed.

(** C5: for a non-empty log-weight vector [v], [log_unnormalized_prob_mass]
    returns; every normalised weight is [exp (v i) / sum_j exp (v j)], so the
    internal max-subtraction leaves no trace; the weights sum to one; and
    each weight is the exponential of the stored normalised log-weight. *)
Theorem log_unnormalized_prob_mass_softmax (v : list R) d :
  v <> [] ->
  exists d',
    log_unnormalized_prob_mass fresh v d = Done d' /\
    length (prob_mass d') = length v /\
    length (log_prob_mass d') = length v /\
    (forall i, (i < length v)%nat ->
       nth i (prob_mass d') 0
       = Rtrigo_def.exp (nth i v 0) / Eigen.sum (Eigen.exp v)) /\
    Eigen.sum (prob_mass d') = 1 /\
    (forall i, (i < length v)%nat ->
       nth i (prob_mass d') 0 = Rtrigo_def.exp (nth i (log_prob_mass d') 0)).
Proof.
  intros Hv. exists (weighted fresh v d).
  split; [now apply log_unnormalized_prob_mass_eq|].
  unfold prob_mass, log_prob_mass, weighted. cbn [prob_mass_ log_prob_mass_].
  split; [apply softmax_length|].
  split; [unfold Eigen.sub_scalar; apply length_map|].
  split; [|split; [now apply softmax_sum|]].
  - intros i Hi. unfold softmax.
    rewrite (nth_indep _ 0 (Rtrigo_def.exp 0 / Eigen.sum (Eigen.exp v)))
      by (now rewrite length_map).
    now rewrite (map_nth (fun x => Rtrigo_def.exp x / Eigen.sum (Eigen.exp v))).
  - intros i Hi. rewrite <- (exp_normalized_log v Hv).
    unfold Eigen.exp at 1.
    rewrite (nth_indep _ 0 (Rtrigo_def.exp 0))
      by (unfold Eigen.sub_scalar; now rewrite !length_map).
    now rewrite (map_nth Rtrigo_def.exp).
Qed.

(** C3, as the code has it: [log_unnormalized_prob_mass] has no failure
    path and never raises.  On the empty vector the call has no defined
    behaviour; on a non-empty vector the rescaled exponentials sum to at
    least one, so the sum is never zero, and the call returns a
    normalised distribution. *)
Theorem log_unnormalized_prob_mass_never_raises (x : R) (v : list R) d :
  log_unnormalized_prob_mass fresh [] d = Undefined /\
  (exists m d',
      Eigen.maxCoeff (x :: v) = Done m /\
      1 <= Eigen.sum (Eigen.exp (Eigen.sub_scalar (x :: v) m)) /\
      log_unnormalized_prob_mass fresh (x :: v) d = Done d' /\
      normalized d') /\
  (forall w, ~ raises (log_unnormalized_prob_mass fresh w d)).
Proof.
  split; [reflexivity|]. split.
  - destruct (maxCoeff_defined (x :: v)) as [m Hm]; [discriminate|].
    exists m, (weighted fresh (x :: v) d).
    split; [exact Hm|].
    split; [apply sum_exp_rescaled_ge_1; now apply maxCoeff_spec|].
    split; [apply log_unnormalized_prob_mass_eq; discriminate|].
    apply weighted_normalized. discriminate.
  - intros w [e He]. destruct w as [|y w].
    + discriminate.
    + rewrite log_unnormalized_prob_mass_eq in He by discriminate.
      discriminate.
Qed.

(** C4, at the constructor: a freshly constructed distribution has one
    location, one log-weight and one cumulative weight but no normalised
    weight, so the sizes disagree and the weights do not sum to one. *)
Theorem construct_breaks_invariant (dim : nat) :
  let d := construct VariateZero dim in
  length (locations_ d) = 1%nat /\
  length (log_prob_mass_ d) = 1%nat /\
  length (prob_mass_ d) = 0%nat /\
  length (cumul_distr_ d) = 1%nat /\
  Eigen.sum (prob_mass_ d) = 0 /\
  prob_mass_at 0 d = Undefined /\
  ~ invariant d.
Proof.
  cbv zeta. unfold construct. cbn.
  repeat split; auto.
  intros ((_ & H & _) & _). cbn in H. discriminate.
Qed.

(** Every mutator of the weights leaves a normalised state behind. *)
Lemma delta_log_prob_mass_normalized (delta : list R) d d' :
  delta_log_prob_mass fresh delta d = Done d' -> normalized d'.
Proof.
  unfold delta_log_prob_mass.
  destruct (Eigen.add (log_prob_mass_ d) delta) as [v| |]; cbn [obind];
    try discriminate.
  apply log_unnormalized_prob_mass_normalized.
Qed.

Lemma set_uniform_normalized (n : nat) d d' :
  set_uniform fresh n d = Done d' -> normalized d'.
Proof. apply log_unnormalized_prob_mass_normalized. Qed.

Lemma set_location_fields (i : nat) (x : Variate) d d' :
  set_location i x d = Done d' ->
  length (locations_ d') = length (locations_ d) /\
  log_prob_mass_ d' = log_prob_mass_ d /\
  prob_mass_ d' = prob_mass_ d /\
  cumul_distr_ d' = cumul_distr_ d.
Proof.
  unfold set_location.
  destruct (nth_error (locations_ d) i) as [y|] eqn:Hy; [|discriminate].
  intros [= <-]. cbn [locations_ log_prob_mass_ prob_mass_ cumul_distr_].
  repeat split.
  assert (Hi : (i < length (locations_ d))%nat)
    by (apply nth_error_Some; congruence).
  rewrite length_app, length_firstn. cbn [length].
  match goal with
  | |- context [length ?t] =>
      change t with (skipn (S i) (locations_ d))
  end.
  rewrite length_skipn. lia.
Qed.

Lemma set_uniform_size (n : nat) d d' :
  set_uniform fresh n d = Done d' -> length (locations_ d') = n.
Proof.
  unfold set_uniform. destruct n as [|n]; [discriminate|].
  rewrite log_unnormalized_prob_mass_eq by discriminate.
  intros [= <-]. cbn [weighted locations_].
  now rewrite resize_length, Zero_length.
Qed.

(** Every state an object goes through has a lookup table in order;
    the full invariant holds once the weights have been set, and before
    that the array of normalised weights is still empty. *)
Lemma reachable_states d :
  reachable VariateZero fresh d ->
  cdf_ok d /\ (invariant d \/ prob_mass_ d = []).
Proof.
  assert (Hnorm : forall d', normalized d' ->
            cdf_ok d' /\ (invariant d' \/ prob_mass_ d' = [])).
  { intros d' [Hinv Hok]. split; [exact Hok|now left]. }
  induction 1 as [dim|v d d' _ _ Hrun|delta d d' _ _ Hrun|n d d' _ _ Hrun
                  |i x d d' _ [Hok Hinv] Hrun|n xs d d' _ _ Hrun Hlen].
  - split; [apply construct_cdf_ok|now right].
  - apply Hnorm. eapply log_unnormalized_prob_mass_normalized; eassumption.
  - apply Hnorm. eapply delta_log_prob_mass_normalized; eassumption.
  - apply Hnorm. eapply set_uniform_normalized; eassumption.
  - destruct (set_location_fields i x d d' Hrun) as (Hl & Hlog & Hp & Hc).
    destruct Hok as (Hk1 & Hk2 & Hk3 & Hk4). split.
    + unfold cdf_ok. rewrite Hl, Hc. repeat split; assumption.
    + destruct Hinv as [((Hs1 & Hs2 & Hs3) & Hsum & Hmono)|Hempty].
      * left. unfold invariant, sizes_agree. rewrite Hl, Hlog, Hp, Hc.
        repeat split; assumption.
      * right. now rewrite Hp.
  - pose proof (set_uniform_size n d d' Hrun) as Hsize.
    apply set_uniform_normalized in Hrun.
    destruct Hrun as (((Hs1 & Hs2 & Hs3) & Hsum & Hmono) & (Hk1 & Hk2 & Hk3 & Hk4)).
    split.
    + unfold cdf_ok. cbn [assign_locations locations_ cumul_distr_].
      rewrite Hlen. repeat split; try assumption; congruence.
    + left. unfold invariant, sizes_agree.
      cbn [assign_locations locations_ log_prob_mass_ prob_mass_ cumul_distr_].
      rewrite Hlen. repeat split; try assumption; congruence.
Qed.


(** C10: with a lookup table that fits the locations, the lookup reads
    inside the location array exactly when the draw is at most the last
    cumulative weight; beyond it the index found is [size()] and the read
    is out of range, also when the draw is the Gaussian CDF value that
    [map_standard_normal] computes.  If the state is the result of
    [log_unnormalized_prob_mass], the last cumulative weight is one and
    every draw of the closed unit interval reads in range. *)
Theorem map_standard_uniform_in_range (u : R) d :
  aligned d ->
  ((lower_bound (cumul_distr_ d) u < size d)%nat
     <-> u <= last (cumul_distr_ d) 0) /\
  (returns (map_standard_uniform u d) <-> u <= last (cumul_distr_ d) 0) /\
  (last (cumul_distr_ d) 0 < u ->
     lower_bound (cumul_distr_ d) u = size d /\
     map_standard_uniform u d = Undefined) /\
  (forall (erf : R -> R) (z : R),
     0.5 * (1.0 + erf (z / sqrt 2.0)) = u ->
     last (cumul_distr_ d) 0 < u ->
     map_standard_normal erf z d = Undefined) /\
  (forall (v : list R) d0,
     log_unnormalized_prob_mass fresh v d0 = Done d ->
     last (cumul_distr_ d) 0 = 1 /\
     (0 <= u <= 1 -> returns (map_standard_uniform u d))).
Proof.
  intros Hal. pose proof Hal as (Hlen & Hne & Hmono).
  pose proof (lower_bound_in_range (cumul_distr_ d) u Hmono Hne) as Hiff.
  pose proof (map_standard_uniform_returns u d Hal) as Hret.
  unfold size. rewrite Hlen.
  assert (Hout : last (cumul_distr_ d) 0 < u ->
            lower_bound (cumul_distr_ d) u = length (cumul_distr_ d) /\
            map_standard_uniform u d = Undefined).
  { intros Hgt.
    destruct (lower_bound_spec (cumul_distr_ d) u Hmono) as (Hr & _ & _).
    assert (Heq : lower_bound (cumul_distr_ d) u = length (cumul_distr_ d)).
    { destruct (Nat.eq_dec (lower_bound (cumul_distr_ d) u)
                           (length (cumul_distr_ d))) as [|Hn]; [assumption|].
      assert (u <= last (cumul_distr_ d) 0) by (apply Hiff; lia). lra. }
    split; [exact Heq|].
    unfold map_standard_uniform. apply location_undefined.
    unfold size. lia. }
  split; [exact Hiff|]. split; [exact Hret|]. split; [exact Hout|]. split.
  - intros erf z Hu Hgt. unfold map_standard_normal. rewrite Hu.
    now apply Hout.
  - intros v d0 Hset.
    apply log_unnormalized_prob_mass_normalized in Hset.
    destruct Hset as (_ & _ & _ & _ & Hlast).
    split; [exact Hlast|]. intros Hu. apply Hret. lra.
Qed.

End DistributionFacts.

(** ** Running the calls over the store *)

Section StoreFacts.

Context {State Noise : Type}.
Variable fresh : State.

Implicit Type w : @world State Noise.
Implicit Type b p : @Belief State.
Implicit Type r this distribution : ref.

Lemma heap_set_belief_same r b w : heap (set_belief r b w) r = b.
Proof. cbn. now rewrite Nat.eqb_refl. Qed.

Lemma heap_set_belief_other r r' b w :
  r' <> r -> heap (set_belief r b w) r' = heap w r'.
Proof. intros Hne. cbn. apply Nat.eqb_neq in Hne. now rewrite Hne. Qed.

Lemma only_changes_refl r w : only_changes r w w.
Proof. repeat split. Qed.

Lemma only_changes_trans r w1 w2 w3 :
  only_changes r w1 w2 -> only_changes r w2 w3 -> only_changes r w1 w3.
Proof.
  intros (H1 & H2 & H3) (H1' & H2' & H3'). repeat split; try congruence.
  intros r' Hne. rewrite H1', H1; auto.
Qed.

Lemma only_changes_set_belief r b w :
  only_changes r w (set_belief r b w).
Proof.
  repeat split. intros r' Hne. now apply heap_set_belief_other.
Qed.

(** [n] uniform draws later. *)
Lemma heap_iter_use_uniform (n : nat) w :
  heap (Nat.iter n use_uniform w) = heap w.
Proof.
  induction n as [|n IH]; [reflexivity|].
  rewrite Nat.iter_succ. exact IH.
Qed.

Lemma uniform_draws_iter_use_uniform (n : nat) w :
  uniform_draws (Nat.iter n use_uniform w) = uniform_draws w.
Proof.
  induction n as [|n IH]; [reflexivity|].
  rewrite Nat.iter_succ. exact IH.
Qed.

Lemma uniform_used_iter_use_uniform (n : nat) w :
  uniform_used (Nat.iter n use_uniform w) = (uniform_used w + n)%nat.
Proof.
  induction n as [|n IH]; [cbn; lia|].
  rewrite Nat.iter_succ. cbn [use_uniform uniform_used]. rewrite IH. lia.
Qed.

Lemma noise_draws_iter_use_uniform (n : nat) w :
  noise_draws (Nat.iter n use_uniform w) = noise_draws w.
Proof.
  induction n as [|n IH]; [reflexivity|].
  rewrite Nat.iter_succ. exact IH.
Qed.

Lemma noise_used_iter_use_uniform (n : nat) w :
  noise_used (Nat.iter n use_uniform w) = noise_used w.
Proof.
  induction n as [|n IH]; [reflexivity|].
  rewrite Nat.iter_succ. exact IH.
Qed.

Lemma call_run r (method : @Belief State -> outcome (@Belief State)) (b' : @Belief State) w :
  method (heap w r) = Done b' ->
  call r method w = Done (tt, set_belief r b' w).
Proof.
  intros H. unfold call, bind, deref, lift, store. rewrite H. reflexivity.
Qed.

Lemma query_run {A : Type} r (method : @Belief State -> outcome A) (a : A) w :
  method (heap w r) = Done a -> query r method w = Done (a, w).
Proof.
  intros H. unfold query, bind, deref, lift. rewrite H. reflexivity.
Qed.

Lemma bind_run {A B : Type} (m : M A) (k : A -> M B) (a : A) w w' :
  m w = Done (a, w') -> bind m k w = k a w'.
Proof. intros H. unfold bind. now rewrite H. Qed.

Lemma sample_run distribution (x : State) w :
  map_standard_uniform (uniform_draws w (uniform_used w)) (heap w distribution)
  = Done x ->
  sample distribution w = Done (x, use_uniform w).
Proof.
  intros H. unfold sample, next_uniform.
  unfold bind at 1. now apply query_run.
Qed.

(** The sampling loop reads the distribution as it is at entry, once per
    draw, and touches no belief. *)
Lemma sample_loop_spec distribution (n : nat) : forall w,
  cdf_ok (heap w distribution) ->
  (forall k, (k < n)%nat -> uniform_draws w (uniform_used w + k) <= 1) ->
  sample_loop distribution n w
  = Done (resampled fresh (heap w distribution) (uniform_draws w)
                    (uniform_used w) n,
          Nat.iter n use_uniform w).
Proof.
  induction n as [|n IH]; intros w Hok Hdraws; [reflexivity|].
  cbn [sample_loop resampled].
  destruct (map_standard_uniform_unit fresh
              (uniform_draws w (uniform_used w)) (heap w distribution) Hok)
    as (k & Hk & Hidx & Hmap).
  { specialize (Hdraws 0%nat ltac:(lia)). now rewrite Nat.add_0_r in Hdraws. }
  rewrite (bind_run _ _ _ _ _ (sample_run distribution _ w Hmap)).
  rewrite (bind_run _ _ _ _ _ (IH (use_uniform w) Hok
    ltac:(intros j Hj; cbn; specialize (Hdraws (S j) ltac:(lia));
          now rewrite Nat.add_succ_r in Hdraws))).
  unfold ret. rewrite Hidx. cbn [use_uniform heap uniform_draws uniform_used].
  rewrite Nat.iter_succ_r. reflexivity.
Qed.

Lemma resampled_length p (draws : nat -> R) (n : nat) :
  forall start, length (resampled fresh p draws start n) = n.
Proof. induction n as [|n IH]; intros start; cbn; auto. Qed.

Lemma resampled_nth p (draws : nat -> R) (n : nat) :
  forall start k, (k < n)%nat ->
  nth k (resampled fresh p draws start n) fresh
  = nth (lower_bound (cumul_distr_ p) (draws (start + k)%nat))
        (locations_ p) fresh.
Proof.
  induction n as [|n IH]; intros start k Hk; [lia|].
  destruct k as [|k]; cbn [resampled nth].
  - now rewrite Nat.add_0_r.
  - rewrite IH by lia. now rewrite Nat.add_succ_r.
Qed.

(** Equal log-weights give equal weights. *)
Lemma softmax_Zero (n : nat) :
  softmax (Eigen.Zero n) = repeat (1 / INR n) n.
Proof.
  assert (Hsum : Eigen.sum (Eigen.exp (Eigen.Zero n)) = INR n).
  { unfold Eigen.exp, Eigen.Zero. induction n as [|n IH].
    - reflexivity.
    - cbn [repeat map Eigen.sum]. rewrite IH, exp_0, S_INR. ring. }
  unfold softmax. rewrite Hsum. unfold Eigen.Zero.
  rewrite map_repeat, exp_0. reflexivity.
Qed.

(** [from_distribution], also when [this] and [distribution] are one
    object: the new locations are looked up in the distribution as it
    was at entry. *)
Lemma from_distribution_spec this distribution (new_size : Z) w :
  (1 <= new_size)%Z ->
  cdf_ok (heap w distribution) ->
  (forall k, (k < Z.to_nat new_size)%nat ->
     uniform_draws w (uniform_used w + k) <= 1) ->
  exists w',
    from_distribution fresh this distribution new_size w = Done (tt, w') /\
    heap w' this
    = assign_locations
        (resampled fresh (heap w distribution) (uniform_draws w)
                   (uniform_used w) (Z.to_nat new_size))
        (weighted fresh (Eigen.Zero (Z.to_nat new_size)) (heap w this)) /\
    only_changes this w w' /\
    uniform_used w' = (uniform_used w + Z.to_nat new_size)%nat /\
    noise_used w' = noise_used w.
Proof.
  intros Hsize Hok Hdraws. unfold from_distribution.
  destruct (Z.ltb_spec new_size 0) as [Hneg|_]; [lia|].
  set (n := Z.to_nat new_size) in *.
  assert (Hn : (1 <= n)%nat) by (unfold n; lia).
  rewrite (bind_run _ _ _ _ _ (sample_loop_spec distribution n w Hok Hdraws)).
  set (w1 := Nat.iter n use_uniform w).
  set (new_locations := resampled fresh _ _ _ _).
  assert (Hset : set_uniform fresh n (heap w1 this)
                 = Done (weighted fresh (Eigen.Zero n) (heap w this))).
  { unfold set_uniform, w1. rewrite heap_iter_use_uniform.
    apply log_unnormalized_prob_mass_eq. now apply Zero_nonempty. }
  rewrite (bind_run _ _ _ _ _ (call_run this _ _ w1 Hset)).
  set (w2 := set_belief this _ w1).
  rewrite (call_run this _ (assign_locations new_locations (heap w2 this)) w2)
    by reflexivity.
  eexists. split; [reflexivity|].
  unfold w2 at 1 2. rewrite !heap_set_belief_same.
  split; [reflexivity|]. split; [|split].
  - apply only_changes_trans with w2; [|apply only_changes_set_belief].
    apply only_changes_trans with w1; [|apply only_changes_set_belief].
    unfold w1. repeat split.
    + intros r' _. now rewrite heap_iter_use_uniform.
    + apply uniform_draws_iter_use_uniform.
    + apply noise_draws_iter_use_uniform.
  - cbn [set_belief uniform_used]. apply uniform_used_iter_use_uniform.
  - cbn [set_belief noise_used]. apply noise_used_iter_use_uniform.
Qed.

(** After [from_distribution] the target satisfies the invariant. *)
Lemma from_distribution_normalized this distribution (new_size : Z) w :
  (1 <= new_size)%Z ->
  cdf_ok (heap w distribution) ->
  (forall k, (k < Z.to_nat new_size)%nat ->
     uniform_draws w (uniform_used w + k) <= 1) ->
  exists w',
    from_distribution fresh this distribution new_size w = Done (tt, w') /\
    normalized (heap w' this).
Proof.
  intros Hsize Hok Hdraws.
  destruct (from_distribution_spec this distribution new_size w Hsize Hok Hdraws)
    as (w' & Hrun & Hheap & _).
  exists w'. split; [exact Hrun|]. rewrite Hheap.
  assert (Hn : (1 <= Z.to_nat new_size)%nat) by lia.
  destruct (weighted_normalized fresh (Eigen.Zero (Z.to_nat new_size))
              (heap w this) (Zero_nonempty _ Hn))
    as (((Hs1 & Hs2 & Hs3) & Hsum & Hmono) & (Hk1 & _ & Hk3 & Hk4)).
  assert (Hlen : length (resampled fresh (heap w distribution) (uniform_draws w)
                           (uniform_used w) (Z.to_nat new_size))
                 = length (locations_ (weighted fresh
                                         (Eigen.Zero (Z.to_nat new_size))
                                         (heap w this)))).
  { rewrite resampled_length. cbn [weighted locations_].
    now rewrite resize_length, Zero_length. }
  unfold normalized, invariant, sizes_agree, cdf_ok.
  cbn [assign_locations locations_ log_prob_mass_ prob_mass_ cumul_distr_].
  rewrite Hlen. repeat split; assumption.
Qed.

End StoreFacts.

(** ** The particle filter *)

Section FilterFacts.

Context {State Input Obsrv Noise : Type}.
Variable fresh : State.
Variable process_model_state : State -> Noise -> Input -> State.
Variable obsrv_model_log_probabilities : Obsrv -> list State -> list R.
Variable max_kl_divergence_ : R.

Implicit Type w : @world State Noise.
Implicit Type b p q : @Belief State.
Implicit Type prior predicted posterior : ref.

Lemma assign_locations_same b : assign_locations (locations_ b) b = b.
Proof. now destruct b. Qed.

Lemma assign_locations_twice (xs ys : list State) b :
  assign_locations xs (assign_locations ys b) = assign_locations xs b.
Proof. reflexivity. Qed.

Lemma set_location_at (done rest : list State) (x0 x : State) b :
  locations_ b = done ++ x0 :: rest ->
  set_location (length done) x b
  = Done (assign_locations (done ++ x :: rest) b).
Proof.
  intros Hloc. unfold set_location. rewrite Hloc.
  rewrite nth_error_app2 by lia. rewrite Nat.sub_diag. cbn [nth_error].
  unfold assign_locations. repeat f_equal.
  - rewrite firstn_app, Nat.sub_diag, firstn_all. cbn [firstn].
    now rewrite app_nil_r.
  - replace (S (length done)) with (length done + 1)%nat by lia.
    rewrite skipn_app.
    rewrite (skipn_all2 done) by lia.
    replace (length done + 1 - length done)%nat with 1%nat by lia.
    reflexivity.
Qed.

(** The loop of [predict] from index [length done] on: [done] are the
    locations already rewritten, [rest] the prior locations still to
    visit.  The prior may be the object being rewritten. *)
Lemma predict_loop_spec prior (input : Input) predicted (rest : list State) :
  forall (done : list State) w,
  locations_ (heap w predicted) = done ++ rest ->
  (forall k x, nth_error rest k = Some x ->
     nth_error (locations_ (heap w prior)) (length done + k) = Some x) ->
  exists w',
    predict_loop process_model_state prior input predicted
                 (length done) (length rest) w = Done (tt, w') /\
    heap w' predicted
    = assign_locations
        (done ++ propagated process_model_state rest (noise_draws w)
                            (noise_used w) input)
        (heap w predicted) /\
    only_changes predicted w w' /\
    uniform_used w' = uniform_used w /\
    noise_used w' = (noise_used w + length rest)%nat.
Proof.
  induction rest as [|x0 rest IH]; intros done w Hloc Hprior.
  - exists w. cbn [predict_loop length propagated].
    split; [reflexivity|]. split.
    + rewrite <- Hloc. symmetry. apply assign_locations_same.
    + split; [apply only_changes_refl|]. split; lia.
  - cbn [predict_loop length propagated].
    assert (Hread : location (length done) (heap w prior) = Done x0).
    { unfold location. specialize (Hprior 0%nat x0 eq_refl).
      rewrite Nat.add_0_r in Hprior. now rewrite Hprior. }
    rewrite (bind_run _ _ _ _ _ (query_run prior _ _ w Hread)).
    unfold process_noise_sample at 1. unfold bind at 1.
    set (x := process_model_state x0 (noise_draws w (noise_used w)) input).
    pose proof (set_location_at done rest x0 x (heap w predicted) Hloc) as Hset.
    change (heap w predicted) with (heap (use_noise w) predicted) in Hset at 1.
    rewrite (bind_run _ _ _ _ _ (call_run predicted _ _ _ Hset)).
    set (b1 := assign_locations (done ++ x :: rest) (heap w predicted)).
    set (w1 := set_belief predicted b1 (use_noise w)).
    destruct (IH (done ++ [x]) w1) as (w' & Hrun & Hheap & Hframe & Hu & Hn).
    + unfold w1. rewrite heap_set_belief_same. unfold b1. cbn [assign_locations locations_].
      now rewrite <- app_assoc.
    + intros k y Hk. rewrite length_app. cbn [length].
      destruct (Nat.eq_dec prior predicted) as [->|Hne].
      * unfold w1. rewrite heap_set_belief_same. unfold b1.
        cbn [assign_locations locations_].
        rewrite nth_error_app2 by lia.
        replace (length done + 1 + k - length done)%nat with (S k) by lia.
        exact Hk.
      * unfold w1. rewrite heap_set_belief_other by exact Hne.
        cbn [use_noise heap].
        replace (length done + 1 + k)%nat with (length done + S k)%nat by lia.
        now apply Hprior.
    + rewrite length_app in Hrun. cbn [length] in Hrun.
      replace (length done + 1)%nat with (S (length done)) in Hrun by lia.
      exists w'. split; [exact Hrun|]. split; [|split; [|split]].
      * rewrite Hheap. unfold w1. rewrite heap_set_belief_same.
        unfold b1. rewrite assign_locations_twice.
        cbn [set_belief use_noise noise_draws noise_used].
        now rewrite <- app_assoc.
      * eapply only_changes_trans; [|exact Hframe].
        unfold w1. repeat split.
        intros r' Hne. now rewrite heap_set_belief_other.
      * rewrite Hu. reflexivity.
      * rewrite Hn. cbn [w1 set_belief use_noise noise_used]. lia.
Qed.

(** [predict]: the predicted belief is the prior with every location
    sent through the process model, one noise draw per particle. *)
Lemma predict_spec prior (input : Input) predicted w :
  exists w',
    predict process_model_state prior input predicted w = Done (tt, w') /\
    heap w' predicted
    = assign_locations
        (propagated process_model_state (locations_ (heap w prior))
                    (noise_draws w) (noise_used w) input)
        (heap w prior) /\
    only_changes predicted w w' /\
    uniform_used w' = uniform_used w /\
    noise_used w' = (noise_used w + size (heap w prior))%nat.
Proof.
  unfold predict. unfold deref at 1. unfold bind at 1.
  unfold store at 1. unfold bind at 1.
  set (w0 := set_belief predicted (heap w prior) w).
  unfold deref at 1. unfold bind at 1.
  assert (H0 : heap w0 predicted = heap w prior)
    by (unfold w0; apply heap_set_belief_same).
  rewrite H0. unfold size.
  destruct (predict_loop_spec prior input predicted
              (locations_ (heap w prior)) [] w0)
    as (w' & Hrun & Hheap & Hframe & Hu & Hn).
  - now rewrite H0.
  - intros k x Hk. cbn [length Nat.add].
    destruct (Nat.eq_dec prior predicted) as [->|Hne].
    + now rewrite H0.
    + unfold w0. now rewrite heap_set_belief_other.
  - exists w'. split; [exact Hrun|]. split; [|split; [|split]].
    + rewrite Hheap, H0. reflexivity.
    + eapply only_changes_trans; [|exact Hframe].
      apply only_changes_set_belief.
    + rewrite Hu. reflexivity.
    + rewrite Hn. reflexivity.
Qed.

Lemma propagated_length (xs : list State) (noise : nat -> Noise) (input : Input) :
  forall start,
  length (propagated process_model_state xs noise start input) = length xs.
Proof. induction xs as [|x xs IH]; intros start; cbn; auto. Qed.

Lemma propagated_nth_error (xs : list State) (noise : nat -> Noise)
    (input : Input) :
  forall start i x,
  nth_error xs i = Some x ->
  nth_error (propagated process_model_state xs noise start input) i
  = Some (process_model_state x (noise (start + i)%nat) input).
Proof.
  induction xs as [|x0 xs IH]; intros start i x Hi.
  - destruct i; discriminate.
  - destruct i as [|i]; cbn [propagated nth_error] in *.
    + injection Hi as ->. now rewrite Nat.add_0_r.
    + rewrite (IH (S start) i x Hi). now rewrite Nat.add_succ_r.
Qed.

(** The observation model returns one log-likelihood per location. *)
Hypothesis log_probabilities_size : forall (obsrv : Obsrv) (xs : list State),
  length (obsrv_model_log_probabilities obsrv xs) = length xs.

Lemma cdf_ok_size p : cdf_ok p -> (1 <= size p)%nat.
Proof.
  intros Hok. destruct (cdf_ok_aligned p Hok) as (Hlen & Hne & _).
  unfold size. rewrite Hlen. destruct (cumul_distr_ p); [congruence|simpl; lia].
Qed.

Lemma cwise_defined (f : R -> R -> R) (a c : list R) :
  length a = length c -> Eigen.cwise f a c = Done (Eigen.zip_with f a c).
Proof.
  intros H. unfold Eigen.cwise. rewrite H, Nat.eqb_refl. reflexivity.
Qed.

Lemma zip_with_length (f : R -> R -> R) (a : list R) : forall c,
  length a = length c -> length (Eigen.zip_with f a c) = length a.
Proof.
  induction a as [|x a IH]; intros [|y c] H; cbn in *; try lia.
  rewrite IH; lia.
Qed.

Lemma kl_given_uniform_defined p :
  sizes_agree p ->
  kl_given_uniform p
  = Done (ln (INR (size p))
          - - Eigen.sum (Eigen.zip_with Rmult (log_prob_mass_ p) (prob_mass_ p))).
Proof.
  intros (_ & H & _). unfold kl_given_uniform, entropy, Eigen.cwiseProduct.
  rewrite cwise_defined by exact H. reflexivity.
Qed.

(** The branch of [update] that resamples. *)
Lemma update_resample_resamples predicted posterior w (kl : R) :
  kl_given_uniform (heap w predicted) = Done kl ->
  kl > max_kl_divergence_ ->
  cdf_ok (heap w predicted) ->
  (forall k, (k < size (heap w predicted))%nat ->
     uniform_draws w (uniform_used w + k) <= 1) ->
  exists w',
    update_resample fresh max_kl_divergence_ predicted posterior w
    = Done (tt, w') /\
    heap w' posterior
    = assign_locations
        (resampled fresh (heap w predicted) (uniform_draws w)
                   (uniform_used w) (size (heap w predicted)))
        (weighted fresh (Eigen.Zero (size (heap w predicted)))
                  (heap w posterior)) /\
    only_changes posterior w w' /\
    uniform_used w' = (uniform_used w + size (heap w predicted))%nat /\
    noise_used w' = noise_used w.
Proof.
  intros Hkl Hgt Hok Hdraws. unfold update_resample.
  rewrite (bind_run _ _ _ _ _ (query_run predicted _ _ w Hkl)).
  destruct (Rgt_dec kl max_kl_divergence_) as [_|Hn]; [|contradiction].
  unfold deref at 1. unfold bind at 1.
  pose proof (cdf_ok_size _ Hok) as Hsize.
  destruct (from_distribution_spec fresh posterior predicted
              (Z.of_nat (size (heap w predicted))) w)
    as (w' & Hrun & Hheap & Hframe & Hu & Hn); try lia; auto.
  - now rewrite Nat2Z.id.
  - rewrite Nat2Z.id in *. exists w'. auto.
Qed.

(** The branch of [update] that copies. *)
Lemma update_resample_copies predicted posterior w (kl : R) :
  kl_given_uniform (heap w predicted) = Done kl ->
  ~ kl > max_kl_divergence_ ->
  update_resample fresh max_kl_divergence_ predicted posterior w
  = Done (tt, set_belief posterior (heap w predicted) w).
Proof.
  intros Hkl Hle. unfold update_resample.
  rewrite (bind_run _ _ _ _ _ (query_run predicted _ _ w Hkl)).
  destruct (Rgt_dec kl max_kl_divergence_) as [Hgt|_]; [contradiction|].
  reflexivity.
Qed.

(** The weighting step of [update]: the log-likelihoods are those of the
    locations that the object behind [predicted] holds at that moment. *)
Lemma update_weights_spec predicted (obsrv : Obsrv) posterior w :
  length (log_prob_mass_ (heap w posterior))
  = length (locations_ (heap w predicted)) ->
  locations_ (heap w predicted) <> [] ->
  update_weights fresh obsrv_model_log_probabilities predicted obsrv posterior w
  = Done (tt,
          set_belief posterior
            (weighted fresh
               (Eigen.zip_with Rplus (log_prob_mass_ (heap w posterior))
                  (obsrv_model_log_probabilities obsrv
                     (locations_ (heap w predicted))))
               (heap w posterior))
            w).
Proof.
  intros Hlen Hne. unfold update_weights.
  unfold deref at 1. unfold bind at 1. unfold locations.
  apply call_run. unfold delta_log_prob_mass, Eigen.add.
  rewrite cwise_defined by (now rewrite log_probabilities_size).
  cbn [obind]. apply log_unnormalized_prob_mass_eq.
  intros Hnil. apply (f_equal (@length R)) in Hnil.
  rewrite zip_with_length in Hnil by (now rewrite log_probabilities_size).
  rewrite Hlen in Hnil. destruct (locations_ (heap w predicted)); [congruence|].
  discriminate.
Qed.

Lemma weighted_Zero_log_length (n : nat) b :
  length (log_prob_mass_ (weighted fresh (Eigen.Zero n) b)) = n.
Proof.
  cbn [weighted log_prob_mass_]. unfold Eigen.sub_scalar.
  now rewrite length_map, Zero_length.
Qed.

Lemma resize_same (xs : list State) : Eigen.resize fresh xs (length xs) = xs.
Proof. unfold Eigen.resize. now rewrite Nat.eqb_refl. Qed.

Lemma repeat_nth (c : R) (n i : nat) : (i < n)%nat -> nth i (repeat c n) 0 = c.
Proof.
  revert i. induction n as [|n IH]; intros i Hi; [lia|].
  destruct i as [|i]; cbn; [reflexivity|]. apply IH. lia.
Qed.

Lemma assign_locations_normalized (xs : list State) b :
  length xs = length (locations_ b) ->
  normalized b -> normalized (assign_locations xs b).
Proof.
  intros Hlen (((Hs1 & Hs2 & Hs3) & Hsum & Hmono) & (Hc & _ & Hfirst & Hlast)).
  unfold normalized, invariant, sizes_agree, cdf_ok.
  cbn [assign_locations locations_ log_prob_mass_ prob_mass_ cumul_distr_].
  rewrite Hlen. repeat split; assumption.
Qed.

Lemma resampled_constant p (draws : nat -> R) (i : nat) (n : nat) :
  forall start,
  (forall k, (k < n)%nat ->
     lower_bound (cumul_distr_ p) (draws (start + k)%nat) = i) ->
  resampled fresh p draws start n = repeat (nth i (locations_ p) fresh) n.
Proof.
  induction n as [|n IH]; intros start Hidx; [reflexivity|].
  cbn [resampled repeat]. f_equal.
  - specialize (Hidx 0%nat ltac:(lia)). rewrite Nat.add_0_r in Hidx.
    now rewrite Hidx.
  - apply IH. intros k Hk. specialize (Hidx (S k) ltac:(lia)).
    now rewrite Nat.add_succ_r in Hidx.
Qed.

(** [update] when it resamples.  The posterior keeps the resampled
    locations; the log-likelihoods added to its uniform log-weights are
    those of [scored]: the resampled locations when [predicted] and
    [posterior] are one object, the locations of the predicted belief
    when they are two. *)
Lemma update_resampling_spec predicted (obsrv : Obsrv) posterior w (kl : R) :
  kl_given_uniform (heap w predicted) = Done kl ->
  kl > max_kl_divergence_ ->
  cdf_ok (heap w predicted) ->
  (forall k, (k < size (heap w predicted))%nat ->
     uniform_draws w (uniform_used w + k) <= 1) ->
  let n := size (heap w predicted) in
  let new_locations :=
    resampled fresh (heap w predicted) (uniform_draws w) (uniform_used w) n in
  let q :=
    assign_locations new_locations
      (weighted fresh (Eigen.Zero n) (heap w posterior)) in
  let scored :=
    if Nat.eqb predicted posterior then new_locations
    else locations_ (heap w predicted) in
  exists w',
    update fresh obsrv_model_log_probabilities max_kl_divergence_
           predicted obsrv posterior w = Done (tt, w') /\
    heap w' posterior
    = weighted fresh
        (Eigen.zip_with Rplus (log_prob_mass_ q)
           (obsrv_model_log_probabilities obsrv scored))
        q /\
    locations_ (heap w' posterior) = new_locations /\
    only_changes posterior w w'.
Proof.
  intros Hkl Hgt Hok Hdraws n new_locations q scored.
  destruct (update_resample_resamples predicted posterior w kl Hkl Hgt Hok Hdraws)
    as (w1 & Hrun & Hheap & Hframe & _ & _).
  fold n in Hheap. fold new_locations in Hheap. fold q in Hheap.
  pose proof (cdf_ok_size _ Hok) as Hn. fold n in Hn.
  assert (Hnew : length new_locations = n) by apply resampled_length.
  assert (Hpred : locations_ (heap w1 predicted) = scored).
  { unfold scored. destruct (Nat.eqb_spec predicted posterior) as [->|Hne].
    - now rewrite Hheap.
    - destruct Hframe as (Hf & _). now rewrite Hf. }
  assert (Hscored : length scored = n).
  { unfold scored. destruct (Nat.eqb predicted posterior); auto. }
  assert (Hlog : length (log_prob_mass_ q) = n)
    by apply weighted_Zero_log_length.
  unfold update. rewrite (bind_run _ _ _ _ _ Hrun).
  rewrite update_weights_spec.
  - rewrite Hpred, Hheap. eexists. split; [reflexivity|].
    rewrite heap_set_belief_same. split; [reflexivity|]. split.
    + cbn [weighted locations_].
      rewrite zip_with_length by (now rewrite log_probabilities_size, Hscored).
      rewrite Hlog.
      change (locations_ q) with new_locations.
      rewrite <- Hnew. apply resize_same.
    + eapply only_changes_trans; [exact Hframe|apply only_changes_set_belief].
  - rewrite Hpred, Hheap. now rewrite Hlog, Hscored.
  - rewrite Hpred. intros Hnil. rewrite Hnil in Hscored. cbn in Hscored. lia.
Qed.

(** [update] when it does not resample: the predicted belief is copied
    and scored at its own locations. *)
Lemma update_copying_spec predicted (obsrv : Obsrv) posterior w (kl : R) :
  kl_given_uniform (heap w predicted) = Done kl ->
  ~ kl > max_kl_divergence_ ->
  normalized (heap w predicted) ->
  let p := heap w predicted in
  exists w',
    update fresh obsrv_model_log_probabilities max_kl_divergence_
           predicted obsrv posterior w = Done (tt, w') /\
    heap w' posterior
    = weighted fresh
        (Eigen.zip_with Rplus (log_prob_mass_ p)
           (obsrv_model_log_probabilities obsrv (locations_ p)))
        p /\
    only_changes posterior w w'.
Proof.
  intros Hkl Hle [((Hs1 & _) & _) Hok] p.
  pose proof (update_resample_copies predicted posterior w kl Hkl Hle) as Hrun.
  pose proof (cdf_ok_size _ Hok) as Hn. unfold size in Hn.
  set (w1 := set_belief posterior (heap w predicted) w) in *.
  assert (Hpost : heap w1 posterior = p) by apply heap_set_belief_same.
  assert (Hpred : heap w1 predicted = p).
  { destruct (Nat.eq_dec predicted posterior) as [->|Hne]; [exact Hpost|].
    unfold w1. now rewrite heap_set_belief_other. }
  unfold update. rewrite (bind_run _ _ _ _ _ Hrun).
  rewrite update_weights_spec.
  - rewrite Hpred, Hpost. eexists. split; [reflexivity|].
    rewrite heap_set_belief_same. split; [reflexivity|].
    eapply only_changes_trans; apply only_changes_set_belief.
  - rewrite Hpred, Hpost. fold p in Hs1. now rewrite Hs1.
  - rewrite Hpred. fold p in Hn. intros Hnil. rewrite Hnil in Hn.
    cbn in Hn. lia.
Qed.

(** Running [predict] first is running [predict_and_update] up to its
    second statement. *)
Lemma predict_and_update_run prior (input : Input) (observation : Obsrv)
    posterior w w1 :
  predict process_model_state prior input posterior w = Done (tt, w1) ->
  predict_and_update fresh process_model_state obsrv_model_log_probabilities
                     max_kl_divergence_ prior input observation posterior w
  = update fresh obsrv_model_log_probabilities max_kl_divergence_
           posterior observation posterior w1.
Proof.
  intros H. unfold predict_and_update.
  rewrite (bind_run _ _ _ _ _ H). reflexivity.
Qed.

(** C6: [predict] returns for every prior, input and target object; the
    predicted belief has the size, the normalised weights, the
    log-weights and the cumulative weights of the prior, and location [i]
    is the process model applied to the prior location [i], the [i]-th
    fresh noise draw and the input.  No other object changes. *)
Theorem predict_preserves_weights prior (input : Input) predicted w :
  exists w',
    predict process_model_state prior input predicted w = Done (tt, w') /\
    size (heap w' predicted) = size (heap w prior) /\
    prob_mass (heap w' predicted) = prob_mass (heap w prior) /\
    log_prob_mass (heap w' predicted) = log_prob_mass (heap w prior) /\
    cumul_distr_ (heap w' predicted) = cumul_distr_ (heap w prior) /\
    (forall i x,
       nth_error (locations (heap w prior)) i = Some x ->
       nth_error (locations (heap w' predicted)) i
       = Some (process_model_state x (noise_draws w (noise_used w + i)%nat)
                                   input)) /\
    (forall r, r <> predicted -> heap w' r = heap w r).
Proof.
  destruct (predict_spec prior input predicted w)
    as (w' & Hrun & Hheap & (Hframe & _) & _).
  exists w'. split; [exact Hrun|]. rewrite Hheap.
  unfold size, prob_mass, log_prob_mass, locations.
  cbn [assign_locations locations_ prob_mass_ log_prob_mass_ cumul_distr_].
  split; [apply propagated_length|].
  repeat split; auto.
  intros i x Hi. now apply propagated_nth_error.
Qed.

(** C8: for a count of at least one and draws of the unit interval,
    [from_distribution] returns; afterwards [this] has [count] equal
    weights [1/count] and [count] locations, the [k]-th being the
    inverse-CDF image of the [k]-th draw under the source as it was
    before the call.  Nothing is assumed about [this] and [distribution]
    being different objects. *)
Theorem from_distribution_uniform_resample (this distribution : ref)
    (count : Z) w :
  (1 <= count)%Z ->
  cdf_ok (heap w distribution) ->
  (forall k, (k < Z.to_nat count)%nat ->
     0 <= uniform_draws w (uniform_used w + k) < 1) ->
  exists w',
    from_distribution fresh this distribution count w = Done (tt, w') /\
    prob_mass (heap w' this)
    = repeat (1 / INR (Z.to_nat count)) (Z.to_nat count) /\
    size (heap w' this) = Z.to_nat count /\
    (forall k, (k < Z.to_nat count)%nat ->
       map_standard_uniform (uniform_draws w (uniform_used w + k))
                            (heap w distribution)
       = Done (nth k (locations (heap w' this)) fresh)) /\
    uniform_used w' = (uniform_used w + Z.to_nat count)%nat /\
    (forall r, r <> this -> heap w' r = heap w r).
Proof.
  intros Hcount Hok Hdraws.
  destruct (from_distribution_spec fresh this distribution count w)
    as (w' & Hrun & Hheap & (Hframe & _) & Hu & _); auto.
  { intros k Hk. specialize (Hdraws k Hk). lra. }
  exists w'. split; [exact Hrun|]. rewrite Hheap.
  unfold prob_mass, size, locations.
  cbn [assign_locations weighted locations_ prob_mass_].
  split; [apply softmax_Zero|].
  split; [apply resampled_length|].
  split; [|split; assumption].
  intros k Hk. rewrite resampled_nth by exact Hk.
  destruct (map_standard_uniform_unit fresh
              (uniform_draws w (uniform_used w + k)) (heap w distribution) Hok)
    as (i & _ & Hidx & Hmap).
  { specialize (Hdraws k Hk). lra. }
  now rewrite Hidx.
Qed.

(** Equal weights have the log-weight [- ln n]. *)
Lemma uniform_log_weights (n : nat) b :
  log_prob_mass_ (weighted fresh (Eigen.Zero n) b) = repeat (- ln (INR n)) n.
Proof.
  assert (Hsum : Eigen.sum (Eigen.exp (Eigen.Zero n)) = INR n).
  { unfold Eigen.exp, Eigen.Zero. induction n as [|n IH].
    - reflexivity.
    - cbn [repeat map Eigen.sum]. rewrite IH, exp_0, S_INR. ring. }
  cbn [weighted log_prob_mass_]. rewrite Hsum.
  unfold Eigen.sub_scalar, Eigen.Zero. rewrite map_repeat.
  f_equal. ring.
Qed.

(** The likelihood weighting from a state in which the posterior has
    as many log-weights and locations as the predicted object has
    locations. *)
Lemma update_weights_run predicted (obsrv : Obsrv) posterior w1 :
  length (log_prob_mass_ (heap w1 posterior))
  = length (locations_ (heap w1 predicted)) ->
  length (locations_ (heap w1 posterior))
  = length (locations_ (heap w1 predicted)) ->
  locations_ (heap w1 predicted) <> [] ->
  let v := Eigen.zip_with Rplus (log_prob_mass (heap w1 posterior))
             (obsrv_model_log_probabilities obsrv
                (locations (heap w1 predicted))) in
  exists w',
    update_weights fresh obsrv_model_log_probabilities
                   predicted obsrv posterior w1 = Done (tt, w') /\
    (forall r, r <> posterior -> heap w' r = heap w1 r) /\
    uniform_used w' = uniform_used w1 /\
    noise_used w' = noise_used w1 /\
    locations (heap w' posterior) = locations (heap w1 posterior) /\
    log_prob_mass (heap w' posterior)
    = Eigen.sub_scalar v (ln (Eigen.sum (Eigen.exp v))) /\
    prob_mass (heap w' posterior) = softmax v.
Proof.
  intros Hlen Hloc Hne v.
  rewrite (update_weights_spec predicted obsrv posterior w1 Hlen Hne).
  eexists. split; [reflexivity|].
  split; [intros r Hr; now apply heap_set_belief_other|].
  split; [reflexivity|]. split; [reflexivity|].
  rewrite heap_set_belief_same.
  unfold locations, log_prob_mass, prob_mass.
  cbn [weighted locations_ log_prob_mass_ prob_mass_].
  split; [|split; reflexivity].
  rewrite zip_with_length by (now rewrite log_probabilities_size).
  rewrite Hlen, <- Hloc. apply resize_same.
Qed.

(** C2: on a normalised predicted belief [p] of [n] particles, with draws
    of the unit interval and one log-likelihood per location.  The
    divergence [kl_given_uniform()] returns [ln n - entropy()], that is
    [ln n + sum_i log_prob_mass_i * prob_mass_i], and [update] returns:
    it is its conditional followed by the likelihood weighting.

    If the divergence exceeds the threshold, the conditional consumes
    [n] draws and leaves a posterior of [n] particles in which particle
    [k] is the one that draw [k] selects from [p] as it was at entry,
    every weight is [1/n] and every log-weight [- ln n].  Otherwise it
    consumes no draw and the posterior is [p] itself, locations, weights
    and table.  In both cases no other object changes, and the weighting
    adds to the log-weights that the conditional left in the posterior
    the log-likelihoods of the locations the predicted object holds at
    that moment, normalises, and keeps the posterior's locations. *)
Theorem update_resamples_iff_divergent predicted (obsrv : Obsrv) posterior w :
  normalized (heap w predicted) ->
  (forall k, (k < size (heap w predicted))%nat ->
     0 <= uniform_draws w (uniform_used w + k) < 1) ->
  let p := heap w predicted in
  let n := size p in
  let kl := ln (INR n)
            + Eigen.sum (Eigen.zip_with Rmult (log_prob_mass p) (prob_mass p)) in
  exists (h : R) w1 w',
    entropy p = Done h /\
    kl = ln (INR n) - h /\
    kl_given_uniform p = Done kl /\
    update_resample fresh max_kl_divergence_ predicted posterior w
    = Done (tt, w1) /\
    update_weights fresh obsrv_model_log_probabilities
                   predicted obsrv posterior w1
    = Done (tt, w') /\
    update fresh obsrv_model_log_probabilities max_kl_divergence_
           predicted obsrv posterior w
    = Done (tt, w') /\
    (kl > max_kl_divergence_ ->
       uniform_used w1 = (uniform_used w + n)%nat /\
       size (heap w1 posterior) = n /\
       prob_mass (heap w1 posterior) = repeat (1 / INR n) n /\
       log_prob_mass (heap w1 posterior) = repeat (- ln (INR n)) n /\
       (forall k, (k < n)%nat ->
          map_standard_uniform (uniform_draws w (uniform_used w + k)) p
          = Done (nth k (locations (heap w1 posterior)) fresh))) /\
    (~ kl > max_kl_divergence_ ->
       uniform_used w1 = uniform_used w /\
       heap w1 posterior = p) /\
    (forall r, r <> posterior -> heap w' r = heap w r) /\
    uniform_used w' = uniform_used w1 /\
    noise_used w' = noise_used w /\
    locations (heap w' posterior) = locations (heap w1 posterior) /\
    log_prob_mass (heap w' posterior)
    = Eigen.sub_scalar
        (Eigen.zip_with Rplus (log_prob_mass (heap w1 posterior))
           (obsrv_model_log_probabilities obsrv (locations (heap w1 predicted))))
        (ln (Eigen.sum
               (Eigen.exp
                  (Eigen.zip_with Rplus (log_prob_mass (heap w1 posterior))
                     (obsrv_model_log_probabilities obsrv
                        (locations (heap w1 predicted))))))) /\
    prob_mass (heap w' posterior)
    = softmax
        (Eigen.zip_with Rplus (log_prob_mass (heap w1 posterior))
           (obsrv_model_log_probabilities obsrv (locations (heap w1 predicted)))).
Proof.
  intros Hnorm Hdraws p n kl.
  pose proof Hnorm as [Hinv Hok].
  pose proof Hinv as [(Hs1 & Hs2 & Hs3) _].
  pose proof (cdf_ok_size _ Hok) as Hn. fold p in Hn, Hs1, Hs2. fold n in Hn.
  assert (Hent : entropy p
                 = Done (- Eigen.sum (Eigen.zip_with Rmult (log_prob_mass_ p)
                                        (prob_mass_ p)))).
  { unfold entropy, Eigen.cwiseProduct. now rewrite cwise_defined by exact Hs2. }
  assert (Hkl : kl_given_uniform p = Done kl).
  { unfold kl_given_uniform. rewrite Hent. cbn [obind]. f_equal.
    unfold kl, n, log_prob_mass, prob_mass. ring. }
  assert (Hnil : forall xs : list State, length xs = n -> xs <> []).
  { intros xs Hxs ->. cbn in Hxs. lia. }
  exists (- Eigen.sum (Eigen.zip_with Rmult (log_prob_mass_ p) (prob_mass_ p))).
  destruct (Rgt_dec kl max_kl_divergence_) as [Hgt|Hle].
  - destruct (update_resample_resamples predicted posterior w kl Hkl Hgt Hok)
      as (w1 & Hrun1 & Hheap & Hframe & Hu & Hnoise).
    { intros k Hk. specialize (Hdraws k Hk). lra. }
    fold p in Hheap. fold n in Hheap, Hu.
    assert (Hpost : length (locations_ (heap w1 posterior)) = n).
    { rewrite Hheap. cbn [assign_locations locations_]. apply resampled_length. }
    assert (Hpred : length (locations_ (heap w1 predicted)) = n).
    { destruct (Nat.eq_dec predicted posterior) as [->|Hne]; [exact Hpost|].
      now rewrite (proj1 Hframe predicted Hne). }
    assert (Hlog : log_prob_mass_ (heap w1 posterior) = repeat (- ln (INR n)) n).
    { rewrite Hheap. apply uniform_log_weights. }
    destruct (update_weights_run predicted obsrv posterior w1)
      as (w' & Hrun2 & Hframe2 & Hu2 & Hnoise2 & Hloc2 & Hlog2 & Hprob2).
    { now rewrite Hlog, repeat_length, Hpred. }
    { now rewrite Hpost, Hpred. }
    { apply Hnil. exact Hpred. }
    exists w1, w'. split; [exact Hent|].
    split; [unfold kl, log_prob_mass, prob_mass; ring|].
    split; [exact Hkl|]. split; [exact Hrun1|]. split; [exact Hrun2|].
    split; [unfold update; now rewrite (bind_run _ _ _ _ _ Hrun1)|].
    split; [|split; [intros Hn'; contradiction|]].
    + intros _. split; [exact Hu|]. split; [exact Hpost|].
      split; [unfold prob_mass; rewrite Hheap; apply softmax_Zero|].
      split; [exact Hlog|].
      intros k Hk. unfold locations. rewrite Hheap.
      cbn [assign_locations locations_]. rewrite resampled_nth by exact Hk.
      destruct (map_standard_uniform_unit fresh
                  (uniform_draws w (uniform_used w + k)) p Hok)
        as (i & _ & Hidx & Hmap).
      { specialize (Hdraws k Hk). lra. }
      now rewrite Hidx.
    + split; [intros r Hr; rewrite (Hframe2 r Hr); now apply Hframe|].
      split; [exact Hu2|]. split; [now rewrite Hnoise2|].
      split; [exact Hloc2|]. split; [exact Hlog2|exact Hprob2].
  - pose proof (update_resample_copies predicted posterior w kl Hkl Hle) as Hrun1.
    set (w1 := set_belief posterior (heap w predicted) w) in *.
    assert (Hpost : heap w1 posterior = p) by apply heap_set_belief_same.
    assert (Hpred : heap w1 predicted = p).
    { destruct (Nat.eq_dec predicted posterior) as [->|Hne]; [exact Hpost|].
      unfold w1. now rewrite heap_set_belief_other. }
    destruct (update_weights_run predicted obsrv posterior w1)
      as (w' & Hrun2 & Hframe2 & Hu2 & Hnoise2 & Hloc2 & Hlog2 & Hprob2).
    { rewrite Hpost, Hpred. now rewrite Hs1. }
    { now rewrite Hpost, Hpred. }
    { rewrite Hpred. apply Hnil. reflexivity. }
    exists w1, w'. split; [exact Hent|].
    split; [unfold kl, log_prob_mass, prob_mass; ring|].
    split; [exact Hkl|]. split; [exact Hrun1|]. split; [exact Hrun2|].
    split; [unfold update; now rewrite (bind_run _ _ _ _ _ Hrun1)|].
    split; [intros Hgt; contradiction|].
    split; [intros _; split; [reflexivity|exact Hpost]|].
    split; [intros r Hr; rewrite (Hframe2 r Hr); unfold w1;
            now apply heap_set_belief_other|].
    split; [exact Hu2|]. split; [exact Hnoise2|].
    split; [exact Hloc2|]. split; [exact Hlog2|exact Hprob2].
Qed.

End FilterFacts.

(** ** The concrete filter *)

Section ScenarioFacts.

Import Scenario.

(** The three operations of the filter built from the models of the
    scenario, with the default threshold. *)
Local Notation "'filter_predict'" :=
  (@predict R R R additive_state) (only parsing).
Local Notation "'filter_update'" :=
  (@update R R R 0 gaussian_log_probabilities default_max_kl_divergence)
  (only parsing).
Local Notation "'filter_predict_and_update'" :=
  (@predict_and_update R R R R 0 additive_state gaussian_log_probabilities
                       default_max_kl_divergence) (only parsing).

(** The divergence of the weights [softmax v] from the uniform ones, in
    closed form. *)
Lemma sum_log_times_softmax_gen (v : list R) (c s : R) :
  Eigen.sum (Eigen.zip_with Rmult (Eigen.sub_scalar v c)
               (map (fun x => Rtrigo_def.exp x / s) v))
  = Eigen.sum (Eigen.zip_with Rmult v (Eigen.exp v)) / s
    - c * (Eigen.sum (Eigen.exp v) / s).
Proof.
  unfold Eigen.sub_scalar, Eigen.exp.
  induction v as [|x v IH]; cbn [map Eigen.zip_with Eigen.sum].
  - unfold Rdiv. ring.
  - rewrite IH. unfold Rdiv. ring.
Qed.

Lemma sum_log_times_softmax (v : list R) (c : R) :
  v <> [] ->
  Eigen.sum (Eigen.zip_with Rmult (Eigen.sub_scalar v c) (softmax v))
  = Eigen.sum (Eigen.zip_with Rmult v (Eigen.exp v)) / Eigen.sum (Eigen.exp v)
    - c.
Proof.
  intros Hv. pose proof (sum_exp_pos v Hv) as Hpos.
  unfold softmax. rewrite sum_log_times_softmax_gen. field. lra.
Qed.

(** Different log-weights have different normalised weights. *)
Lemma softmax_nth_eq (v : list R) (i j : nat) :
  (i < length v)%nat -> (j < length v)%nat ->
  nth i (softmax v) 0 = nth j (softmax v) 0 ->
  nth i v 0 = nth j v 0.
Proof.
  intros Hi Hj.
  assert (Hv : v <> []) by (destruct v; [cbn in Hi; lia|discriminate]).
  pose proof (sum_exp_pos v Hv) as Hpos.
  assert (Hnth : forall k, (k < length v)%nat ->
            nth k (softmax v) 0
            = Rtrigo_def.exp (nth k v 0) / Eigen.sum (Eigen.exp v)).
  { intros k Hk. unfold softmax.
    rewrite (nth_indep _ 0 (Rtrigo_def.exp 0 / Eigen.sum (Eigen.exp v)))
      by (now rewrite length_map).
    now rewrite (map_nth (fun x => Rtrigo_def.exp x / Eigen.sum (Eigen.exp v))). }
  rewrite !Hnth by assumption. intros Heq.
  apply exp_inv. unfold Rdiv in Heq.
  apply Rmult_eq_reg_r in Heq; [exact Heq|].
  apply Rinv_neq_0_compat. lra.
Qed.

Lemma ln_3_ge_1 : 1 <= ln 3.
Proof.
  rewrite <- (ln_exp 1) at 1.
  destruct exp_le_3 as [Hlt|Heq].
  - left. apply ln_increasing; [apply exp_pos|exact Hlt].
  - rewrite Heq. lra.
Qed.

Lemma ln_1_plus_lt (x : R) : 0 < x -> ln (1 + x) < x.
Proof.
  intros Hx. rewrite <- (ln_exp x) at 2.
  apply ln_increasing; [lra|]. apply exp_ineq1. lra.
Qed.

Lemma concentrated_sum_exp : Eigen.sum (Eigen.exp concentrated_log_mass) = 89.
Proof.
  unfold concentrated_log_mass, Eigen.exp. cbn [map Eigen.sum].
  rewrite exp_ln by lra. rewrite exp_0. lra.
Qed.

Lemma concentrated_normalized : normalized concentrated.
Proof.
  unfold concentrated. apply assign_locations_normalized.
  - cbn [weighted locations_]. now rewrite resize_length.
  - apply weighted_normalized. discriminate.
Qed.

(** The first particle alone covers the draw 1/2. *)
Lemma concentrated_first_cumul : nth 0 (cumul_distr_ concentrated) 0 = 81 / 89.
Proof.
  unfold concentrated. cbn [assign_locations weighted cumul_distr_].
  unfold softmax. rewrite concentrated_sum_exp.
  unfold concentrated_log_mass. cbn [map nth].
  rewrite exp_ln by lra. reflexivity.
Qed.

Lemma concentrated_lookup_half :
  lower_bound (cumul_distr_ concentrated) (1 / 2) = 0%nat.
Proof.
  destruct concentrated_normalized as [_ Hok].
  destruct (cdf_ok_aligned _ Hok) as (_ & _ & Hmono).
  apply lower_bound_unique; auto; try lia.
  intros i Hi. apply Rle_trans with (nth 0 (cumul_distr_ concentrated) 0).
  - rewrite concentrated_first_cumul. lra.
  - apply Hmono. lia.
Qed.

(** The divergence of the concentrated belief is above the default
    threshold. *)
Lemma concentrated_divergence :
  exists kl, kl_given_uniform concentrated = Done kl /\ kl > 1.
Proof.
  destruct concentrated_normalized as [[Hs _] _].
  rewrite (kl_given_uniform_defined _ Hs).
  eexists. split; [reflexivity|].
  unfold concentrated. cbn [assign_locations weighted log_prob_mass_ prob_mass_].
  rewrite sum_log_times_softmax by discriminate.
  rewrite concentrated_sum_exp.
  change (size _) with 9%nat.
  replace (INR 9) with 9 by (simpl; lra).
  assert (Hdot : Eigen.sum (Eigen.zip_with Rmult concentrated_log_mass
                              (Eigen.exp concentrated_log_mass))
                 = 81 * ln 81).
  { unfold concentrated_log_mass, Eigen.exp.
    cbn [map Eigen.zip_with Eigen.sum].
    rewrite exp_ln by lra. rewrite exp_0. ring. }
  rewrite Hdot.
  assert (H9 : ln 9 = 2 * ln 3).
  { replace 9 with (3 * 3) by lra. rewrite ln_mult by lra. ring. }
  assert (H81 : ln 81 = 4 * ln 3).
  { replace 81 with (9 * 9) by lra. rewrite ln_mult by lra. rewrite H9. ring. }
  assert (H89 : ln 89 < 4 * ln 3 + 8 / 81).
  { replace 89 with (81 * (1 + 8 / 81)) by lra.
    rewrite ln_mult by lra. rewrite H81.
    pose proof (ln_1_plus_lt (8 / 81) ltac:(lra)). lra. }
  rewrite H9, H81. pose proof ln_3_ge_1. lra.
Qed.

Lemma sum_exp_Zero (n : nat) : Eigen.sum (Eigen.exp (Eigen.Zero n)) = INR n.
Proof.
  unfold Eigen.exp, Eigen.Zero. induction n as [|n IH].
  - reflexivity.
  - cbn [repeat map Eigen.sum]. rewrite IH, exp_0, S_INR. ring.
Qed.

(** Adding a vector to equal log-weights shifts it by a constant. *)
Lemma add_to_uniform_log (c : R) (ll : list R) :
  Eigen.zip_with Rplus (Eigen.sub_scalar (Eigen.Zero (length ll)) c) ll
  = map (fun l => l - c) ll.
Proof.
  unfold Eigen.sub_scalar, Eigen.Zero.
  induction ll as [|l ll IH]; [reflexivity|].
  cbn [length repeat map Eigen.zip_with]. rewrite IH. f_equal. ring.
Qed.

Lemma kl_given_uniform_assign_locations (xs : list R) (b : DiscreteDistribution R) :
  length xs = size b ->
  kl_given_uniform (assign_locations xs b) = kl_given_uniform b.
Proof.
  intros Hlen. unfold kl_given_uniform, entropy, size in *.
  cbn [assign_locations locations_ log_prob_mass_ prob_mass_].
  now rewrite Hlen.
Qed.

Lemma gaussian_log_probabilities_size (y : R) (xs : list R) :
  length (gaussian_log_probabilities y xs) = length xs.
Proof. apply length_map. Qed.

(** One [update] of the concrete filter on the concentrated weights,
    with the observation 0 and every draw 1/2: it resamples, every new
    particle is a copy of the first one, and the log-likelihoods that
    enter the weights are those of [scored]. *)
Lemma concentrated_update (predicted posterior : ref) (w : @world R R)
    (xs : list R) :
  heap w predicted = assign_locations xs concentrated ->
  length xs = 9%nat ->
  uniform_draws w = (fun _ => 1 / 2) ->
  let scored :=
    if Nat.eqb predicted posterior then repeat (nth 0 xs 0) 9 else xs in
  exists w',
    filter_update predicted 0 posterior w = Done (tt, w') /\
    locations (heap w' posterior) = repeat (nth 0 xs 0) 9 /\
    prob_mass (heap w' posterior)
    = softmax (map (fun l => l - ln 9) (gaussian_log_probabilities 0 scored)).
Proof.
  intros Hheap Hlen Hdraws scored.
  assert (Hnorm : normalized (heap w predicted)).
  { rewrite Hheap. apply assign_locations_normalized.
    - rewrite Hlen. reflexivity.
    - apply concentrated_normalized. }
  assert (Hsize : size (heap w predicted) = 9%nat)
    by (rewrite Hheap; exact Hlen).
  destruct concentrated_divergence as (kl & Hkl & Hgt).
  assert (Hkl' : kl_given_uniform (heap w predicted) = Done kl).
  { rewrite Hheap, kl_given_uniform_assign_locations; [exact Hkl|].
    rewrite Hlen. reflexivity. }
  destruct (update_resampling_spec 0 gaussian_log_probabilities
              default_max_kl_divergence gaussian_log_probabilities_size
              predicted 0 posterior w kl Hkl' Hgt (proj2 Hnorm))
    as (w' & Hrun & Hpost & Hlocs & _).
  { intros k _. rewrite Hdraws. lra. }
  assert (Hnew : resampled 0 (heap w predicted) (uniform_draws w)
                   (uniform_used w) (size (heap w predicted))
                 = repeat (nth 0 xs 0) 9).
  { rewrite Hsize, Hdraws, Hheap.
    apply (resampled_constant 0 (assign_locations xs concentrated)
             (fun _ => 1 / 2) 0 9).
    intros k _. exact concentrated_lookup_half. }
  rewrite Hnew in Hpost, Hlocs.
  exists w'. split; [exact Hrun|]. split; [exact Hlocs|].
  rewrite Hpost. unfold prob_mass.
  cbn [weighted assign_locations prob_mass_ log_prob_mass_].
  f_equal.
  assert (Hscored : (if Nat.eqb predicted posterior
                     then repeat (nth 0 xs 0) 9
                     else locations_ (heap w predicted)) = scored).
  { unfold scored. destruct (Nat.eqb predicted posterior); [reflexivity|].
    now rewrite Hheap. }
  rewrite Hscored, Hsize.
  assert (H9 : length (gaussian_log_probabilities 0 scored) = 9%nat).
  { rewrite gaussian_log_probabilities_size. unfold scored.
    destruct (Nat.eqb predicted posterior); [apply repeat_length|exact Hlen]. }
  rewrite sum_exp_Zero.
  replace (INR 9) with 9 by (simpl; lra).
  rewrite <- H9 at 1. apply add_to_uniform_log.
Qed.

(** C1, on the concrete filter with distinct predicted and posterior
    objects: the update resamples, all nine posterior particles are
    copies of the particle at 0, and yet their weights are the softmax of
    the log-likelihoods of the predicted locations 0, 1, ..., 1, so the
    first two weights differ although the two particles coincide. *)
Theorem update_scores_predicted_locations :
  exists w',
    filter_update 0%nat 0 1%nat start = Done (tt, w') /\
    locations (heap w' 1%nat) = repeat 0 9 /\
    prob_mass (heap w' 1%nat)
    = softmax (map (fun l => l - ln 9)
                   (gaussian_log_probabilities 0 particle_locations)) /\
    prob_mass (heap w' 1%nat)
    <> softmax (map (fun l => l - ln 9)
                    (gaussian_log_probabilities 0 (locations (heap w' 1%nat)))) /\
    nth 0 (prob_mass (heap w' 1%nat)) 0 <> nth 1 (prob_mass (heap w' 1%nat)) 0.
Proof.
  destruct (concentrated_update 0%nat 1%nat start particle_locations)
    as (w' & Hrun & Hlocs & Hprob); try reflexivity.
  cbn [Nat.eqb] in Hprob. cbn [particle_locations nth] in Hlocs.
  exists w'. split; [exact Hrun|]. split; [exact Hlocs|].
  split; [exact Hprob|].
  assert (Hne : nth 0 (prob_mass (heap w' 1%nat)) 0
                <> nth 1 (prob_mass (heap w' 1%nat)) 0).
  { rewrite Hprob. intros Heq. apply softmax_nth_eq in Heq.
    - cbn in Heq. lra.
    - cbn. lia.
    - cbn. lia. }
  split; [|exact Hne].
  intros Heq. apply Hne. rewrite Heq, Hlocs. reflexivity.
Qed.

(** [predict] of the concrete filter from the concentrated prior, with
    input 0 and noise 0, into any object. *)
Lemma concentrated_predict (predicted : ref) :
  exists w1,
    filter_predict 0%nat 0 predicted start = Done (tt, w1) /\
    heap w1 predicted
    = assign_locations
        moved_locations concentrated /\
    uniform_draws w1 = (fun _ => 1 / 2).
Proof.
  destruct (predict_spec additive_state 0%nat 0 predicted start)
    as (w1 & Hrun & Hheap & (_ & Hu & _) & _).
  exists w1. split; [exact Hrun|]. split; [exact Hheap|exact Hu].
Qed.

Lemma moved_locations_length : length moved_locations = 9%nat.
Proof. reflexivity. Qed.

(** The fused step: prediction into the posterior object, then update
    of that object in place. *)
Lemma concentrated_fused :
  exists wA,
    filter_predict_and_update 0%nat 0 0 1%nat start = Done (tt, wA) /\
    locations (heap wA 1%nat) = repeat (nth 0 moved_locations 0) 9 /\
    prob_mass (heap wA 1%nat)
    = softmax (map (fun l => l - ln 9)
                   (gaussian_log_probabilities 0
                      (repeat (nth 0 moved_locations 0) 9))).
Proof.
  destruct (concentrated_predict 1%nat) as (w0 & Hpred0 & Hheap0 & Hdraws0).
  destruct (concentrated_update 1%nat 1%nat w0 moved_locations Hheap0
              moved_locations_length Hdraws0)
    as (wA & HrunA & HlocsA & HprobA).
  exists wA. split; [|split; [exact HlocsA|exact HprobA]].
  rewrite (predict_and_update_run 0 additive_state gaussian_log_probabilities
             default_max_kl_divergence _ _ 0 _ _ _ Hpred0).
  exact HrunA.
Qed.

(** The two steps on distinct objects. *)
Lemma concentrated_two_steps :
  exists w1 wB,
    filter_predict 0%nat 0 2%nat start = Done (tt, w1) /\
    filter_update 2%nat 0 1%nat w1 = Done (tt, wB) /\
    locations (heap wB 1%nat) = repeat (nth 0 moved_locations 0) 9 /\
    prob_mass (heap wB 1%nat)
    = softmax (map (fun l => l - ln 9)
                   (gaussian_log_probabilities 0 moved_locations)).
Proof.
  destruct (concentrated_predict 2%nat) as (w1 & Hpred1 & Hheap1 & Hdraws1).
  destruct (concentrated_update 2%nat 1%nat w1 moved_locations Hheap1
              moved_locations_length Hdraws1)
    as (wB & HrunB & HlocsB & HprobB).
  exists w1, wB. auto.
Qed.

(** C7, on the concrete filter: from one prior and with the same draws,
    [predict_and_update] and [predict] followed by [update] on distinct
    objects both return and leave the same locations, but the first
    leaves equal weights on the first two particles and the second does
    not; the two posteriors differ. *)
Theorem predict_and_update_differs_from_composition :
  exists wA w1 wB,
    filter_predict_and_update 0%nat 0 0 1%nat start = Done (tt, wA) /\
    filter_predict 0%nat 0 2%nat start = Done (tt, w1) /\
    filter_update 2%nat 0 1%nat w1 = Done (tt, wB) /\
    locations (heap wA 1%nat) = locations (heap wB 1%nat) /\
    nth 0 (prob_mass (heap wA 1%nat)) 0 = nth 1 (prob_mass (heap wA 1%nat)) 0 /\
    nth 0 (prob_mass (heap wB 1%nat)) 0 <> nth 1 (prob_mass (heap wB 1%nat)) 0 /\
    heap wA 1%nat <> heap wB 1%nat.
Proof.
  destruct concentrated_fused as (wA & HrunA & HlocsA & HprobA).
  destruct concentrated_two_steps as (w1 & wB & Hpred1 & HrunB & HlocsB & HprobB).
  exists wA, w1, wB.
  split; [exact HrunA|]. split; [exact Hpred1|]. split; [exact HrunB|].
  split; [now rewrite HlocsA, HlocsB|].
  assert (HA : nth 0 (prob_mass (heap wA 1%nat)) 0
               = nth 1 (prob_mass (heap wA 1%nat)) 0).
  { rewrite HprobA. unfold softmax.
    cbn [repeat gaussian_log_probabilities map nth]. reflexivity. }
  assert (HB : nth 0 (prob_mass (heap wB 1%nat)) 0
               <> nth 1 (prob_mass (heap wB 1%nat)) 0).
  { rewrite HprobB. intros Heq. apply softmax_nth_eq in Heq.
    - cbn in Heq. unfold additive_state in Heq. lra.
    - cbn. lia.
    - cbn. lia. }
  split; [exact HA|]. split; [exact HB|].
  intros Heq. apply HB. rewrite <- Heq. exact HA.
Qed.

End ScenarioFacts.

(** ** The statements at explicit inputs *)

Section Instances.

Import Scenario.

(** C3, as stated, at the empty vector: the call does not raise. *)
Lemma log_unnormalized_prob_mass_empty_not_raised :
  log_unnormalized_prob_mass 0 [] single = Undefined /\
  ~ raises (log_unnormalized_prob_mass 0 [] single).
Proof.
  split; [reflexivity|]. intros [e He]. discriminate He.
Qed.

Lemma log_unnormalized_prob_mass_softmax_witness :
  [0; 0] <> ([] : list R) /\
  exists d',
    log_unnormalized_prob_mass 0 [0; 0] single = Done d' /\
    Eigen.sum (prob_mass d') = 1.
Proof.
  assert (H : [0; 0] <> ([] : list R)) by discriminate.
  split; [exact H|].
  destruct (log_unnormalized_prob_mass_softmax 0 [0; 0] single H)
    as (d' & Hrun & _ & _ & _ & Hsum & _).
  exists d'. split; assumption.
Defined.




(** The table that rounding leaves short of one is in order. *)
Lemma seven_aligned : aligned Binary64.seven.
Proof.
  split; [reflexivity|]. split; [discriminate|].
  intros i j Hij. cbn [Binary64.seven cumul_distr_ length] in *.
  do 7 (destruct i as [|i];
        [do 7 (destruct j as [|j]; [cbn [nth]; try lra; lia|]); lia|]).
  lia.
Qed.



Lemma pair_set : log_unnormalized_prob_mass 0 [0; 0] single = Done pair.
Proof. apply log_unnormalized_prob_mass_eq. discriminate. Qed.

Lemma map_standard_uniform_in_range_witness :
  aligned pair /\
  log_unnormalized_prob_mass 0 [0; 0] single = Done pair /\
  last (cumul_distr_ pair) 0 = 1 /\
  returns (map_standard_uniform (1 / 2) pair).
Proof.
  assert (H1 : aligned pair).
  { apply normalized_aligned, weighted_normalized. discriminate. }
  split; [exact H1|]. split; [exact pair_set|].
  destruct (map_standard_uniform_in_range 0 (1 / 2) pair H1)
    as (_ & _ & _ & _ & Hset).
  destruct (Hset [0; 0] single pair_set) as (Hlast & Hin).
  split; [exact Hlast|]. apply Hin. lra.
Defined.

Lemma concentrated_draws (k : nat) :
  0 <= uniform_draws start (uniform_used start + k) < 1.
Proof. cbn [start uniform_draws]. lra. Qed.

Lemma from_distribution_uniform_resample_witness :
  (1 <= 9)%Z /\
  cdf_ok (heap start 0%nat) /\
  exists w',
    from_distribution 0 0%nat 0%nat 9 start = Done (tt, w') /\
    prob_mass (heap w' 0%nat) = repeat (1 / INR (Z.to_nat 9)) (Z.to_nat 9) /\
    size (heap w' 0%nat) = Z.to_nat 9.
Proof.
  assert (H1 : (1 <= 9)%Z) by lia.
  assert (H2 : cdf_ok (heap start 0%nat)) by apply concentrated_normalized.
  split; [exact H1|]. split; [exact H2|].
  destruct (from_distribution_uniform_resample 0 0%nat 0%nat 9 start H1 H2
              (fun k _ => concentrated_draws k))
    as (w' & Hrun & Hprob & Hsize & _).
  exists w'. repeat split; assumption.
Defined.

Lemma Done_injective {A : Type} (a b : A) : Done a = Done b -> a = b.
Proof. intros H. injection H. auto. Qed.

Lemma update_resamples_iff_divergent_witness :
  normalized (heap start 0%nat) /\
  exists (kl : R) w1 w',
    kl_given_uniform (heap start 0%nat) = Done kl /\
    kl > default_max_kl_divergence /\
    update_resample 0 default_max_kl_divergence 0%nat 1%nat start
    = Done (tt, w1) /\
    uniform_used w1 = (uniform_used start + size (heap start 0%nat))%nat /\
    prob_mass (heap w1 1%nat)
    = repeat (1 / INR (size (heap start 0%nat))) (size (heap start 0%nat)) /\
    @update R R R 0 gaussian_log_probabilities default_max_kl_divergence
            0%nat 0 1%nat start
    = Done (tt, w').
Proof.
  assert (H1 : normalized (heap start 0%nat)) by apply concentrated_normalized.
  split; [exact H1|].
  pose proof (update_resamples_iff_divergent 0 gaussian_log_probabilities
                default_max_kl_divergence gaussian_log_probabilities_size
                0%nat 0 1%nat start H1 (fun k _ => concentrated_draws k)) as Hrun.
  cbv zeta in Hrun.
  destruct Hrun as (h & w1 & w' & _ & _ & Hkl & Hrun1 & _ & Hrun & Hres & _).
  destruct concentrated_divergence as (kl0 & Hkl0 & Hgt0).
  assert (Hgt : ln (INR (size (heap start 0%nat)))
                + Eigen.sum (Eigen.zip_with Rmult
                               (log_prob_mass (heap start 0%nat))
                               (prob_mass (heap start 0%nat)))
                > default_max_kl_divergence).
  { pose proof (Done_injective _ _ (eq_trans (eq_sym Hkl0) Hkl)) as Heq.
    exact (eq_ind kl0 (fun x => x > default_max_kl_divergence) Hgt0 _ Heq). }
  destruct (Hres Hgt) as (Hu & _ & Hprob & _).
  eexists _, w1, w'. split; [exact Hkl|]. split; [exact Hgt|].
  split; [exact Hrun1|]. split; [exact Hu|]. split; [exact Hprob|exact Hrun].
Defined.

End Instances.

(** * Further properties *)

(** ** Laws of the weights *)

Section WeightLaws.

Context {Variate : Type}.
Variable fresh : Variate.
Implicit Type d : DiscreteDistribution Variate.

Lemma softmax_as_div (u : list R) :
  softmax u = Eigen.div_scalar (Eigen.exp u) (Eigen.sum (Eigen.exp u)).
Proof.
  unfold softmax, Eigen.div_scalar, Eigen.exp.
  now rewrite map_map.
Qed.

Lemma resize_fits (xs : list Variate) (n : nat) :
  length xs = n -> Eigen.resize fresh xs n = xs.
Proof. intros H. unfold Eigen.resize. now rewrite H, Nat.eqb_refl. Qed.

Lemma resize_twice (xs : list Variate) (n : nat) :
  Eigen.resize fresh (Eigen.resize fresh xs n) n = Eigen.resize fresh xs n.
Proof. apply resize_fits, resize_length. Qed.

(** Only the length of the previous log-weights matters. *)
Lemma weighted_weighted (u v : list R) d :
  length u = length v ->
  weighted fresh v (weighted fresh u d) = weighted fresh v d.
Proof.
  intros H. unfold weighted at 1 3. cbn [weighted locations_].
  rewrite H, resize_twice. reflexivity.
Qed.

(** Subtracting a constant from the log-masses changes nothing. *)
Lemma weighted_sub_scalar (v : list R) (c : R) d :
  weighted fresh (Eigen.sub_scalar v c) d = weighted fresh v d.
Proof.
  destruct v as [|x v]; [reflexivity|].
  assert (Hv : x :: v <> []) by discriminate.
  assert (Hs : softmax (Eigen.sub_scalar (x :: v) c) = softmax (x :: v)).
  { rewrite softmax_as_div. now apply normalize_rescaled. }
  unfold weighted. rewrite Hs, (log_rescaled (x :: v) c Hv).
  unfold Eigen.sub_scalar at 1. rewrite length_map. reflexivity.
Qed.

Lemma weighted_fixed (v : list R) d :
  weighted fresh (log_prob_mass_ (weighted fresh v d)) (weighted fresh v d)
  = weighted fresh v d.
Proof.
  change (log_prob_mass_ (weighted fresh v d))
    with (Eigen.sub_scalar v (ln (Eigen.sum (Eigen.exp v)))).
  rewrite weighted_sub_scalar. now apply weighted_weighted.
Qed.

Lemma zip_with_Zero_r (l : list R) :
  Eigen.zip_with Rplus l (Eigen.Zero (length l)) = l.
Proof.
  unfold Eigen.Zero. induction l as [|x l IH]; [reflexivity|].
  cbn [length repeat Eigen.zip_with]. rewrite IH. f_equal. ring.
Qed.

Lemma done_is_weighted (v : list R) d d' :
  log_unnormalized_prob_mass fresh v d = Done d' ->
  v <> [] /\ d' = weighted fresh v d.
Proof.
  destruct v as [|x v]; [discriminate|].
  rewrite log_unnormalized_prob_mass_eq by discriminate.
  intros [= <-]. split; [discriminate|reflexivity].
Qed.

Lemma weighted_size (v : list R) d : size (weighted fresh v d) = length v.
Proof. unfold size. cbn [weighted locations_]. apply resize_length. Qed.

Lemma weighted_log_length (v : list R) d :
  length (log_prob_mass_ (weighted fresh v d)) = length v.
Proof. cbn [weighted log_prob_mass_]. unfold Eigen.sub_scalar. apply length_map. Qed.

(** X1: the log-masses given to [log_unnormalized_prob_mass] matter only
    up to a common additive constant: adding [c] to every entry leads to
    the same outcome, state for state. *)
Theorem log_unnormalized_prob_mass_shift_invariant (v : list R) (c : R) d :
  log_unnormalized_prob_mass fresh (map (fun x => x + c) v) d
  = log_unnormalized_prob_mass fresh v d.
Proof.
  destruct v as [|x v]; [reflexivity|].
  rewrite (log_unnormalized_prob_mass_eq fresh (x :: v)) by discriminate.
  rewrite log_unnormalized_prob_mass_eq by discriminate.
  f_equal. rewrite <- (weighted_sub_scalar (x :: v) (- c)).
  f_equal. unfold Eigen.sub_scalar. apply map_ext. intros y. ring.
Qed.

(** X2: the normalised log-weights are a fixed point: giving a
    distribution its own [log_prob_mass()] back, or adding a zero delta,
    returns and leaves every member as it is. *)
Theorem log_unnormalized_prob_mass_fixed_point (v : list R) d d' :
  log_unnormalized_prob_mass fresh v d = Done d' ->
  log_unnormalized_prob_mass fresh (log_prob_mass d') d' = Done d' /\
  delta_log_prob_mass fresh (Eigen.Zero (size d')) d' = Done d'.
Proof.
  intros Hrun. destruct (done_is_weighted v d d' Hrun) as [Hv ->].
  assert (Hne : log_prob_mass_ (weighted fresh v d) <> []).
  { intros Hnil. apply (f_equal (@length R)) in Hnil.
    rewrite weighted_log_length in Hnil. destruct v; [congruence|discriminate]. }
  assert (Hfix : log_unnormalized_prob_mass fresh
                   (log_prob_mass (weighted fresh v d)) (weighted fresh v d)
                 = Done (weighted fresh v d)).
  { unfold log_prob_mass. rewrite log_unnormalized_prob_mass_eq by exact Hne.
    now rewrite weighted_fixed. }
  split; [exact Hfix|].
  unfold delta_log_prob_mass, Eigen.add.
  rewrite weighted_size, <- (weighted_log_length v d).
  rewrite cwise_defined by (now rewrite Zero_length).
  cbn [obind]. rewrite zip_with_Zero_r. exact Hfix.
Qed.

Lemma zip_with_sub_scalar_l (l b : list R) (c : R) :
  Eigen.zip_with Rplus (Eigen.sub_scalar l c) b
  = Eigen.sub_scalar (Eigen.zip_with Rplus l b) c.
Proof.
  unfold Eigen.sub_scalar. revert b.
  induction l as [|x l IH]; intros [|y b]; try reflexivity.
  cbn [map Eigen.zip_with]. rewrite IH. f_equal. ring.
Qed.

Lemma zip_with_Rplus_assoc (l a b : list R) :
  Eigen.zip_with Rplus (Eigen.zip_with Rplus l a) b
  = Eigen.zip_with Rplus l (Eigen.zip_with Rplus a b).
Proof.
  revert a b. induction l as [|x l IH]; intros [|y a] [|z b]; try reflexivity.
  cbn [Eigen.zip_with]. rewrite IH. f_equal. ring.
Qed.

Lemma cwise_done (f : R -> R -> R) (a b r : list R) :
  Eigen.cwise f a b = Done r ->
  length a = length b /\ r = Eigen.zip_with f a b.
Proof.
  unfold Eigen.cwise. destruct (Nat.eqb_spec (length a) (length b)); [|discriminate].
  intros [= <-]. auto.
Qed.

Lemma delta_done (delta : list R) d d' :
  delta_log_prob_mass fresh delta d = Done d' ->
  length (log_prob_mass_ d) = length delta /\
  delta <> [] /\
  d' = weighted fresh (Eigen.zip_with Rplus (log_prob_mass_ d) delta) d.
Proof.
  unfold delta_log_prob_mass, Eigen.add.
  destruct (Eigen.cwise Rplus (log_prob_mass_ d) delta) as [v| |] eqn:Hc;
    cbn [obind]; try discriminate.
  destruct (cwise_done _ _ _ _ Hc) as [Hlen ->]. intros Hrun.
  destruct (done_is_weighted _ _ _ Hrun) as [Hne ->].
  repeat split; auto. intros ->. apply Hne.
  destruct (log_prob_mass_ d); [reflexivity|discriminate].
Qed.

(** X3: two successive weight updates are one update by the sum of the
    two deltas. *)
Theorem delta_log_prob_mass_composes (a b : list R) d d1 d2 :
  delta_log_prob_mass fresh a d = Done d1 ->
  delta_log_prob_mass fresh b d1 = Done d2 ->
  Eigen.add a b = Done (Eigen.zip_with Rplus a b) /\
  delta_log_prob_mass fresh (Eigen.zip_with Rplus a b) d = Done d2.
Proof.
  intros H1 H2.
  destruct (delta_done a d d1 H1) as (Hla & Hna & ->).
  destruct (delta_done b _ d2 H2) as (Hlb & Hnb & ->).
  rewrite weighted_log_length in Hlb.
  rewrite zip_with_length in Hlb by exact Hla.
  assert (Hab : length a = length b) by congruence.
  split; [now apply cwise_defined|].
  unfold delta_log_prob_mass, Eigen.add.
  rewrite cwise_defined
    by (rewrite zip_with_length by exact Hab; exact Hla).
  cbn [obind].
  rewrite log_unnormalized_prob_mass_eq.
  - f_equal. symmetry.
    change (log_prob_mass_
              (weighted fresh (Eigen.zip_with Rplus (log_prob_mass_ d) a) d))
      with (Eigen.sub_scalar (Eigen.zip_with Rplus (log_prob_mass_ d) a)
              (ln (Eigen.sum
                     (Eigen.exp (Eigen.zip_with Rplus (log_prob_mass_ d) a))))).
    rewrite zip_with_sub_scalar_l, weighted_sub_scalar, zip_with_Rplus_assoc.
    apply weighted_weighted.
    rewrite !zip_with_length; auto.
    rewrite zip_with_length; auto.
  - intros Hnil. apply (f_equal (@length R)) in Hnil.
    rewrite zip_with_length in Hnil
      by (rewrite zip_with_length by exact Hab; exact Hla).
    rewrite Hla in Hnil. destruct a; [congruence|discriminate].
Qed.

End WeightLaws.

(** ** Reweighting, entropy and divergence *)

Section EntropyLaws.

Context {Variate : Type}.
Variable fresh : Variate.
Implicit Type d : DiscreteDistribution Variate.

Lemma exp_zip_with_Rplus (a b : list R) :
  Eigen.exp (Eigen.zip_with Rplus a b)
  = Eigen.zip_with Rmult (Eigen.exp a) (Eigen.exp b).
Proof.
  unfold Eigen.exp. revert b.
  induction a as [|x a IH]; intros [|y b]; try reflexivity.
  cbn [map Eigen.zip_with]. now rewrite IH, exp_plus.
Qed.

Lemma nth_zip_with (f : R -> R -> R) (a : list R) : forall (b : list R) (i : nat),
  (i < length a)%nat -> (i < length b)%nat ->
  nth i (Eigen.zip_with f a b) 0 = f (nth i a 0) (nth i b 0).
Proof.
  induction a as [|x a IH]; intros [|y b] i Ha Hb; cbn in Ha, Hb; try lia.
  destruct i as [|i]; cbn [Eigen.zip_with nth]; [reflexivity|].
  apply IH; lia.
Qed.

Lemma nth_exp (a : list R) (i : nat) :
  (i < length a)%nat ->
  nth i (Eigen.exp a) 0 = Rtrigo_def.exp (nth i a 0).
Proof.
  intros Hi. unfold Eigen.exp.
  rewrite (nth_indep _ 0 (Rtrigo_def.exp 0)) by (now rewrite length_map).
  apply map_nth.
Qed.

Lemma nth_softmax (v : list R) (i : nat) :
  (i < length v)%nat ->
  nth i (softmax v) 0 = Rtrigo_def.exp (nth i v 0) / Eigen.sum (Eigen.exp v).
Proof.
  intros Hi. unfold softmax.
  rewrite (nth_indep _ 0 (Rtrigo_def.exp 0 / Eigen.sum (Eigen.exp v)))
    by (now rewrite length_map).
  now rewrite (map_nth (fun x => Rtrigo_def.exp x / Eigen.sum (Eigen.exp v))).
Qed.

Lemma weighted_calibrated (v : list R) d :
  v <> [] -> calibrated (weighted fresh v d).
Proof.
  intros Hv. split; [now apply weighted_normalized|].
  cbn [weighted prob_mass_ log_prob_mass_]. symmetry.
  now apply exp_normalized_log.
Qed.

Lemma softmax_add_bayes (l delta : list R) (i : nat) :
  length l = length delta ->
  (i < length delta)%nat ->
  nth i (softmax (Eigen.zip_with Rplus l delta)) 0
  = nth i (Eigen.exp l) 0 * Rtrigo_def.exp (nth i delta 0)
    / Eigen.sum (Eigen.zip_with Rmult (Eigen.exp l) (Eigen.exp delta)).
Proof.
  intros Hlen Hi.
  assert (Hz : length (Eigen.zip_with Rplus l delta) = length delta)
    by (rewrite zip_with_length; auto).
  rewrite nth_softmax by (now rewrite Hz).
  rewrite exp_zip_with_Rplus.
  rewrite nth_zip_with by (rewrite ?Hlen; exact Hi).
  rewrite exp_plus, nth_exp by (now rewrite Hlen).
  reflexivity.
Qed.

(** X4: a weight update is Bayes' rule.  On a distribution whose weights
    are the exponentials of its log-weights, the new weight of particle
    [i] is its old weight times [exp (delta i)], divided by the sum of
    these products over all particles. *)
Theorem delta_log_prob_mass_bayes (delta : list R) d d' :
  prob_mass_ d = Eigen.exp (log_prob_mass_ d) ->
  delta_log_prob_mass fresh delta d = Done d' ->
  length (prob_mass d') = length delta /\
  forall i, (i < length delta)%nat ->
    nth i (prob_mass d') 0
    = nth i (prob_mass d) 0 * Rtrigo_def.exp (nth i delta 0)
      / Eigen.sum (Eigen.zip_with Rmult (prob_mass d) (Eigen.exp delta)).
Proof.
  intros Hcal Hrun.
  destruct (delta_done fresh delta d d' Hrun) as (Hlen & Hne & ->).
  unfold prob_mass. cbn [weighted prob_mass_].
  assert (Hz : length (Eigen.zip_with Rplus (log_prob_mass_ d) delta)
               = length delta)
    by (rewrite zip_with_length; auto).
  split; [now rewrite softmax_length|].
  intros i Hi. rewrite Hcal. now apply softmax_add_bayes.
Qed.

(** X5: a weight update returns exactly when the delta is not empty and
    has one entry per log-weight; otherwise it has no defined outcome, and
    in no case does it raise. *)
Theorem delta_log_prob_mass_defined (delta : list R) d :
  (returns (delta_log_prob_mass fresh delta d)
   <-> length delta = length (log_prob_mass_ d) /\ delta <> []) /\
  (~ returns (delta_log_prob_mass fresh delta d)
   -> delta_log_prob_mass fresh delta d = Undefined).
Proof.
  split.
  - split.
    + intros [d' Hrun]. destruct (delta_done fresh delta d d' Hrun) as (H & Hne & _).
      auto.
    + intros [Hlen Hne]. unfold delta_log_prob_mass, Eigen.add.
      rewrite cwise_defined by auto. cbn [obind].
      rewrite log_unnormalized_prob_mass_eq; [now eexists|].
      intros Hnil. apply (f_equal (@length R)) in Hnil.
      rewrite zip_with_length in Hnil by auto. rewrite <- Hlen in Hnil.
      destruct delta; [congruence|discriminate].
  - intros Hno. unfold delta_log_prob_mass, Eigen.add in *.
    unfold Eigen.cwise in *.
    destruct (Nat.eqb (length (log_prob_mass_ d)) (length delta));
      [|reflexivity].
    cbn [obind] in *.
    destruct (Eigen.zip_with Rplus (log_prob_mass_ d) delta) as [|x v];
      [reflexivity|].
    exfalso. apply Hno.
    rewrite log_unnormalized_prob_mass_eq by discriminate. now eexists.
Qed.

(** X6: setting the weights keeps the particles exactly when the number
    of weights is the current size; with any other number every location
    is replaced by the content of newly allocated storage.  A weight
    update on a distribution with as many locations as log-weights keeps
    all of them. *)
Theorem log_unnormalized_prob_mass_keeps_locations (v delta : list R) d d' d'' :
  log_unnormalized_prob_mass fresh v d = Done d' ->
  delta_log_prob_mass fresh delta d' = Done d'' ->
  size d' = length v /\
  (length v = size d -> locations d' = locations d) /\
  (length v <> size d -> locations d' = repeat fresh (length v)) /\
  locations d'' = locations d'.
Proof.
  intros Hrun Hdelta.
  destruct (done_is_weighted fresh v d d' Hrun) as [Hv ->].
  destruct (delta_done fresh delta _ d'' Hdelta) as (Hlen & Hne & ->).
  rewrite weighted_log_length in Hlen.
  split; [apply weighted_size|].
  unfold locations, size. cbn [weighted locations_].
  split; [|split].
  - intros H. apply resize_fits. now symmetry.
  - intros H. unfold Eigen.resize.
    destruct (Nat.eqb_spec (length (locations_ d)) (length v)) as [E|_];
      [congruence|reflexivity].
  - apply resize_fits.
    rewrite zip_with_length by (now rewrite weighted_log_length).
    now rewrite resize_length, weighted_log_length.
Qed.

Lemma sum_zip_Zero_l (n : nat) (b : list R) :
  Eigen.sum (Eigen.zip_with Rmult (Eigen.Zero n) b) = 0.
Proof.
  unfold Eigen.Zero. revert b.
  induction n as [|n IH]; intros [|y b]; cbn [repeat Eigen.zip_with Eigen.sum];
    try reflexivity.
  rewrite IH. ring.
Qed.

Lemma entropy_weighted (v : list R) d :
  v <> [] ->
  entropy (weighted fresh v d)
  = Done (ln (Eigen.sum (Eigen.exp v))
          - Eigen.sum (Eigen.zip_with Rmult v (Eigen.exp v))
            / Eigen.sum (Eigen.exp v)).
Proof.
  intros Hv. unfold entropy, Eigen.cwiseProduct.
  cbn [weighted log_prob_mass_ prob_mass_].
  rewrite cwise_defined
    by (unfold Eigen.sub_scalar; now rewrite length_map, softmax_length).
  cbn [obind]. rewrite sum_log_times_softmax by exact Hv.
  f_equal. ring.
Qed.

(** X7: after [set_uniform(n)] every weight is [1/n], the entropy is
    [ln n] and the divergence from the uniform distribution is 0. *)
Theorem set_uniform_entropy (n : nat) d d' :
  set_uniform fresh n d = Done d' ->
  prob_mass d' = repeat (1 / INR n) n /\
  entropy d' = Done (ln (INR n)) /\
  kl_given_uniform d' = Done 0.
Proof.
  unfold set_uniform. intros Hrun.
  destruct (done_is_weighted fresh _ d d' Hrun) as [Hv ->].
  split; [apply softmax_Zero|].
  assert (Hent : entropy (weighted fresh (Eigen.Zero n) d) = Done (ln (INR n))).
  { rewrite entropy_weighted by exact Hv.
    rewrite sum_exp_Zero, sum_zip_Zero_l. f_equal. unfold Rdiv. ring. }
  split; [exact Hent|].
  unfold kl_given_uniform. rewrite Hent. cbn [obind].
  rewrite weighted_size, Zero_length. f_equal. ring.
Qed.

End EntropyLaws.

(** ** Bounds of the entropy, and the lookup table *)

Section TableLaws.

Context {Variate : Type}.
Variable fresh : Variate.
Implicit Type d : DiscreteDistribution Variate.

Lemma exp_le_sum_exp (l : list R) (x : R) :
  In x l -> Rtrigo_def.exp x <= Eigen.sum (Eigen.exp l).
Proof.
  unfold Eigen.exp. induction l as [|y l IH]; [contradiction|].
  cbn [In map Eigen.sum]. intros [->|Hin].
  - pose proof (sum_exp_nonneg l) as H. unfold Eigen.exp in H. lra.
  - specialize (IH Hin). pose proof (exp_pos y). lra.
Qed.

Lemma exp_le_1_nonpos (x : R) : Rtrigo_def.exp x <= 1 -> x <= 0.
Proof.
  intros H. destruct (Rle_or_lt x 0) as [|Hpos]; [assumption|].
  apply exp_increasing in Hpos. rewrite exp_0 in Hpos. lra.
Qed.

Lemma sum_x_exp_nonpos (l : list R) :
  Forall (fun x => x <= 0) l ->
  Eigen.sum (Eigen.zip_with Rmult l (Eigen.exp l)) <= 0.
Proof.
  unfold Eigen.exp. induction 1 as [|x l Hx _ IH];
    cbn [map Eigen.zip_with Eigen.sum]; [lra|].
  pose proof (exp_pos x). nra.
Qed.

Lemma exp_ge_1_plus (x : R) : 1 + x <= Rtrigo_def.exp x.
Proof.
  destruct (Req_dec x 0) as [->|Hne].
  - rewrite exp_0. lra.
  - left. now apply exp_ineq1.
Qed.

(** Gibbs' inequality, term by term. *)
Lemma sum_exp_times_shifted (l : list R) (c : R) :
  Eigen.sum (Eigen.exp l) - INR (length l) * Rtrigo_def.exp (- c)
  <= Eigen.sum (Eigen.zip_with Rmult l (Eigen.exp l))
     + c * Eigen.sum (Eigen.exp l).
Proof.
  unfold Eigen.exp. induction l as [|x l IH].
  - cbn. lra.
  - cbn [map Eigen.zip_with Eigen.sum length]. rewrite S_INR.
    pose proof (exp_pos x) as Hx.
    pose proof (exp_ge_1_plus (- (x + c))) as Ht.
    assert (Hc : Rtrigo_def.exp (- c)
                 = Rtrigo_def.exp x * Rtrigo_def.exp (- (x + c))).
    { rewrite <- exp_plus. f_equal. ring. }
    rewrite Hc.
    pose proof (Rmult_le_compat_l (Rtrigo_def.exp x) _ _ (Rlt_le _ _ Hx) Ht).
    nra.
Qed.

(** Gibbs' inequality for log-weights whose exponentials sum to one. *)
Lemma sum_x_exp_bounds (l : list R) :
  Eigen.sum (Eigen.exp l) = 1 ->
  - ln (INR (length l)) <= Eigen.sum (Eigen.zip_with Rmult l (Eigen.exp l)) <= 0.
Proof.
  intros Hsum.
  assert (Hlen : (1 <= length l)%nat)
    by (destruct l; [cbn in Hsum; lra|cbn; lia]).
  assert (HN : 0 < INR (length l)) by (apply lt_0_INR; lia).
  split.
  - pose proof (sum_exp_times_shifted l (ln (INR (length l)))) as Hup.
    rewrite Hsum, exp_Ropp, exp_ln in Hup by exact HN.
    rewrite Rinv_r in Hup by lra. lra.
  - apply sum_x_exp_nonpos, Forall_forall. intros x Hx.
    apply exp_le_1_nonpos. rewrite <- Hsum. now apply exp_le_sum_exp.
Qed.

Lemma calibrated_entropy d :
  calibrated d ->
  entropy d
  = Done (- Eigen.sum (Eigen.zip_with Rmult (log_prob_mass_ d)
                         (Eigen.exp (log_prob_mass_ d)))) /\
  Eigen.sum (Eigen.exp (log_prob_mass_ d)) = 1 /\
  length (log_prob_mass_ d) = size d.
Proof.
  intros [[[(Hs1 & Hs2 & Hs3) [Hsum Hmono]] Hok] Hcal].
  split; [|split].
  - unfold entropy, Eigen.cwiseProduct. rewrite cwise_defined by exact Hs2.
    now rewrite Hcal.
  - now rewrite <- Hcal.
  - unfold size. now rewrite Hs1.
Qed.

(** X8: on a normalised distribution whose weights are the exponentials
    of its log-weights, the entropy is defined and lies between 0 and
    [ln size()], hence so does the divergence from the uniform
    distribution. *)
Theorem entropy_and_divergence_bounds d :
  calibrated d ->
  exists h,
    entropy d = Done h /\
    kl_given_uniform d = Done (ln (INR (size d)) - h) /\
    0 <= h <= ln (INR (size d)) /\
    0 <= ln (INR (size d)) - h <= ln (INR (size d)).
Proof.
  intros Hcal. destruct (calibrated_entropy d Hcal) as (Hent & Hsum & Hlen).
  pose proof (sum_x_exp_bounds _ Hsum) as Hb. rewrite Hlen in Hb.
  eexists. split; [exact Hent|].
  split; [unfold kl_given_uniform; now rewrite Hent|].
  lra.
Qed.

Lemma sum_firstn_succ (a : list R) : forall k,
  (k < length a)%nat ->
  Eigen.sum (firstn (S k) a) = Eigen.sum (firstn k a) + nth k a 0.
Proof.
  induction a as [|x a IH]; intros k Hk; cbn in Hk; [lia|].
  destruct k as [|k].
  - cbn. ring.
  - change (firstn (S (S k)) (x :: a)) with (x :: firstn (S k) a).
    change (firstn (S k) (x :: a)) with (x :: firstn k a).
    cbn [Eigen.sum nth]. rewrite IH by lia. ring.
Qed.

Lemma sum_firstn_strict (a : list R) :
  Forall (fun p => 0 < p) a ->
  forall i j, (i < j <= length a)%nat ->
  Eigen.sum (firstn i a) < Eigen.sum (firstn j a).
Proof.
  intros Hpos i j. induction j as [|j IH]; intros Hij; [lia|].
  rewrite sum_firstn_succ by lia.
  assert (Hj : 0 < nth j a 0).
  { rewrite Forall_forall in Hpos. apply Hpos, nth_In. lia. }
  destruct (Nat.eq_dec i j) as [->|Hne]; [lra|].
  specialize (IH ltac:(lia)). lra.
Qed.

(** X9: the lookup table is the running sum of the weights: its first
    entry is the first weight, each further entry adds the weight of its
    particle, every weight is positive, and so the table increases
    strictly. *)
Theorem cumulative_weights_are_running_sums (v : list R) d d' :
  log_unnormalized_prob_mass fresh v d = Done d' ->
  length (cumul_distr_ d') = length v /\
  nth 0 (cumul_distr_ d') 0 = nth 0 (prob_mass d') 0 /\
  (forall i, (S i < length v)%nat ->
     nth (S i) (cumul_distr_ d') 0
     = nth i (cumul_distr_ d') 0 + nth (S i) (prob_mass d') 0) /\
  (forall i, (i < length v)%nat -> 0 < nth i (prob_mass d') 0) /\
  (forall i j, (i < j < length v)%nat ->
     nth i (cumul_distr_ d') 0 < nth j (cumul_distr_ d') 0).
Proof.
  intros Hrun. destruct (done_is_weighted fresh v d d' Hrun) as [Hv ->].
  unfold prob_mass. cbn [weighted cumul_distr_ prob_mass_].
  pose proof (softmax_length v) as Hlen.
  pose proof (softmax_pos v) as Hpos.
  destruct (softmax v) as [|p0 ps] eqn:Hs.
  { destruct v; [congruence|discriminate]. }
  cbn [length] in Hlen.
  assert (Hnth : forall k, (k < length v)%nat ->
            nth k (p0 :: cdf_loop p0 ps) 0
            = Eigen.sum (firstn (S k) (p0 :: ps)))
    by (intros k Hk; apply cdf_nth; lia).
  split; [cbn [length]; now rewrite cdf_loop_length|].
  split; [reflexivity|]. split; [|split].
  - intros i Hi. rewrite !Hnth by lia.
    apply sum_firstn_succ. cbn [length]. lia.
  - intros i Hi. rewrite Forall_forall in Hpos. apply Hpos, nth_In.
    cbn [length]. lia.
  - intros i j Hij. rewrite !Hnth by lia.
    apply sum_firstn_strict; [exact Hpos|]. cbn [length]. lia.
Qed.

(** X10: the sampling law of the lookup.  With a table that fits the
    locations, the index found for [u] is [i] exactly when [u] lies above
    the cumulative weight before [i] (if there is one) and at or below the
    cumulative weight of [i]; the location returned is then the [i]-th. *)
Theorem map_standard_uniform_interval (u : R) (i : nat) d :
  aligned d ->
  (i < size d)%nat ->
  (lower_bound (cumul_distr_ d) u = i
   <-> (i = 0%nat \/ nth (i - 1) (cumul_distr_ d) 0 < u)
       /\ u <= nth i (cumul_distr_ d) 0) /\
  (lower_bound (cumul_distr_ d) u = i ->
   map_standard_uniform u d = Done (nth i (locations_ d) fresh)).
Proof.
  intros (Hlen & Hne & Hmono) Hi. unfold size in Hi. rewrite Hlen in Hi.
  destruct (lower_bound_spec (cumul_distr_ d) u Hmono) as (_ & Hb & Ha).
  split.
  - split.
    + intros <-. split; [|apply Ha; lia].
      destruct (lower_bound (cumul_distr_ d) u) as [|k] eqn:Hk; [now left|].
      right. apply Hb. lia.
    + intros [Hlo Hhi]. apply lower_bound_unique; auto; try lia.
      * intros j Hj. destruct Hlo as [->|Hlo]; [lia|].
        eapply Rle_lt_trans; [|exact Hlo]. apply Hmono. lia.
      * intros j Hj. eapply Rle_trans; [exact Hhi|]. apply Hmono. lia.
  - intros Hidx. unfold map_standard_uniform. rewrite Hidx.
    apply location_defined. unfold size. lia.
Qed.

Lemma lower_bound_loop_bounds (v : list R) (val : R) (len : nat) :
  forall first,
  (first <= lower_bound_loop v val first len <= first + len)%nat.
Proof.
  induction len as [len IH] using lt_wf_ind. intros first.
  rewrite lower_bound_loop_step.
  destruct (Nat.eqb_spec len 0) as [->|Hpos]; [lia|].
  pose proof (half_lt len ltac:(lia)) as Hhalf.
  destruct (Rlt_dec (nth (first + half len) v 0) val).
  - pose proof (IH (len - half len - 1)%nat ltac:(lia) (first + half len + 1)%nat).
    lia.
  - pose proof (IH (half len) ltac:(lia) first). lia.
Qed.

(** X11: the binary search never leaves the array: on any array, sorted
    or not, the index found is at most the length.  On a non-decreasing
    array the index does not decrease when the value grows, so larger
    draws select later particles. *)
Theorem lower_bound_bounded_and_monotone (v : list R) (u u' : R) :
  (lower_bound v u <= length v)%nat /\
  (nondecreasing v -> u <= u' -> (lower_bound v u <= lower_bound v u')%nat).
Proof.
  split.
  - unfold lower_bound. pose proof (lower_bound_loop_bounds v u (length v) 0). lia.
  - intros Hmono Hu.
    destruct (lower_bound_spec v u Hmono) as (Hr & Hb & Ha).
    destruct (lower_bound_spec v u' Hmono) as (Hr' & Hb' & Ha').
    destruct (Nat.le_gt_cases (lower_bound v u) (lower_bound v u'))
      as [|Hgt]; [assumption|].
    specialize (Hb _ Hgt). specialize (Ha' (lower_bound v u') ltac:(lia)). lra.
Qed.

End TableLaws.

(** ** Laws of the filter *)

Section FilterLaws.

Context {State Input Obsrv Noise : Type}.
Variable StateZero : nat -> State.
Variable fresh : State.
Variable process_model_state : State -> Noise -> Input -> State.
Variable obsrv_model_log_probabilities : Obsrv -> list State -> list R.
Variable max_kl_divergence_ : R.

Implicit Type w : @world State Noise.
Implicit Type b p q : @Belief State.
Implicit Type prior predicted posterior : ref.

(** The observation model returns one log-likelihood per location. *)
Hypothesis log_probabilities_size : forall (obsrv : Obsrv) (xs : list State),
  length (obsrv_model_log_probabilities obsrv xs) = length xs.

Lemma kl_given_uniform_relocated (xs : list State) b :
  length xs = size b ->
  kl_given_uniform (assign_locations xs b) = kl_given_uniform b.
Proof.
  intros Hlen. unfold kl_given_uniform, entropy, size in *.
  cbn [assign_locations locations_ log_prob_mass_ prob_mass_].
  now rewrite Hlen.
Qed.

Lemma calibrated_relocated (xs : list State) b :
  length xs = size b -> calibrated b -> calibrated (assign_locations xs b).
Proof.
  intros Hlen [Hn Hc]. split; [now apply assign_locations_normalized|exact Hc].
Qed.

(** [update] when it copies, with the world it leaves. *)
Lemma update_copying_run predicted (obsrv : Obsrv) posterior w (kl : R) :
  kl_given_uniform (heap w predicted) = Done kl ->
  ~ kl > max_kl_divergence_ ->
  normalized (heap w predicted) ->
  update fresh obsrv_model_log_probabilities max_kl_divergence_
         predicted obsrv posterior w
  = Done (tt,
          set_belief posterior
            (weighted fresh
               (Eigen.zip_with Rplus (log_prob_mass_ (heap w predicted))
                  (obsrv_model_log_probabilities obsrv
                     (locations_ (heap w predicted))))
               (heap w predicted))
            (set_belief posterior (heap w predicted) w)).
Proof.
  intros Hkl Hle [((Hs1 & _) & _) Hok].
  pose proof (update_resample_copies fresh max_kl_divergence_
                predicted posterior w kl Hkl Hle) as Hrun.
  pose proof (cdf_ok_size _ Hok) as Hn. unfold size in Hn.
  set (p := heap w predicted) in *.
  set (w1 := set_belief posterior p w) in *.
  assert (Hpost : heap w1 posterior = p) by apply heap_set_belief_same.
  assert (Hpred : heap w1 predicted = p).
  { destruct (Nat.eq_dec predicted posterior) as [->|Hne]; [exact Hpost|].
    unfold w1. now rewrite heap_set_belief_other. }
  unfold update. rewrite (bind_run _ _ _ _ _ Hrun).
  rewrite (update_weights_spec fresh obsrv_model_log_probabilities
             log_probabilities_size).
  - now rewrite Hpred, Hpost.
  - rewrite Hpred, Hpost. now rewrite Hs1.
  - rewrite Hpred. intros Hnil. rewrite Hnil in Hn. cbn in Hn. lia.
Qed.

(** X12: [update] on a belief that is not too concentrated.  No draw is
    consumed, the posterior keeps the predicted locations, and its weights
    follow Bayes' rule: the predicted weight of each particle times the
    likelihood of the observation at that particle, normalised.  This
    holds whether or not [posterior] is the predicted object itself. *)
Theorem update_without_resampling predicted (obsrv : Obsrv) posterior w (kl : R) :
  calibrated (heap w predicted) ->
  kl_given_uniform (heap w predicted) = Done kl ->
  ~ kl > max_kl_divergence_ ->
  let p := heap w predicted in
  let ll := obsrv_model_log_probabilities obsrv (locations p) in
  exists w',
    update fresh obsrv_model_log_probabilities max_kl_divergence_
           predicted obsrv posterior w = Done (tt, w') /\
    uniform_used w' = uniform_used w /\
    noise_used w' = noise_used w /\
    locations (heap w' posterior) = locations p /\
    (forall i, (i < size p)%nat ->
       nth i (prob_mass (heap w' posterior)) 0
       = nth i (prob_mass p) 0 * Rtrigo_def.exp (nth i ll 0)
         / Eigen.sum (Eigen.zip_with Rmult (prob_mass p) (Eigen.exp ll))).
Proof.
  intros [Hnorm Hcal] Hkl Hle p ll.
  pose proof (update_copying_run predicted obsrv posterior w kl Hkl Hle Hnorm)
    as Hrun.
  destruct Hnorm as [((Hs1 & _) & _) _].
  subst ll. unfold locations, prob_mass, size. subst p.
  set (p := heap w predicted) in *.
  set (ll := obsrv_model_log_probabilities obsrv (locations_ p)) in *.
  assert (Hll : length ll = length (locations_ p))
    by apply log_probabilities_size.
  eexists. split; [exact Hrun|].
  rewrite heap_set_belief_same.
  split; [reflexivity|]. split; [reflexivity|]. split.
  - cbn [weighted locations_].
    apply resize_fits. rewrite zip_with_length; [now symmetry|].
    now rewrite Hll.
  - intros i Hi. cbn [weighted prob_mass_].
    rewrite Hcal. apply softmax_add_bayes.
    + now rewrite Hll.
    + now rewrite Hll.
Qed.

(** X13: with a threshold of at least [ln size()], [update] never
    resamples: the divergence of a calibrated belief cannot exceed that
    bound, so no draw is consumed and every particle stays where it is. *)
Theorem update_never_resamples_above_ln_size predicted (obsrv : Obsrv)
    posterior w :
  calibrated (heap w predicted) ->
  ln (INR (size (heap w predicted))) <= max_kl_divergence_ ->
  exists w',
    update fresh obsrv_model_log_probabilities max_kl_divergence_
           predicted obsrv posterior w = Done (tt, w') /\
    uniform_used w' = uniform_used w /\
    locations (heap w' posterior) = locations (heap w predicted).
Proof.
  intros Hcal Hmax.
  destruct (calibrated_entropy _ Hcal) as (Hent & Hsum & Hlen).
  pose proof (sum_x_exp_bounds _ Hsum) as Hb. rewrite Hlen in Hb.
  assert (Hkl : kl_given_uniform (heap w predicted)
                = Done (ln (INR (size (heap w predicted)))
                        - - Eigen.sum (Eigen.zip_with Rmult
                                         (log_prob_mass_ (heap w predicted))
                                         (Eigen.exp (log_prob_mass_ (heap w predicted))))))
    by (unfold kl_given_uniform; now rewrite Hent).
  destruct Hcal as [Hnorm Hcal].
  rewrite (update_copying_run predicted obsrv posterior w _ Hkl) by (auto; lra).
  eexists. split; [reflexivity|]. rewrite heap_set_belief_same.
  split; [reflexivity|].
  unfold locations. cbn [weighted locations_]. apply resize_fits.
  destruct Hnorm as [((Hs1 & _) & _) _].
  rewrite zip_with_length.
  - now symmetry.
  - now rewrite log_probabilities_size.
Qed.

(** [update] when it resamples, with the world it leaves: [w1] is the
    world between the conditional and the weighting. *)
Lemma update_resampling_run predicted (obsrv : Obsrv) posterior w (kl : R) :
  kl_given_uniform (heap w predicted) = Done kl ->
  kl > max_kl_divergence_ ->
  cdf_ok (heap w predicted) ->
  (forall k, (k < size (heap w predicted))%nat ->
     uniform_draws w (uniform_used w + k) <= 1) ->
  let n := size (heap w predicted) in
  let new_locations :=
    resampled fresh (heap w predicted) (uniform_draws w) (uniform_used w) n in
  let q :=
    assign_locations new_locations
      (weighted fresh (Eigen.Zero n) (heap w posterior)) in
  let scored :=
    if Nat.eqb predicted posterior then new_locations
    else locations_ (heap w predicted) in
  exists w1,
    only_changes posterior w w1 /\
    uniform_used w1 = (uniform_used w + n)%nat /\
    noise_used w1 = noise_used w /\
    length scored = n /\
    update fresh obsrv_model_log_probabilities max_kl_divergence_
           predicted obsrv posterior w
    = Done (tt,
            set_belief posterior
              (weighted fresh
                 (Eigen.zip_with Rplus (log_prob_mass_ q)
                    (obsrv_model_log_probabilities obsrv scored))
                 q)
              w1).
Proof.
  intros Hkl Hgt Hok Hdraws n new_locations q scored.
  destruct (update_resample_resamples fresh max_kl_divergence_
              predicted posterior w kl Hkl Hgt Hok Hdraws)
    as (w1 & Hrun & Hheap & Hframe & Hu & Hn).
  fold n in Hheap, Hu. fold new_locations in Hheap. fold q in Hheap.
  pose proof (cdf_ok_size _ Hok) as Hsize. fold n in Hsize.
  assert (Hnew : length new_locations = n) by apply resampled_length.
  assert (Hpred : locations_ (heap w1 predicted) = scored).
  { unfold scored. destruct (Nat.eqb_spec predicted posterior) as [->|Hne].
    - now rewrite Hheap.
    - destruct Hframe as (Hf & _). now rewrite Hf. }
  assert (Hscored : length scored = n).
  { unfold scored. destruct (Nat.eqb predicted posterior); auto. }
  assert (Hlog : length (log_prob_mass_ q) = n)
    by apply weighted_Zero_log_length.
  exists w1. repeat split; try assumption.
  - destruct Hframe as (Hf & _). exact Hf.
  - apply Hframe.
  - apply Hframe.
  - unfold update. rewrite (bind_run _ _ _ _ _ Hrun).
    rewrite (update_weights_spec fresh obsrv_model_log_probabilities
               log_probabilities_size).
    + now rewrite Hpred, Hheap.
    + rewrite Hpred, Hheap. now rewrite Hlog, Hscored.
    + rewrite Hpred. intros Hnil. rewrite Hnil in Hscored. cbn in Hscored. lia.
Qed.

Lemma softmax_sub_scalar (l : list R) (c : R) :
  softmax (Eigen.sub_scalar l c) = softmax l.
Proof.
  destruct l as [|x l]; [reflexivity|].
  rewrite softmax_as_div. apply normalize_rescaled. discriminate.
Qed.

Lemma uniform_plus_is_shift (n : nat) (c : R) (ll : list R) :
  length ll = n ->
  Eigen.zip_with Rplus (Eigen.sub_scalar (Eigen.Zero n) c) ll
  = Eigen.sub_scalar ll c.
Proof. intros <-. apply add_to_uniform_log. Qed.

(** X14: [update] in place, when it resamples.  With [predicted] and
    [posterior] the same object, one draw per particle is consumed and
    each resampled particle is weighted by the likelihood of its own new
    location: the weights are the softmax of the log-likelihoods of the
    posterior locations. *)
Theorem update_in_place_scores_own_locations (r : ref) (obsrv : Obsrv) w (kl : R) :
  kl_given_uniform (heap w r) = Done kl ->
  kl > max_kl_divergence_ ->
  cdf_ok (heap w r) ->
  (forall k, (k < size (heap w r))%nat ->
     0 <= uniform_draws w (uniform_used w + k) < 1) ->
  exists w',
    update fresh obsrv_model_log_probabilities max_kl_divergence_
           r obsrv r w = Done (tt, w') /\
    uniform_used w' = (uniform_used w + size (heap w r))%nat /\
    size (heap w' r) = size (heap w r) /\
    prob_mass (heap w' r)
    = softmax (obsrv_model_log_probabilities obsrv (locations (heap w' r))).
Proof.
  intros Hkl Hgt Hok Hdraws.
  destruct (update_resampling_run r obsrv r w kl Hkl Hgt Hok)
    as (w1 & _ & Hu & _ & Hscored & Hrun).
  { intros k Hk. specialize (Hdraws k Hk). lra. }
  rewrite Nat.eqb_refl in Hrun, Hscored.
  set (n := size (heap w r)) in *.
  set (new_locations := resampled fresh (heap w r) (uniform_draws w)
                          (uniform_used w) n) in *.
  set (ll := obsrv_model_log_probabilities obsrv new_locations) in *.
  assert (Hll : length ll = n)
    by (unfold ll; now rewrite log_probabilities_size).
  eexists. split; [exact Hrun|]. rewrite heap_set_belief_same.
  cbn [set_belief uniform_used]. split; [exact Hu|].
  assert (Hz : Eigen.zip_with Rplus
                 (log_prob_mass_
                    (assign_locations new_locations
                       (weighted fresh (Eigen.Zero n) (heap w r))))
                 ll
               = Eigen.sub_scalar ll
                   (ln (Eigen.sum (Eigen.exp (Eigen.Zero n)))))
    by (apply uniform_plus_is_shift; exact Hll).
  rewrite Hz.
  assert (Hloc : locations_
                   (weighted fresh
                      (Eigen.sub_scalar ll
                         (ln (Eigen.sum (Eigen.exp (Eigen.Zero n)))))
                      (assign_locations new_locations
                         (weighted fresh (Eigen.Zero n) (heap w r))))
                 = new_locations).
  { cbn [weighted locations_ assign_locations]. apply resize_fits.
    unfold Eigen.sub_scalar. now rewrite length_map, Hll. }
  unfold size at 1, prob_mass, locations. rewrite Hloc.
  split; [exact Hscored|].
  cbn [weighted prob_mass_]. apply softmax_sub_scalar.
Qed.

(** X15: [update] on a normalised predicted belief always returns.  It
    changes no object but the posterior, draws no process noise, consumes
    either no uniform draw or one per particle, and leaves a posterior of
    the size of the predicted belief. *)
Theorem update_returns_and_frames predicted (obsrv : Obsrv) posterior w :
  normalized (heap w predicted) ->
  (forall k, (k < size (heap w predicted))%nat ->
     0 <= uniform_draws w (uniform_used w + k) < 1) ->
  exists w',
    update fresh obsrv_model_log_probabilities max_kl_divergence_
           predicted obsrv posterior w = Done (tt, w') /\
    (forall r, r <> posterior -> heap w' r = heap w r) /\
    noise_used w' = noise_used w /\
    (uniform_used w' = uniform_used w \/
     uniform_used w' = (uniform_used w + size (heap w predicted))%nat) /\
    size (heap w' posterior) = size (heap w predicted).
Proof.
  intros Hnorm Hdraws.
  pose proof (kl_given_uniform_defined _ (proj1 (proj1 Hnorm))) as Hkl.
  set (kl := ln (INR (size (heap w predicted))) - _) in Hkl.
  destruct (Rgt_dec kl max_kl_divergence_) as [Hgt|Hle].
  - destruct (update_resampling_run predicted obsrv posterior w kl Hkl Hgt
                (proj2 Hnorm))
      as (w1 & (Hf & _) & Hu & Hn & Hscored & Hrun).
    { intros k Hk. specialize (Hdraws k Hk). lra. }
    eexists. split; [exact Hrun|]. split; [|split; [|split]].
    + intros r Hr. rewrite heap_set_belief_other by exact Hr. now apply Hf.
    + exact Hn.
    + right. exact Hu.
    + rewrite heap_set_belief_same. rewrite weighted_size.
      rewrite zip_with_length.
      * apply weighted_Zero_log_length.
      * rewrite log_probabilities_size, Hscored.
        apply weighted_Zero_log_length.
  - rewrite (update_copying_run predicted obsrv posterior w kl Hkl Hle Hnorm).
    eexists. split; [reflexivity|]. split; [|split; [|split]].
    + intros r Hr. now rewrite !heap_set_belief_other by exact Hr.
    + reflexivity.
    + now left.
    + rewrite heap_set_belief_same, weighted_size.
      destruct Hnorm as [((Hs1 & _) & _) _].
      rewrite zip_with_length.
      * unfold size. now symmetry.
      * now rewrite log_probabilities_size.
Qed.

(** X16: two predictions in a row, the second in place.  Together they
    consume two noise draws per particle and no uniform draw, leave the
    weights of the prior, and send each location through the process model
    twice, the second time with the noise drawn after all the noise of the
    first pass. *)
Theorem predict_twice prior (input1 input2 : Input) (target : ref) w :
  exists w1 w2,
    predict process_model_state prior input1 target w = Done (tt, w1) /\
    predict process_model_state target input2 target w1 = Done (tt, w2) /\
    noise_used w2 = (noise_used w + 2 * size (heap w prior))%nat /\
    uniform_used w2 = uniform_used w /\
    prob_mass (heap w2 target) = prob_mass (heap w prior) /\
    (forall i x,
       nth_error (locations (heap w prior)) i = Some x ->
       nth_error (locations (heap w2 target)) i
       = Some (process_model_state
                 (process_model_state x
                    (noise_draws w (noise_used w + i)%nat) input1)
                 (noise_draws w
                    (noise_used w + size (heap w prior) + i)%nat)
                 input2)).
Proof.
  destruct (predict_spec process_model_state prior input1 target w)
    as (w1 & Hrun1 & Hheap1 & (_ & _ & Hnd1) & Hu1 & Hn1).
  destruct (predict_spec process_model_state target input2 target w1)
    as (w2 & Hrun2 & Hheap2 & _ & Hu2 & Hn2).
  assert (Hsize1 : size (heap w1 target) = size (heap w prior)).
  { rewrite Hheap1. unfold size. cbn [assign_locations locations_].
    apply propagated_length. }
  exists w1, w2. split; [exact Hrun1|]. split; [exact Hrun2|].
  split; [rewrite Hn2, Hn1, Hsize1; lia|].
  split; [congruence|].
  split; [now rewrite Hheap2, Hheap1|].
  intros i x Hx. rewrite Hheap2. unfold locations.
  cbn [assign_locations locations_].
  rewrite Hnd1, Hn1.
  apply propagated_nth_error. rewrite Hheap1.
  cbn [assign_locations locations_].
  now apply propagated_nth_error.
Qed.

(** X17: when the predicted belief is not too concentrated,
    [predict_and_update] and the two separate calls agree: whatever object
    receives the intermediate prediction, the posterior belief and the
    numbers of draws used are the same. *)
Theorem predict_and_update_is_composition_without_resampling prior
    (input : Input) (observation : Obsrv) posterior (target : ref) w (kl : R) :
  normalized (heap w prior) ->
  kl_given_uniform (heap w prior) = Done kl ->
  ~ kl > max_kl_divergence_ ->
  exists wA w1 wB,
    predict_and_update fresh process_model_state obsrv_model_log_probabilities
                       max_kl_divergence_ prior input observation posterior w
    = Done (tt, wA) /\
    predict process_model_state prior input target w = Done (tt, w1) /\
    update fresh obsrv_model_log_probabilities max_kl_divergence_
           target observation posterior w1 = Done (tt, wB) /\
    heap wA posterior = heap wB posterior /\
    uniform_used wA = uniform_used wB /\
    noise_used wA = noise_used wB.
Proof.
  intros Hnorm Hkl Hle.
  destruct (predict_spec process_model_state prior input posterior w)
    as (w0 & Hrun0 & Hheap0 & _ & Hu0 & Hn0).
  destruct (predict_spec process_model_state prior input target w)
    as (w1 & Hrun1 & Hheap1 & _ & Hu1 & Hn1).
  set (xs := propagated process_model_state (locations_ (heap w prior))
               (noise_draws w) (noise_used w) input) in *.
  assert (Hlen : length xs = size (heap w prior)) by apply propagated_length.
  assert (HnormP : normalized (assign_locations xs (heap w prior)))
    by (now apply assign_locations_normalized).
  assert (HklP : kl_given_uniform (assign_locations xs (heap w prior)) = Done kl)
    by (now rewrite kl_given_uniform_relocated).
  rewrite <- Hheap0 in HnormP, HklP.
  pose proof (update_copying_run posterior observation posterior w0 kl
                HklP Hle HnormP) as HrunA.
  rewrite Hheap0, <- Hheap1 in HnormP, HklP.
  pose proof (update_copying_run target observation posterior w1 kl
                HklP Hle HnormP) as HrunB.
  eexists. exists w1. eexists.
  split.
  { rewrite (predict_and_update_run fresh process_model_state
               obsrv_model_log_probabilities max_kl_divergence_
               _ _ observation _ _ _ Hrun0).
    exact HrunA. }
  split; [exact Hrun1|]. split; [exact HrunB|].
  rewrite !heap_set_belief_same. cbn [set_belief uniform_used noise_used].
  split; [now rewrite Hheap0, Hheap1|]. split; congruence.
Qed.

(** X18: a belief fresh from [create_belief] cannot be updated: its
    entropy multiplies one log-weight with an empty weight array, so the
    divergence, and with it [update], has no defined outcome, whatever
    the observation and the posterior object. *)
Theorem update_of_created_belief_undefined predicted (obsrv : Obsrv)
    posterior (dim : nat) w :
  heap w predicted = create_belief StateZero dim ->
  entropy (heap w predicted) = Undefined /\
  kl_given_uniform (heap w predicted) = Undefined /\
  update fresh obsrv_model_log_probabilities max_kl_divergence_
         predicted obsrv posterior w = Undefined.
Proof.
  intros Hfresh.
  assert (Hent : entropy (heap w predicted) = Undefined)
    by (rewrite Hfresh; reflexivity).
  assert (Hkl : kl_given_uniform (heap w predicted) = Undefined)
    by (unfold kl_given_uniform; now rewrite Hent).
  split; [exact Hent|]. split; [exact Hkl|].
  unfold update, update_resample, query, deref, lift.
  unfold bind at 1 2 3. now rewrite Hkl.
Qed.

(** X19: [from_distribution] with a size of zero or less has no defined
    outcome: a negative size cannot be allocated, and with size zero the
    uniform weights of no particle cannot be normalised. *)
Theorem from_distribution_nonpositive_undefined (this distribution : ref)
    (new_size : Z) w :
  (new_size <= 0)%Z ->
  from_distribution fresh this distribution new_size w = Undefined.
Proof.
  intros Hle. destruct new_size as [|p|p]; [reflexivity|lia|reflexivity].
Qed.

Lemma resampled_incl p (draws : nat -> R) (n : nat) :
  cdf_ok p ->
  forall start,
  (forall k, (k < n)%nat -> draws (start + k)%nat <= 1) ->
  forall x, In x (resampled fresh p draws start n) -> In x (locations_ p).
Proof.
  intros Hok. induction n as [|n IH]; intros start Hdraws x Hx; [contradiction|].
  cbn [resampled In] in Hx. destruct Hx as [<-|Hx].
  - destruct (map_standard_uniform_unit fresh (draws start) p Hok)
      as (k & Hk & Hidx & _).
    { specialize (Hdraws 0%nat ltac:(lia)). now rewrite Nat.add_0_r in Hdraws. }
    rewrite Hidx. apply nth_In. exact Hk.
  - apply (IH (S start)); [|exact Hx].
    intros k Hk. specialize (Hdraws (S k) ltac:(lia)).
    now rewrite Nat.add_succ_r in Hdraws.
Qed.

(** X20: resampling invents no particle: every location that
    [from_distribution] leaves in [this] is one of the locations the
    source held before the call, also when the source is [this]. *)
Theorem from_distribution_draws_existing_particles (this distribution : ref)
    (count : Z) w :
  (1 <= count)%Z ->
  cdf_ok (heap w distribution) ->
  (forall k, (k < Z.to_nat count)%nat ->
     0 <= uniform_draws w (uniform_used w + k) < 1) ->
  exists w',
    from_distribution fresh this distribution count w = Done (tt, w') /\
    forall x, In x (locations (heap w' this)) ->
              In x (locations (heap w distribution)).
Proof.
  intros Hcount Hok Hdraws.
  assert (Hle : forall k, (k < Z.to_nat count)%nat ->
                  uniform_draws w (uniform_used w + k) <= 1)
    by (intros k Hk; specialize (Hdraws k Hk); lra).
  destruct (from_distribution_spec fresh this distribution count w Hcount Hok Hle)
    as (w' & Hrun & Hheap & _).
  exists w'. split; [exact Hrun|]. rewrite Hheap.
  unfold locations. cbn [assign_locations locations_].
  intros x Hx. eapply resampled_incl; eauto.
Qed.

End FilterLaws.

(** ** The moments *)

Section MomentLaws.

Implicit Type d : DiscreteDistribution (list R).

Lemma nth_add (a : list R) : forall (b : list R) (k : nat),
  length a = length b ->
  nth k (Eigen.zip_with Rplus a b) 0 = nth k a 0 + nth k b 0.
Proof.
  induction a as [|x a IH]; intros [|y b] k Hlen; cbn in Hlen; try lia.
  - destruct k; cbn; ring.
  - destruct k as [|k]; cbn [Eigen.zip_with nth]; [reflexivity|].
    apply IH. lia.
Qed.

Lemma nth_sub (a : list R) : forall (b : list R) (k : nat),
  length a = length b ->
  nth k (Eigen.zip_with Rminus a b) 0 = nth k a 0 - nth k b 0.
Proof.
  induction a as [|x a IH]; intros [|y b] k Hlen; cbn in Hlen; try lia.
  - destruct k; cbn; ring.
  - destruct k as [|k]; cbn [Eigen.zip_with nth]; [reflexivity|].
    apply IH. lia.
Qed.

Lemma nth_scaled (c : R) (x : list R) : forall k,
  nth k (Dense.scaled c x) 0 = c * nth k x 0.
Proof.
  unfold Dense.scaled. induction x as [|a x IH]; intros [|k]; cbn [map nth];
    try ring; auto.
Qed.

Lemma scaled_length (c : R) (x : list R) :
  length (Dense.scaled c x) = length x.
Proof. apply length_map. Qed.

Lemma skipn_cons_nth {A : Type} (l : list A) (i : nat) (dflt : A) :
  (i < length l)%nat -> skipn i l = nth i l dflt :: skipn (S i) l.
Proof.
  revert i. induction l as [|x l IH]; intros i Hi; cbn in Hi; [lia|].
  destruct i as [|i]; [reflexivity|].
  cbn [skipn nth]. apply IH. lia.
Qed.

Lemma prob_mass_at_defined (i : nat) d :
  (i < length (prob_mass_ d))%nat ->
  prob_mass_at i d = Done (nth i (prob_mass_ d) 0).
Proof.
  intros Hi. unfold prob_mass_at.
  destruct (nth_error (prob_mass_ d) i) as [p|] eqn:Hp.
  - now rewrite (nth_error_nth _ _ 0 Hp).
  - apply nth_error_None in Hp. lia.
Qed.

(** The weighted sum of one coordinate over the particles from [i] on. *)
Lemma mean_loop_spec d (dim : nat) :
  length (prob_mass_ d) = size d ->
  Forall (fun x => length x = dim) (locations_ d) ->
  forall remaining i mu,
  (i + remaining = size d)%nat ->
  length mu = dim ->
  exists mu',
    mean_loop d i remaining mu = Done mu' /\
    length mu' = dim /\
    forall k,
      nth k mu' 0
      = nth k mu 0
        + Eigen.sum (Eigen.zip_with Rmult (skipn i (prob_mass_ d))
                       (map (fun x => nth k x 0) (skipn i (locations_ d)))).
Proof.
  intros Hp Hdim. unfold size in *.
  induction remaining as [|n IH]; intros i mu Hi Hmu.
  - exists mu. split; [reflexivity|]. split; [exact Hmu|].
    intros k. rewrite (skipn_all2 (prob_mass_ d)) by lia. cbn. ring.
  - cbn [mean_loop].
    rewrite prob_mass_at_defined by lia. cbn [obind].
    rewrite (location_defined [] i d) by (unfold size; lia). cbn [obind].
    set (p := nth i (prob_mass_ d) 0).
    set (x := nth i (locations_ d) []).
    assert (Hx : length x = dim).
    { rewrite Forall_forall in Hdim. apply Hdim, nth_In. lia. }
    unfold Eigen.add. rewrite cwise_defined by (now rewrite scaled_length, Hx).
    cbn [obind].
    destruct (IH (S i) (Eigen.zip_with Rplus mu (Dense.scaled p x)))
      as (mu' & Hrun & Hlen & Hsum); [lia| |].
    { rewrite zip_with_length; [exact Hmu|]. now rewrite scaled_length, Hx. }
    exists mu'. split; [exact Hrun|]. split; [exact Hlen|].
    intros k. rewrite Hsum.
    rewrite nth_add by (now rewrite scaled_length, Hx).
    rewrite nth_scaled.
    rewrite (skipn_cons_nth (prob_mass_ d) i 0) by lia.
    rewrite (skipn_cons_nth (locations_ d) i []) by lia.
    cbn [map Eigen.zip_with Eigen.sum]. fold p. fold x. ring.
Qed.

Lemma nth_VectorZero (n k : nat) : nth k (Dense.VectorZero n) 0 = 0.
Proof.
  unfold Dense.VectorZero. revert k.
  induction n as [|n IH]; intros [|k]; cbn; auto.
Qed.

(** A sum of values with non-negative weights of total one lies between
    any bounds of the values. *)
Lemma weighted_sum_between (lo hi : R) (ps : list R) : forall (ys : list R),
  length ps = length ys ->
  Forall (fun p => 0 <= p) ps ->
  Forall (fun y => lo <= y <= hi) ys ->
  lo * Eigen.sum ps <= Eigen.sum (Eigen.zip_with Rmult ps ys) <= hi * Eigen.sum ps.
Proof.
  induction ps as [|p ps IH]; intros [|y ys] Hlen Hp Hy; cbn in Hlen; try lia.
  - cbn. lra.
  - inversion Hp; subst. inversion Hy; subst.
    cbn [Eigen.zip_with Eigen.sum].
    specialize (IH ys ltac:(lia) ltac:(assumption) ltac:(assumption)). nra.
Qed.

Lemma calibrated_facts d :
  calibrated d ->
  length (prob_mass_ d) = size d /\
  (1 <= size d)%nat /\
  Eigen.sum (prob_mass_ d) = 1 /\
  Forall (fun p => 0 <= p) (prob_mass_ d).
Proof.
  intros [[[(Hs1 & Hs2 & Hs3) [Hsum Hmono]] Hok] Hcal].
  split; [unfold size; congruence|].
  split; [now apply cdf_ok_size|]. split; [exact Hsum|].
  rewrite Hcal. unfold Eigen.exp. apply Forall_map, Forall_forall.
  intros x _. left. apply exp_pos.
Qed.

Lemma mean_defined d (dim : nat) :
  calibrated d ->
  Forall (fun x => length x = dim) (locations_ d) ->
  exists mu,
    mean d = Done mu /\
    dimension d = Done dim /\
    length mu = dim /\
    forall k,
      nth k mu 0
      = Eigen.sum (Eigen.zip_with Rmult (prob_mass_ d)
                     (map (fun x => nth k x 0) (locations_ d))).
Proof.
  intros Hcal Hdim.
  destruct (calibrated_facts d Hcal) as (Hp & Hsize & _ & _).
  assert (Hd : dimension d = Done dim).
  { unfold dimension. rewrite (location_defined [] 0 d) by lia. cbn [obind].
    f_equal. rewrite Forall_forall in Hdim. apply Hdim, nth_In.
    unfold size in Hsize. lia. }
  destruct (mean_loop_spec d dim Hp Hdim (size d) 0 (Dense.VectorZero dim))
    as (mu & Hrun & Hlen & Hsum); [lia|apply repeat_length|].
  exists mu. unfold mean. rewrite Hd. cbn [obind].
  split; [exact Hrun|]. split; [reflexivity|]. split; [exact Hlen|].
  intros k. rewrite Hsum, nth_VectorZero. cbn [skipn]. ring.
Qed.

(** X21: the mean is a convex combination of the particles.  On a
    calibrated distribution whose locations all have [dim] coordinates,
    [mean()] returns a vector of [dim] coordinates, each the weighted sum
    of that coordinate over the particles, and therefore within any
    bounds that hold for that coordinate of every particle. *)
Theorem mean_is_convex_combination d (dim : nat) :
  calibrated d ->
  Forall (fun x => length x = dim) (locations d) ->
  exists mu,
    mean d = Done mu /\
    length mu = dim /\
    (forall k,
       nth k mu 0
       = Eigen.sum (Eigen.zip_with Rmult (prob_mass d)
                      (map (fun x => nth k x 0) (locations d)))) /\
    (forall k lo hi,
       (forall x, In x (locations d) -> lo <= nth k x 0 <= hi) ->
       lo <= nth k mu 0 <= hi).
Proof.
  intros Hcal Hdim. unfold locations, prob_mass in *.
  destruct (mean_defined d dim Hcal Hdim) as (mu & Hrun & _ & Hlen & Hsum).
  destruct (calibrated_facts d Hcal) as (Hp & _ & Hone & Hpos).
  exists mu. split; [exact Hrun|]. split; [exact Hlen|]. split; [exact Hsum|].
  intros k lo hi Hb. rewrite Hsum.
  pose proof (weighted_sum_between lo hi (prob_mass_ d)
                (map (fun x => nth k x 0) (locations_ d))) as Hbetween.
  rewrite Hone, !Rmult_1_r in Hbetween. apply Hbetween.
  - now rewrite length_map.
  - exact Hpos.
  - apply Forall_map, Forall_forall. exact Hb.
Qed.

Lemma nth_map_zero (f : R -> R) (l : list R) :
  f 0 = 0 -> forall k, nth k (map f l) 0 = f (nth k l 0).
Proof.
  intros H0. induction l as [|x l IH]; intros [|k]; cbn [map nth]; auto.
Qed.

Lemma coeff_nil (a b : nat) : Dense.coeff [] a b = 0.
Proof. unfold Dense.coeff. destruct a; destruct b; reflexivity. Qed.

Lemma coeff_cons_0 (r : list R) (A : list (list R)) (b : nat) :
  Dense.coeff (r :: A) 0 b = nth b r 0.
Proof. reflexivity. Qed.

Lemma coeff_cons_S (r : list R) (A : list (list R)) (a b : nat) :
  Dense.coeff (r :: A) (S a) b = Dense.coeff A a b.
Proof. reflexivity. Qed.

(** A matrix of [rows] rows with [cols] coefficients each. *)
Lemma same_shape_true (cols : nat) (A : list (list R)) : forall B,
  length A = length B ->
  Forall (fun r => length r = cols) A ->
  Forall (fun r => length r = cols) B ->
  Dense.same_shape A B = true.
Proof.
  induction A as [|x A IH]; intros [|y B] Hlen HA HB; cbn in Hlen; try lia.
  - reflexivity.
  - inversion HA; subst. inversion HB; subst. cbn [Dense.same_shape].
    rewrite IH by (auto; lia).
    replace (length y) with (length x) by congruence.
    now rewrite Nat.eqb_refl.
Qed.

Lemma add_rows_shape (cols : nat) (A : list (list R)) : forall B,
  length A = length B ->
  Forall (fun r => length r = cols) A ->
  Forall (fun r => length r = cols) B ->
  length (Dense.add_rows A B) = length A /\
  Forall (fun r => length r = cols) (Dense.add_rows A B).
Proof.
  induction A as [|x A IH]; intros [|y B] Hlen HA HB; cbn in Hlen; try lia.
  - split; [reflexivity|constructor].
  - inversion HA; subst. inversion HB; subst.
    destruct (IH B ltac:(lia) ltac:(assumption) ltac:(assumption)) as [Hl Hr].
    cbn [Dense.add_rows length]. split; [now rewrite Hl|].
    constructor; [|exact Hr]. rewrite zip_with_length; congruence.
Qed.

Lemma coeff_add_rows (cols : nat) (A : list (list R)) : forall B a b,
  length A = length B ->
  Forall (fun r => length r = cols) A ->
  Forall (fun r => length r = cols) B ->
  Dense.coeff (Dense.add_rows A B) a b = Dense.coeff A a b + Dense.coeff B a b.
Proof.
  induction A as [|x A IH]; intros [|y B] a b Hlen HA HB; cbn in Hlen; try lia.
  - cbn [Dense.add_rows]. rewrite coeff_nil. ring.
  - inversion HA; subst. inversion HB; subst. cbn [Dense.add_rows].
    destruct a as [|a].
    + rewrite !coeff_cons_0. apply nth_add. congruence.
    + rewrite !coeff_cons_S. apply IH; auto; lia.
Qed.

Lemma outer_shape (c : R) (x : list R) :
  length (Dense.outer c x) = length x /\
  Forall (fun r => length r = length x) (Dense.outer c x).
Proof.
  unfold Dense.outer. split; [apply length_map|].
  apply Forall_map, Forall_forall. intros a _. apply length_map.
Qed.

Lemma coeff_outer (c : R) (x : list R) (a b : nat) :
  Dense.coeff (Dense.outer c x) a b = c * nth a x 0 * nth b x 0.
Proof.
  unfold Dense.coeff, Dense.outer.
  destruct (Nat.lt_ge_cases a (length x)) as [Ha|Ha].
  - rewrite (nth_indep _ [] (map (fun b0 => c * 0 * b0) x))
      by (now rewrite length_map).
    rewrite (map_nth (fun a0 => map (fun b0 => c * a0 * b0) x) x 0 a).
    apply nth_map_zero. ring.
  - rewrite (nth_overflow (map _ x)) by (now rewrite length_map).
    rewrite (nth_overflow x) by exact Ha.
    destruct b; cbn; ring.
Qed.

Lemma MatrixZero_shape (rows cols : nat) :
  length (Dense.MatrixZero rows cols) = rows /\
  Forall (fun r => length r = cols) (Dense.MatrixZero rows cols).
Proof.
  unfold Dense.MatrixZero. split; [apply repeat_length|].
  apply Forall_forall. intros r Hr. apply repeat_spec in Hr. subst.
  apply repeat_length.
Qed.

Lemma coeff_MatrixZero (rows cols a b : nat) :
  Dense.coeff (Dense.MatrixZero rows cols) a b = 0.
Proof.
  unfold Dense.MatrixZero. revert a.
  induction rows as [|n IH]; intros a; cbn [repeat]; [apply coeff_nil|].
  destruct a as [|a]; [|rewrite coeff_cons_S; apply IH].
  rewrite coeff_cons_0. apply (nth_VectorZero cols b).
Qed.

(** The weighted sum of the products of two centred coordinates over the
    particles from [i] on. *)
Lemma covariance_loop_spec d (dim : nat) (mu : list R) :
  length (prob_mass_ d) = size d ->
  Forall (fun x => length x = dim) (locations_ d) ->
  length mu = dim ->
  forall remaining i cov,
  (i + remaining = size d)%nat ->
  length cov = dim ->
  Forall (fun r => length r = dim) cov ->
  exists cov',
    covariance_loop d mu i remaining cov = Done cov' /\
    length cov' = dim /\
    Forall (fun r => length r = dim) cov' /\
    forall a b,
      Dense.coeff cov' a b
      = Dense.coeff cov a b
        + Eigen.sum
            (Eigen.zip_with Rmult (skipn i (prob_mass_ d))
               (map (fun x => (nth a x 0 - nth a mu 0) * (nth b x 0 - nth b mu 0))
                    (skipn i (locations_ d)))).
Proof.
  intros Hp Hdim Hmu. unfold size in *.
  induction remaining as [|n IH]; intros i cov Hi Hrows Hcols.
  - exists cov. split; [reflexivity|]. split; [exact Hrows|].
    split; [exact Hcols|].
    intros a b. rewrite (skipn_all2 (prob_mass_ d)) by lia. cbn. ring.
  - cbn [covariance_loop].
    rewrite (location_defined [] i d) by (unfold size; lia). cbn [obind].
    set (x := nth i (locations_ d) []).
    assert (Hx : length x = dim).
    { rewrite Forall_forall in Hdim. apply Hdim, nth_In. lia. }
    rewrite cwise_defined by congruence. cbn [obind].
    set (delta := Eigen.zip_with Rminus x mu).
    assert (Hdelta : length delta = dim)
      by (unfold delta; rewrite zip_with_length; congruence).
    rewrite prob_mass_at_defined by lia. cbn [obind].
    set (p := nth i (prob_mass_ d) 0).
    destruct (outer_shape p delta) as [Ho1 Ho2]. rewrite Hdelta in Ho1, Ho2.
    unfold Dense.madd.
    rewrite (same_shape_true dim) by (auto; congruence). cbn [obind].
    destruct (add_rows_shape dim cov (Dense.outer p delta))
      as [Hs1 Hs2]; auto; try congruence.
    destruct (IH (S i) (Dense.add_rows cov (Dense.outer p delta)))
      as (cov' & Hrun & Hr' & Hc' & Hsum); auto; try lia; try congruence.
    exists cov'. split; [exact Hrun|]. split; [exact Hr'|]. split; [exact Hc'|].
    intros a b. rewrite Hsum.
    rewrite (coeff_add_rows dim) by (auto; congruence).
    rewrite coeff_outer. unfold delta. rewrite !nth_sub by congruence.
    rewrite (skipn_cons_nth (prob_mass_ d) i 0) by lia.
    rewrite (skipn_cons_nth (locations_ d) i []) by lia.
    cbn [map Eigen.zip_with Eigen.sum]. fold p. fold x. ring.
Qed.

Lemma weighted_sum_nonneg (ps : list R) : forall (ys : list R),
  Forall (fun p => 0 <= p) ps ->
  Forall (fun y => 0 <= y) ys ->
  0 <= Eigen.sum (Eigen.zip_with Rmult ps ys).
Proof.
  induction ps as [|p ps IH]; intros [|y ys] Hp Hy; cbn [Eigen.zip_with Eigen.sum];
    try lra.
  inversion Hp; subst. inversion Hy; subst.
  specialize (IH ys ltac:(assumption) ltac:(assumption)). nra.
Qed.

(** X22: the covariance.  On a calibrated distribution whose locations
    all have [dim] coordinates, [covariance()] returns a [dim] by [dim]
    matrix whose coefficient [(a, b)] is the weighted sum of the products
    of the [a]-th and [b]-th coordinates centred at the mean; the matrix
    is symmetric, its diagonal is non-negative, and it is zero when all
    particles coincide. *)
Theorem covariance_symmetric_nonnegative d (dim : nat) :
  calibrated d ->
  Forall (fun x => length x = dim) (locations d) ->
  exists mu cov,
    mean d = Done mu /\
    covariance d = Done cov /\
    length cov = dim /\
    Forall (fun row => length row = dim) cov /\
    (forall a b,
       Dense.coeff cov a b
       = Eigen.sum
           (Eigen.zip_with Rmult (prob_mass d)
              (map (fun x => (nth a x 0 - nth a mu 0) * (nth b x 0 - nth b mu 0))
                   (locations d)))) /\
    (forall a b, Dense.coeff cov a b = Dense.coeff cov b a) /\
    (forall a, 0 <= Dense.coeff cov a a) /\
    ((forall x y, In x (locations d) -> In y (locations d) -> x = y) ->
     forall a b, Dense.coeff cov a b = 0).
Proof.
  intros Hcal Hdim. unfold locations, prob_mass in *.
  destruct (mean_defined d dim Hcal Hdim) as (mu & Hmean & Hd & Hmu & Hmk).
  destruct (calibrated_facts d Hcal) as (Hp & Hsize & Hone & Hpos).
  destruct (MatrixZero_shape dim dim) as [Hz1 Hz2].
  destruct (covariance_loop_spec d dim mu Hp Hdim Hmu (size d) 0
              (Dense.MatrixZero dim dim))
    as (cov & Hrun & Hrows & Hcols & Hsum); auto.
  assert (Hform : forall a b,
            Dense.coeff cov a b
            = Eigen.sum
                (Eigen.zip_with Rmult (prob_mass_ d)
                   (map (fun x => (nth a x 0 - nth a mu 0)
                                  * (nth b x 0 - nth b mu 0))
                        (locations_ d)))).
  { intros a b. rewrite Hsum, coeff_MatrixZero. cbn [skipn]. ring. }
  exists mu, cov. split; [exact Hmean|].
  split; [unfold covariance; rewrite Hmean, Hd; exact Hrun|].
  split; [exact Hrows|]. split; [exact Hcols|]. split; [exact Hform|].
  split; [|split].
  - intros a b. rewrite !Hform. do 2 f_equal. apply map_ext. intros x. ring.
  - intros a. rewrite Hform. apply weighted_sum_nonneg; [exact Hpos|].
    apply Forall_map, Forall_forall. intros x _.
    apply Rle_0_sqr.
  - intros Hsame a b. rewrite Hform.
    assert (Hlen : forall f : list R -> R,
              length (prob_mass_ d) = length (map f (locations_ d))).
    { intros f. rewrite length_map. exact Hp. }
    assert (Hzero : Forall (fun y => 0 <= y <= 0)
                      (map (fun x => (nth a x 0 - nth a mu 0)
                                     * (nth b x 0 - nth b mu 0))
                           (locations_ d))).
    { apply Forall_map, Forall_forall. intros x Hx.
      assert (Hma : nth a mu 0 = nth a x 0).
      { rewrite Hmk.
        assert (Hall : Forall (fun y => nth a x 0 <= y <= nth a x 0)
                         (map (fun y => nth a y 0) (locations_ d))).
        { apply Forall_map, Forall_forall. intros y Hy.
          rewrite (Hsame y x Hy Hx). lra. }
        pose proof (weighted_sum_between (nth a x 0) (nth a x 0) (prob_mass_ d)
                      _ (Hlen _) Hpos Hall) as Hb.
        rewrite Hone, !Rmult_1_r in Hb. lra. }
      rewrite Hma. split; right; ring. }
    pose proof (weighted_sum_between 0 0 (prob_mass_ d) _ (Hlen _) Hpos Hzero)
      as Hb.
    lra.
Qed.

End MomentLaws.

(** ** Laws of the Gaussian lookup and of the standard Gaussian sampler *)

Section SamplerLaws.

Context {Variate : Type}.
Variable fresh : Variate.

Implicit Type d : DiscreteDistribution Variate.

Lemma gaussian_cdf_unit (e : R) :
  -1 <= e <= 1 -> 0 <= 0.5 * (1.0 + e) <= 1.
Proof. intros H. lra. Qed.

Lemma gaussian_cdf_monotone (e e' : R) :
  e <= e' -> 0.5 * (1.0 + e) <= 0.5 * (1.0 + e').
Proof. intros H. lra. Qed.

(** X23: the Gaussian lookup.  With a lookup table that fits the
    locations, [map_standard_normal] returns a particle exactly when the
    value [0.5 * (1 + erf(z / sqrt 2))] it computes is at most the last
    cumulative weight; among such samples, one whose error-function
    value is not smaller selects a particle that is not earlier.  When
    [std::erf] saturates at 1 the value is 1, and the read is out of
    range as soon as the last cumulative weight is below one. *)
Theorem map_standard_normal_selects_particle (erf : R -> R) (z : R) d :
  aligned d ->
  let u := fun z0 => 0.5 * (1.0 + erf (z0 / sqrt 2.0)) in
  (returns (map_standard_normal erf z d) <-> u z <= last (cumul_distr_ d) 0) /\
  (u z <= last (cumul_distr_ d) 0 ->
   exists k,
     (k < size d)%nat /\
     map_standard_normal erf z d = Done (nth k (locations d) fresh) /\
     forall z',
       erf (z / sqrt 2.0) <= erf (z' / sqrt 2.0) ->
       u z' <= last (cumul_distr_ d) 0 ->
       exists k',
         (k <= k' < size d)%nat /\
         map_standard_normal erf z' d = Done (nth k' (locations d) fresh)) /\
  (erf (z / sqrt 2.0) = 1 ->
   last (cumul_distr_ d) 0 < 1 ->
   map_standard_normal erf z d = Undefined).
Proof.
  intros Hal u. pose proof Hal as (Hlen & Hne & Hmono).
  assert (Hsel : forall z0, u z0 <= last (cumul_distr_ d) 0 ->
            (lower_bound (cumul_distr_ d) (u z0) < size d)%nat /\
            map_standard_normal erf z0 d
            = Done (nth (lower_bound (cumul_distr_ d) (u z0)) (locations d) fresh)).
  { intros z0 Hle.
    assert (Hin : (lower_bound (cumul_distr_ d) (u z0) < size d)%nat).
    { unfold size. rewrite Hlen. now apply lower_bound_in_range. }
    split; [exact Hin|].
    unfold map_standard_normal, map_standard_uniform. fold (u z0).
    now apply location_defined. }
  split; [|split].
  - unfold map_standard_normal. fold (u z).
    now apply map_standard_uniform_returns.
  - intros Hle. destruct (Hsel z Hle) as [Hk Hrun].
    exists (lower_bound (cumul_distr_ d) (u z)).
    split; [exact Hk|]. split; [exact Hrun|].
    intros z' Herf Hle'. destruct (Hsel z' Hle') as [Hk' Hrun'].
    exists (lower_bound (cumul_distr_ d) (u z')).
    split; [|exact Hrun']. split; [|exact Hk'].
    apply gaussian_cdf_monotone in Herf. fold (u z) (u z') in Herf.
    destruct (lower_bound_spec (cumul_distr_ d) (u z) Hmono) as (_ & Hb & _).
    destruct (lower_bound_spec (cumul_distr_ d) (u z') Hmono) as (_ & _ & Ha').
    destruct (Nat.le_gt_cases (lower_bound (cumul_distr_ d) (u z))
                (lower_bound (cumul_distr_ d) (u z'))) as [|Hgt]; [assumption|].
    specialize (Hb _ Hgt). unfold size in Hk'. rewrite Hlen in Hk'.
    specialize (Ha' (lower_bound (cumul_distr_ d) (u z')) ltac:(lia)). lra.
  - intros Hsat Hshort.
    assert (Hgt : last (cumul_distr_ d) 0 < u z) by (unfold u; rewrite Hsat; lra).
    unfold map_standard_normal, map_standard_uniform. fold (u z).
    apply location_undefined.
    destruct (Nat.lt_ge_cases (lower_bound (cumul_distr_ d) (u z)) (size d))
      as [Hlt|]; [|assumption].
    unfold size in Hlt. rewrite Hlen in Hlt.
    apply lower_bound_in_range in Hlt; auto. lra.
Qed.

Lemma sample_loop_length (draws : nat -> R) (remaining : nat) :
  forall used,
  length (GaussianSampler.sample_loop draws used remaining) = remaining.
Proof.
  induction remaining as [|n IH]; intros used; cbn; [reflexivity|].
  now rewrite IH.
Qed.

Lemma sample_loop_nth (draws : nat -> R) (remaining : nat) :
  forall used k,
  (k < remaining)%nat ->
  nth k (GaussianSampler.sample_loop draws used remaining) 0
  = draws (used + k)%nat.
Proof.
  induction remaining as [|n IH]; intros used k Hk; [lia|].
  cbn [GaussianSampler.sample_loop]. destruct k as [|k]; cbn [nth].
  - now rewrite Nat.add_0_r.
  - rewrite IH by lia. f_equal. lia.
Qed.

Lemma sample_loop_app (draws : nat -> R) (n m : nat) :
  forall used,
  GaussianSampler.sample_loop draws used (n + m)
  = GaussianSampler.sample_loop draws used n
    ++ GaussianSampler.sample_loop draws (used + n) m.
Proof.
  induction n as [|n IH]; intros used; cbn [GaussianSampler.sample_loop Nat.add app].
  - now rewrite Nat.add_0_r.
  - rewrite IH. do 3 f_equal. lia.
Qed.

(** X24: successive samples.  With a dimension that is not negative, a
    sample has [dimension()] coordinates, the values the generator
    returns next, in order; a second sample continues where the first
    stopped, so the two together are the next [2 * dimension()] values of
    the generator and share none of them.  With a negative dimension the
    sample cannot be allocated. *)
Theorem sample_continues_the_generator (g : GaussianSampler.t) :
  let dim := Z.to_nat (GaussianSampler.dimension_ g) in
  let draws := GaussianSampler.normal_draws g in
  let used := GaussianSampler.normal_used g in
  ((GaussianSampler.dimension_ g < 0)%Z ->
   GaussianSampler.sample g = Undefined) /\
  ((0 <= GaussianSampler.dimension_ g)%Z ->
   exists x g1 y g2,
     GaussianSampler.sample g = Done (x, g1) /\
     GaussianSampler.sample g1 = Done (y, g2) /\
     length x = dim /\
     length y = dim /\
     (forall k, (k < dim)%nat ->
        nth k x 0 = draws (used + k)%nat /\
        nth k y 0 = draws (used + dim + k)%nat) /\
     x ++ y = GaussianSampler.sample_loop draws used (2 * dim) /\
     GaussianSampler.dimension_ g2 = GaussianSampler.dimension_ g /\
     GaussianSampler.normal_used g2 = (used + 2 * dim)%nat).
Proof.
  destruct g as [dim fixed draws used]. cbv zeta.
  unfold GaussianSampler.sample.
  cbn [GaussianSampler.dimension_ GaussianSampler.normal_draws
       GaussianSampler.normal_used GaussianSampler.fixed].
  split.
  - intros Hneg. apply Z.ltb_lt in Hneg. now rewrite Hneg.
  - intros Hpos. apply Z.ltb_ge in Hpos. rewrite Hpos.
    do 4 eexists. split; [reflexivity|].
    cbn [GaussianSampler.dimension_ GaussianSampler.normal_draws
         GaussianSampler.normal_used GaussianSampler.fixed].
    rewrite Hpos. split; [reflexivity|].
    split; [apply sample_loop_length|].
    split; [apply sample_loop_length|].
    split; [|split; [|split]].
    + intros k Hk. split; apply sample_loop_nth; exact Hk.
    + replace (2 * Z.to_nat dim)%nat with (Z.to_nat dim + Z.to_nat dim)%nat
        by lia.
      symmetry. apply sample_loop_app.
    + reflexivity.
    + cbn [GaussianSampler.normal_used]. lia.
Qed.

Lemma to_int_range (n : Z) : StandardGaussian.is_int (StandardGaussian.to_int n).
Proof.
  unfold StandardGaussian.is_int, StandardGaussian.to_int.
  pose proof (Z.mod_pos_bound (n + 2 ^ 31) (2 ^ 32) ltac:(lia)). lia.
Qed.

Lemma to_int_small (n : Z) :
  (0 <= n < 2 ^ 31)%Z -> StandardGaussian.to_int n = n.
Proof.
  intros Hn. unfold StandardGaussian.to_int.
  rewrite Z.mod_small by lia. lia.
Qed.

Lemma to_int_to_size_t (i : Z) :
  StandardGaussian.is_int i ->
  StandardGaussian.to_int (StandardGaussian.to_size_t i) = i.
Proof.
  unfold StandardGaussian.is_int, StandardGaussian.to_int,
    StandardGaussian.to_size_t.
  intros Hi.
  destruct (Z.le_gt_cases 0 i) as [Hpos|Hneg].
  - rewrite (Z.mod_small i) by lia. rewrite Z.mod_small by lia. lia.
  - replace (i mod 2 ^ 64)%Z with (i + 2 ^ 64)%Z
      by (apply (Z.mod_unique i (2 ^ 64) (-1)); lia).
    replace (i + 2 ^ 64 + 2 ^ 31)%Z with (i + 2 ^ 31 + 2 ^ 32 * 2 ^ 32)%Z by lia.
    rewrite Z.mod_add by lia. rewrite Z.mod_small by lia. lia.
Qed.

(** X25: resizing the sampler, with a 32-bit [int] and a 64-bit
    [size_t].  [dimension(n)] raises [ResizingFixedSizeEntityException]
    exactly when the variate has a fixed size and [n] differs from the
    current dimension converted to [size_t]; in every other case it
    returns without advancing the generator, and the dimension it leaves
    is [n] narrowed to an [int].  For [n < 2^31] that is [n], and the
    next sample has the next [n] values of the generator; for
    [n >= 2^31] it is not [n], and when it is negative the next sample
    cannot be allocated. *)
Theorem set_dimension_raises_iff_fixed (n : Z) (g : GaussianSampler.t) :
  StandardGaussian.is_int (GaussianSampler.dimension_ g) ->
  StandardGaussian.is_size_t n ->
  let same := StandardGaussian.to_size_t (GaussianSampler.dimension_ g) = n in
  (raises (GaussianSampler.set_dimension n g)
   <-> GaussianSampler.fixed g = true /\ ~ same) /\
  (GaussianSampler.fixed g = true -> ~ same ->
   GaussianSampler.set_dimension n g
   = Thrown (ResizingFixedSizeEntityException (GaussianSampler.dimension_ g) n)) /\
  (GaussianSampler.fixed g = false \/ same ->
   exists g',
     GaussianSampler.set_dimension n g = Done g' /\
     GaussianSampler.dimension_ g' = StandardGaussian.to_int n /\
     StandardGaussian.is_int (GaussianSampler.dimension_ g') /\
     GaussianSampler.fixed g' = GaussianSampler.fixed g /\
     GaussianSampler.normal_draws g' = GaussianSampler.normal_draws g /\
     GaussianSampler.normal_used g' = GaussianSampler.normal_used g /\
     ((n < 2 ^ 31)%Z ->
      GaussianSampler.dimension_ g' = n /\
      exists g'',
        GaussianSampler.sample g'
        = Done (GaussianSampler.sample_loop (GaussianSampler.normal_draws g)
                  (GaussianSampler.normal_used g) (Z.to_nat n), g'')) /\
     ((2 ^ 31 <= n)%Z -> GaussianSampler.dimension_ g' <> n) /\
     ((StandardGaussian.to_int n < 0)%Z ->
      GaussianSampler.sample g' = Undefined)).
Proof.
  destruct g as [dim fixed draws used].
  cbn [GaussianSampler.dimension_ GaussianSampler.fixed].
  intros Hint Hsize.
  assert (Hstored : forall z,
            StandardGaussian.dimension fixed dim n = Done z ->
            z = StandardGaussian.to_int n).
  { intros z. unfold StandardGaussian.dimension.
    destruct (Z.eqb_spec (StandardGaussian.to_size_t dim) n) as [Heq|Hne].
    - intros [= <-]. rewrite <- Heq. symmetry. now apply to_int_to_size_t.
    - destruct fixed; [discriminate|]. now intros [= <-]. }
  assert (Hdone : forall z,
            StandardGaussian.dimension fixed dim n = Done z ->
            exists g',
              GaussianSampler.set_dimension n
                (GaussianSampler.mk dim fixed draws used) = Done g' /\
              GaussianSampler.dimension_ g' = StandardGaussian.to_int n /\
              StandardGaussian.is_int (GaussianSampler.dimension_ g') /\
              GaussianSampler.fixed g' = fixed /\
              GaussianSampler.normal_draws g' = draws /\
              GaussianSampler.normal_used g' = used /\
              ((n < 2 ^ 31)%Z ->
               GaussianSampler.dimension_ g' = n /\
               exists g'',
                 GaussianSampler.sample g'
                 = Done (GaussianSampler.sample_loop draws used (Z.to_nat n),
                         g'')) /\
              ((2 ^ 31 <= n)%Z -> GaussianSampler.dimension_ g' <> n) /\
              ((StandardGaussian.to_int n < 0)%Z ->
               GaussianSampler.sample g' = Undefined)).
  { intros z Hz. pose proof (Hstored z Hz) as ->.
    unfold GaussianSampler.set_dimension.
    cbn [GaussianSampler.dimension_ GaussianSampler.fixed
         GaussianSampler.normal_draws GaussianSampler.normal_used].
    rewrite Hz. cbn [obind]. eexists. split; [reflexivity|].
    cbn [GaussianSampler.dimension_ GaussianSampler.fixed
         GaussianSampler.normal_draws GaussianSampler.normal_used].
    pose proof (to_int_range n) as Hrange.
    split; [reflexivity|]. split; [exact Hrange|].
    split; [reflexivity|]. split; [reflexivity|]. split; [reflexivity|].
    split; [|split].
    - intros Hsmall. destruct Hsize as [Hn0 _].
      rewrite to_int_small by lia. split; [reflexivity|].
      unfold GaussianSampler.sample. cbn [GaussianSampler.dimension_].
      apply Z.ltb_ge in Hn0. rewrite Hn0. eexists. reflexivity.
    - intros Hbig. unfold StandardGaussian.is_int in Hrange. lia.
    - intros Hneg. unfold GaussianSampler.sample.
      cbn [GaussianSampler.dimension_].
      apply Z.ltb_lt in Hneg. now rewrite Hneg. }
  destruct (StandardGaussian.dimension fixed dim n) as [z| e |] eqn:Hrun.
  - split; [|split].
    + split.
      * intros [e He]. unfold GaussianSampler.set_dimension in He.
        cbn [GaussianSampler.dimension_ GaussianSampler.fixed] in He.
        rewrite Hrun in He. discriminate He.
      * intros [-> Hne]. unfold StandardGaussian.dimension in Hrun.
        apply Z.eqb_neq in Hne. rewrite Hne in Hrun. discriminate Hrun.
    + intros -> Hne. unfold StandardGaussian.dimension in Hrun.
      apply Z.eqb_neq in Hne. rewrite Hne in Hrun. discriminate Hrun.
    + intros _. now apply (Hdone z).
  - assert (Hwhy : fixed = true /\ StandardGaussian.to_size_t dim <> n /\
                   e = ResizingFixedSizeEntityException dim n).
    { unfold StandardGaussian.dimension in Hrun.
      destruct (Z.eqb_spec (StandardGaussian.to_size_t dim) n) as [Heq|Hne];
        [discriminate|].
      destruct fixed; [|discriminate]. injection Hrun as <-. auto. }
    destruct Hwhy as (-> & Hne & ->).
    assert (Hset : GaussianSampler.set_dimension n
                     (GaussianSampler.mk dim true draws used)
                   = Thrown (ResizingFixedSizeEntityException dim n)).
    { unfold GaussianSampler.set_dimension.
      cbn [GaussianSampler.dimension_ GaussianSampler.fixed].
      now rewrite Hrun. }
    split; [|split].
    + split; [intros _; now split|intros _; eexists; exact Hset].
    + intros _ _. exact Hset.
    + intros [Hf|Heq]; [discriminate|contradiction].
  - unfold StandardGaussian.dimension in Hrun.
    destruct (Z.eqb (StandardGaussian.to_size_t dim) n); [discriminate|].
    destruct fixed; discriminate.
Qed.

(** X26: moments before any weights.  The constructor leaves the
    normalised weights empty and assigning locations does not touch them,
    so until [set_uniform], [log_unnormalized_prob_mass] or
    [from_distribution] runs, [mean()] and [covariance()] read a weight
    out of range (or, without locations, a location out of range)
    whatever the locations are. *)
Theorem moments_undefined_before_weights (Zero : nat -> list R) (dim : nat)
    (xs : list (list R)) :
  mean (construct Zero dim) = Undefined /\
  covariance (construct Zero dim) = Undefined /\
  mean (assign_locations xs (construct Zero dim)) = Undefined /\
  covariance (assign_locations xs (construct Zero dim)) = Undefined.
Proof.
  assert (Hmean : forall d : DiscreteDistribution (list R),
            prob_mass_ d = [] -> mean d = Undefined).
  { intros d Hp. unfold mean, dimension, location, size.
    destruct (locations_ d) as [|x l] eqn:Hl; [reflexivity|].
    cbn [nth_error obind length mean_loop].
    unfold prob_mass_at. rewrite Hp. reflexivity. }
  assert (Hcov : forall d : DiscreteDistribution (list R),
            prob_mass_ d = [] -> covariance d = Undefined).
  { intros d Hp. unfold covariance. now rewrite (Hmean d Hp). }
  repeat split; (apply Hmean || apply Hcov); reflexivity.
Qed.

End SamplerLaws.

(** * Instances of the further properties *)

Section FurtherInstances.

Local Notation "'single'" := Scenario.single (only parsing).
Local Notation "'pair'" := Scenario.pair (only parsing).
Local Notation "'start'" := Scenario.start (only parsing).
Local Notation "'calm'" := Rest.calm (only parsing).
Local Notation "'corners'" := Plane.corners (only parsing).
Local Notation "'filter_predict'" :=
  (@predict R R R Scenario.additive_state) (only parsing).
Local Notation "'filter_update'" :=
  (@update R R R 0 Scenario.gaussian_log_probabilities
           Scenario.default_max_kl_divergence) (only parsing).
Local Notation "'filter_predict_and_update'" :=
  (@predict_and_update R R R R 0 Scenario.additive_state
                       Scenario.gaussian_log_probabilities
                       Scenario.default_max_kl_divergence) (only parsing).

Lemma delta_log_prob_mass_eq {Variate : Type} (fresh : Variate)
    (delta : list R) (d : DiscreteDistribution Variate) :
  length (log_prob_mass_ d) = length delta ->
  delta <> [] ->
  delta_log_prob_mass fresh delta d
  = Done (weighted fresh (Eigen.zip_with Rplus (log_prob_mass_ d) delta) d).
Proof.
  intros Hlen Hne. unfold delta_log_prob_mass, Eigen.add.
  rewrite cwise_defined by exact Hlen. cbn [obind].
  apply log_unnormalized_prob_mass_eq. intros Hnil.
  apply (f_equal (@length R)) in Hnil.
  rewrite zip_with_length in Hnil by exact Hlen.
  destruct delta; [congruence|]. rewrite Hlen in Hnil. discriminate.
Qed.

Lemma pair_calibrated : calibrated pair.
Proof. apply weighted_calibrated. discriminate. Qed.

Lemma pair_size : size pair = 2%nat.
Proof. unfold Scenario.pair. now rewrite weighted_size. Qed.

Lemma pair_delta :
  delta_log_prob_mass 0 [0; 0] pair
  = Done (weighted 0 (Eigen.zip_with Rplus (log_prob_mass_ pair) [0; 0]) pair).
Proof.
  apply delta_log_prob_mass_eq; [|discriminate].
  unfold Scenario.pair. now rewrite weighted_log_length.
Qed.

Lemma pair_divergence : kl_given_uniform pair = Done 0.
Proof.
  unfold kl_given_uniform. rewrite pair_size. unfold Scenario.pair.
  rewrite entropy_weighted by discriminate. cbn [obind]. f_equal.
  cbn [Eigen.exp map Eigen.sum Eigen.zip_with INR]. rewrite exp_0.
  replace (1 + (1 + 0)) with (1 + 1) by ring.
  lra.
Qed.

Lemma ln_2_le_1 : ln (INR 2) <= 1.
Proof.
  replace (INR 2) with 2 by (cbn; lra).
  apply Rle_trans with (ln (Rtrigo_def.exp 1)); [|rewrite ln_exp; lra].
  left. apply ln_increasing; [lra|].
  pose proof (exp_ineq1 1 ltac:(lra)). lra.
Qed.

Lemma corners_calibrated : calibrated corners.
Proof.
  unfold Plane.corners. apply calibrated_relocated.
  - now rewrite weighted_size.
  - apply weighted_calibrated. discriminate.
Qed.

Lemma corners_dimension :
  Forall (fun x : list R => length x = 2%nat) (locations corners).
Proof. repeat constructor. Qed.

Lemma log_unnormalized_prob_mass_fixed_point_witness :
  log_unnormalized_prob_mass 0 [0; 0] single = Done pair /\
  log_unnormalized_prob_mass 0 (log_prob_mass pair) pair = Done pair /\
  delta_log_prob_mass 0 (Eigen.Zero (size pair)) pair = Done pair.
Proof.
  split; [exact pair_set|].
  exact (log_unnormalized_prob_mass_fixed_point 0 [0; 0] single pair pair_set).
Defined.

Lemma delta_log_prob_mass_composes_witness :
  exists d1 d2,
    delta_log_prob_mass 0 [0; 0] pair = Done d1 /\
    delta_log_prob_mass 0 [0; 0] d1 = Done d2 /\
    delta_log_prob_mass 0 (Eigen.zip_with Rplus [0; 0] [0; 0]) pair = Done d2.
Proof.
  pose proof pair_delta as H1.
  set (d1 := weighted 0 (Eigen.zip_with Rplus (log_prob_mass_ pair) [0; 0]) pair)
    in H1.
  assert (H2 : delta_log_prob_mass 0 [0; 0] d1
               = Done (weighted 0 (Eigen.zip_with Rplus (log_prob_mass_ d1) [0; 0])
                         d1)).
  { apply delta_log_prob_mass_eq; [|discriminate].
    unfold d1. rewrite weighted_log_length.
    rewrite zip_with_length; unfold Scenario.pair; now rewrite weighted_log_length. }
  exists d1, (weighted 0 (Eigen.zip_with Rplus (log_prob_mass_ d1) [0; 0]) d1).
  split; [exact H1|]. split; [exact H2|].
  exact (proj2 (delta_log_prob_mass_composes 0 [0; 0] [0; 0] pair d1 _ H1 H2)).
Defined.

Lemma delta_log_prob_mass_bayes_witness :
  prob_mass_ pair = Eigen.exp (log_prob_mass_ pair) /\
  exists d',
    delta_log_prob_mass 0 [0; 0] pair = Done d' /\
    length (prob_mass d') = 2%nat.
Proof.
  assert (H1 : prob_mass_ pair = Eigen.exp (log_prob_mass_ pair))
    by apply pair_calibrated.
  split; [exact H1|]. eexists. split; [exact pair_delta|].
  exact (proj1 (delta_log_prob_mass_bayes 0 [0; 0] pair _ H1 pair_delta)).
Defined.

Lemma log_unnormalized_prob_mass_keeps_locations_witness :
  log_unnormalized_prob_mass 0 [0; 0] single = Done pair /\
  exists d'',
    delta_log_prob_mass 0 [0; 0] pair = Done d'' /\
    size pair = 2%nat /\
    locations d'' = locations pair.
Proof.
  split; [exact pair_set|]. eexists. split; [exact pair_delta|].
  destruct (log_unnormalized_prob_mass_keeps_locations 0 [0; 0] [0; 0]
              single pair _ pair_set pair_delta) as (Hsize & _ & _ & Hloc).
  split; [exact Hsize|exact Hloc].
Defined.

Lemma set_uniform_entropy_witness :
  set_uniform 0 2 single = Done pair /\
  entropy pair = Done (ln (INR 2)) /\
  kl_given_uniform pair = Done 0.
Proof.
  assert (H1 : set_uniform 0 2 single = Done pair) by exact pair_set.
  split; [exact H1|].
  exact (proj2 (set_uniform_entropy 0 2 single pair H1)).
Defined.

Lemma entropy_and_divergence_bounds_witness :
  calibrated pair /\
  exists h,
    entropy pair = Done h /\
    0 <= h <= ln (INR (size pair)).
Proof.
  split; [exact pair_calibrated|].
  destruct (entropy_and_divergence_bounds pair pair_calibrated)
    as (h & Hh & _ & Hb & _).
  exists h. split; [exact Hh|exact Hb].
Defined.

Lemma cumulative_weights_are_running_sums_witness :
  log_unnormalized_prob_mass 0 [0; 0] single = Done pair /\
  nth 0 (cumul_distr_ pair) 0 = nth 0 (prob_mass pair) 0 /\
  nth 0 (cumul_distr_ pair) 0 < nth 1 (cumul_distr_ pair) 0.
Proof.
  split; [exact pair_set|].
  destruct (cumulative_weights_are_running_sums 0 [0; 0] single pair pair_set)
    as (_ & Hfirst & _ & _ & Hstrict).
  split; [exact Hfirst|]. apply Hstrict. cbn [length]. lia.
Defined.

Lemma map_standard_uniform_interval_witness :
  aligned pair /\
  (0 < size pair)%nat /\
  (lower_bound (cumul_distr_ pair) (1 / 4) = 0%nat ->
   map_standard_uniform (1 / 4) pair = Done (nth 0 (locations_ pair) 0)).
Proof.
  assert (H1 : aligned pair).
  { apply normalized_aligned, weighted_normalized. discriminate. }
  assert (H2 : (0 < size pair)%nat) by (rewrite pair_size; lia).
  split; [exact H1|]. split; [exact H2|].
  exact (proj2 (map_standard_uniform_interval 0 (1 / 4) 0 pair H1 H2)).
Defined.

Lemma update_without_resampling_witness :
  calibrated (heap calm 0%nat) /\
  kl_given_uniform (heap calm 0%nat) = Done 0 /\
  ~ 0 > Scenario.default_max_kl_divergence /\
  exists w',
    filter_update 0%nat 0 1%nat calm = Done (tt, w') /\
    uniform_used w' = uniform_used calm /\
    locations (heap w' 1%nat) = locations (heap calm 0%nat).
Proof.
  assert (H1 : calibrated (heap calm 0%nat)) by exact pair_calibrated.
  assert (H2 : kl_given_uniform (heap calm 0%nat) = Done 0)
    by exact pair_divergence.
  assert (H3 : ~ 0 > Scenario.default_max_kl_divergence)
    by (unfold Scenario.default_max_kl_divergence; lra).
  split; [exact H1|]. split; [exact H2|]. split; [exact H3|].
  pose proof (update_without_resampling 0 Scenario.gaussian_log_probabilities
                Scenario.default_max_kl_divergence gaussian_log_probabilities_size
                0%nat 0 1%nat calm 0 H1 H2 H3) as Hrun.
  cbv zeta in Hrun. destruct Hrun as (w' & Hrun & Hu & _ & Hloc & _).
  exists w'. split; [exact Hrun|]. split; [exact Hu|exact Hloc].
Defined.

Lemma update_never_resamples_above_ln_size_witness :
  calibrated (heap calm 0%nat) /\
  ln (INR (size (heap calm 0%nat))) <= Scenario.default_max_kl_divergence /\
  exists w',
    filter_update 0%nat 0 1%nat calm = Done (tt, w') /\
    uniform_used w' = uniform_used calm.
Proof.
  assert (H1 : calibrated (heap calm 0%nat)) by exact pair_calibrated.
  assert (H2 : ln (INR (size (heap calm 0%nat)))
               <= Scenario.default_max_kl_divergence).
  { change (heap calm 0%nat) with pair. rewrite pair_size. exact ln_2_le_1. }
  split; [exact H1|]. split; [exact H2|].
  destruct (update_never_resamples_above_ln_size 0
              Scenario.gaussian_log_probabilities
              Scenario.default_max_kl_divergence gaussian_log_probabilities_size
              0%nat 0 1%nat calm H1 H2) as (w' & Hrun & Hu & _).
  exists w'. split; [exact Hrun|exact Hu].
Defined.

Lemma update_in_place_scores_own_locations_witness :
  cdf_ok (heap start 0%nat) /\
  exists w',
    filter_update 0%nat 0 0%nat start = Done (tt, w') /\
    size (heap w' 0%nat) = size (heap start 0%nat) /\
    prob_mass (heap w' 0%nat)
    = softmax (Scenario.gaussian_log_probabilities 0 (locations (heap w' 0%nat))).
Proof.
  assert (H1 : cdf_ok (heap start 0%nat)) by apply concentrated_normalized.
  split; [exact H1|].
  destruct concentrated_divergence as (kl & Hkl & Hgt).
  destruct (update_in_place_scores_own_locations 0
              Scenario.gaussian_log_probabilities
              Scenario.default_max_kl_divergence gaussian_log_probabilities_size
              0%nat 0 start kl Hkl Hgt H1 (fun k _ => concentrated_draws k))
    as (w' & Hrun & _ & Hsize & Hprob).
  exists w'. split; [exact Hrun|]. split; [exact Hsize|exact Hprob].
Defined.

Lemma update_returns_and_frames_witness :
  normalized (heap start 0%nat) /\
  exists w',
    filter_update 0%nat 0 1%nat start = Done (tt, w') /\
    heap w' 0%nat = heap start 0%nat /\
    noise_used w' = noise_used start.
Proof.
  assert (H1 : normalized (heap start 0%nat)) by apply concentrated_normalized.
  split; [exact H1|].
  destruct (update_returns_and_frames 0 Scenario.gaussian_log_probabilities
              Scenario.default_max_kl_divergence gaussian_log_probabilities_size
              0%nat 0 1%nat start H1 (fun k _ => concentrated_draws k))
    as (w' & Hrun & Hframe & Hnoise & _).
  exists w'. split; [exact Hrun|]. split; [|exact Hnoise].
  apply Hframe. discriminate.
Defined.

Lemma predict_and_update_is_composition_without_resampling_witness :
  normalized (heap calm 0%nat) /\
  kl_given_uniform (heap calm 0%nat) = Done 0 /\
  exists wA w1 wB,
    filter_predict_and_update 0%nat 0 0 1%nat calm = Done (tt, wA) /\
    filter_predict 0%nat 0 2%nat calm = Done (tt, w1) /\
    filter_update 2%nat 0 1%nat w1 = Done (tt, wB) /\
    heap wA 1%nat = heap wB 1%nat.
Proof.
  assert (H1 : normalized (heap calm 0%nat)) by apply pair_calibrated.
  assert (H2 : kl_given_uniform (heap calm 0%nat) = Done 0)
    by exact pair_divergence.
  assert (H3 : ~ 0 > Scenario.default_max_kl_divergence)
    by (unfold Scenario.default_max_kl_divergence; lra).
  split; [exact H1|]. split; [exact H2|].
  destruct (predict_and_update_is_composition_without_resampling 0
              Scenario.additive_state Scenario.gaussian_log_probabilities
              Scenario.default_max_kl_divergence gaussian_log_probabilities_size
              0%nat 0 0 1%nat 2%nat calm 0 H1 H2 H3)
    as (wA & w1 & wB & HA & Hp & HB & Hheap & _).
  exists wA, w1, wB. repeat split; assumption.
Defined.

Lemma update_of_created_belief_undefined_witness :
  heap start 1%nat = create_belief Scenario.zero_state 1 /\
  filter_update 1%nat 0 2%nat start = Undefined.
Proof.
  assert (H1 : heap start 1%nat = create_belief Scenario.zero_state 1)
    by reflexivity.
  split; [exact H1|].
  exact (proj2 (proj2 (update_of_created_belief_undefined Scenario.zero_state 0
                         Scenario.gaussian_log_probabilities
                         Scenario.default_max_kl_divergence
                         1%nat 0 2%nat 1%nat start H1))).
Defined.

Lemma from_distribution_nonpositive_undefined_witness :
  (0 <= 0)%Z /\
  @from_distribution R R 0 1%nat 0%nat 0 start = Undefined.
Proof.
  assert (H1 : (0 <= 0)%Z) by lia.
  split; [exact H1|].
  exact (from_distribution_nonpositive_undefined 0 1%nat 0%nat 0 start H1).
Defined.

Lemma from_distribution_draws_existing_particles_witness :
  (1 <= 9)%Z /\
  cdf_ok (heap start 0%nat) /\
  exists w',
    @from_distribution R R 0 1%nat 0%nat 9 start = Done (tt, w') /\
    forall x, In x (locations (heap w' 1%nat)) ->
              In x (locations (heap start 0%nat)).
Proof.
  assert (H1 : (1 <= 9)%Z) by lia.
  assert (H2 : cdf_ok (heap start 0%nat)) by apply concentrated_normalized.
  split; [exact H1|]. split; [exact H2|].
  exact (from_distribution_draws_existing_particles 0 1%nat 0%nat 9 start H1 H2
           (fun k _ => concentrated_draws k)).
Defined.

Lemma mean_is_convex_combination_witness :
  calibrated corners /\
  exists mu,
    mean corners = Done mu /\
    length mu = 2%nat /\
    0 <= nth 0 mu 0 <= 1.
Proof.
  split; [exact corners_calibrated|].
  destruct (mean_is_convex_combination corners 2 corners_calibrated
              corners_dimension) as (mu & Hmean & Hlen & _ & Hbounds).
  exists mu. split; [exact Hmean|]. split; [exact Hlen|].
  apply Hbounds. intros x [<-|[<-|[]]]; cbn [nth]; lra.
Defined.

Lemma covariance_symmetric_nonnegative_witness :
  calibrated corners /\
  exists mu cov,
    mean corners = Done mu /\
    covariance corners = Done cov /\
    length cov = 2%nat /\
    Dense.coeff cov 0 1 = Dense.coeff cov 1 0 /\
    0 <= Dense.coeff cov 0 0.
Proof.
  split; [exact corners_calibrated|].
  destruct (covariance_symmetric_nonnegative corners 2 corners_calibrated
              corners_dimension)
    as (mu & cov & Hmean & Hcov & Hrows & _ & _ & Hsym & Hdiag & _).
  exists mu, cov. split; [exact Hmean|]. split; [exact Hcov|].
  split; [exact Hrows|]. split; [apply Hsym|apply Hdiag].
Defined.

Lemma map_standard_normal_selects_particle_witness :
  aligned Binary64.seven /\
  (exists k,
     (k < size Binary64.seven)%nat /\
     map_standard_normal (fun _ => 0) 0 Binary64.seven
     = Done (nth k (locations Binary64.seven) 0)) /\
  map_standard_normal (fun _ => 1) 10 Binary64.seven = Undefined.
Proof.
  assert (H1 : aligned Binary64.seven) by exact seven_aligned.
  split; [exact H1|]. split.
  - pose proof (map_standard_normal_selects_particle 0 (fun _ => 0) 0
                  Binary64.seven H1) as Hlookup.
    cbv beta zeta in Hlookup. destruct Hlookup as (_ & Hsel & _).
    destruct Hsel as (k & Hk & Hrun & _).
    { cbn [Binary64.seven cumul_distr_ last]. lra. }
    exists k. split; [exact Hk|exact Hrun].
  - pose proof (map_standard_normal_selects_particle 0 (fun _ => 1) 10
                  Binary64.seven H1) as Hlookup.
    cbv beta zeta in Hlookup. destruct Hlookup as (_ & _ & Hsat).
    apply Hsat; [reflexivity|].
    cbn [Binary64.seven cumul_distr_ last]. lra.
Defined.

Lemma set_dimension_raises_iff_fixed_witness :
  StandardGaussian.is_int (GaussianSampler.dimension_ Plane.counting) /\
  StandardGaussian.is_size_t (2 ^ 32 + 5) /\
  exists g',
    GaussianSampler.set_dimension (2 ^ 32 + 5) Plane.counting = Done g' /\
    GaussianSampler.dimension_ g' = 5%Z.
Proof.
  assert (H1 : StandardGaussian.is_int (GaussianSampler.dimension_ Plane.counting)).
  { change (GaussianSampler.dimension_ Plane.counting) with 2%Z.
    unfold StandardGaussian.is_int. lia. }
  assert (H2 : StandardGaussian.is_size_t (2 ^ 32 + 5)).
  { unfold StandardGaussian.is_size_t. lia. }
  split; [exact H1|]. split; [exact H2|].
  pose proof (set_dimension_raises_iff_fixed (2 ^ 32 + 5) Plane.counting H1 H2)
    as Hset.
  cbv zeta in Hset. destruct Hset as (_ & _ & Hdone).
  destruct (Hdone (or_introl eq_refl)) as (g' & Hrun & Hdim & _).
  exists g'. split; [exact Hrun|]. rewrite Hdim. reflexivity.
Defined.

End FurtherInstances.
